(** * Whisperspace rules reference: the document annotation engine

    A shallow embedding of the engine of [src/ui/RulesApp.tsx] and of the
    keyword matcher ([weaponKeywords.ts]), with the properties of the
    rules-reference specification stated and proved over it.

    Conventions of the embedding.
    - A JavaScript string is a list of code units; the code units are
      restricted to the range 0..255 ([ascii]).  [lit "..."] writes one.
      In this range [toLowerCase] works unit by unit; beyond it a
      lower-cased text can be longer than the text (U+0130) and a capital
      sigma is lower-cased by its context, so lengths and positions in a
      lower-cased text are stated on the lower-cased text itself.
    - An optional property ([slug?], [spans?], ...) is an [option].
    - A JavaScript [Map] is an association list in insertion order
      ([Map.set] on a present key updates the entry in place).
    - Rendered React nodes are kept as a small logical tree ([Node]): the
      text fragments, [<mark>] highlights, tooltip spans and anchor links;
      styling is dropped.
    - The text of a pattern is built as the code builds it; [new RegExp]
      is a parser of the constructs that occur in these texts, and a match
      is the backtracking search of the JavaScript engine over the parsed
      atoms. *)

From Stdlib Require Import List Ascii Arith Bool Lia PeanoNat.
From Stdlib Require String.
Import ListNotations.
Import String.StringSyntax.
Delimit Scope string_scope with string.

(* ================================================================== *)
(** * Strings *)

Module Str.

Definition str := list ascii.

Definition lit (s : String.string) : str := String.list_ascii_of_string s.
Arguments lit s%_string.

Definition code (c : ascii) : nat := nat_of_ascii c.

Definition ch (n : nat) : ascii := ascii_of_nat n.

Fixpoint eqb (a b : str) : bool :=
  match a, b with
  | [], [] => true
  | x :: a', y :: b' => Ascii.eqb x y && eqb a' b'
  | _, _ => false
  end.

Lemma eqb_spec (a b : str) : eqb a b = true <-> a = b.
Proof.
  revert b; induction a as [|x a IH]; intros [|y b]; simpl; split;
    try congruence; try reflexivity.
  - rewrite andb_true_iff, Ascii.eqb_eq, IH. intros [-> ->]; reflexivity.
  - intros E; inversion E; subst. rewrite Ascii.eqb_refl.
    apply IH; reflexivity.
Qed.

Lemma eqb_refl (a : str) : eqb a a = true.
Proof. apply eqb_spec; reflexivity. Qed.

Lemma eqb_neq (a b : str) : eqb a b = false <-> a <> b.
Proof.
  split.
  - intros E H. apply eqb_spec in H. congruence.
  - intros H. destruct (eqb a b) eqn:E; [|reflexivity].
    apply eqb_spec in E. contradiction.
Qed.

(** [s.startsWith(p)], and the rest of [s] after the prefix. *)
Fixpoint strip_prefix (p s : str) : option str :=
  match p, s with
  | [], _ => Some s
  | x :: p', y :: s' => if Ascii.eqb x y then strip_prefix p' s' else None
  | _ :: _, [] => None
  end.

Definition starts_with (p s : str) : bool :=
  match strip_prefix p s with Some _ => true | None => false end.

(** [s.indexOf(q)] from the start of [s]: [None] is JavaScript's [-1]. *)
Fixpoint indexOf (q s : str) : option nat :=
  if starts_with q s then Some 0
  else match s with
       | [] => None
       | _ :: s' => option_map S (indexOf q s')
       end.

(** [s.indexOf(q, idx)] *)
Definition indexOfFrom (q s : str) (idx : nat) : option nat :=
  option_map (fun hit => idx + hit) (indexOf q (skipn idx s)).

(** [s.slice(from, to)] for [from <= to]. *)
Definition slice (s : str) (from to : nat) : str :=
  firstn (to - from) (skipn from s).

(** [s.includes(q)]. *)
Definition includes (q s : str) : bool :=
  match indexOf q s with Some _ => true | None => false end.

(** Character classes, on code units below 256. *)

Definition in_range (lo hi : nat) (c : ascii) : bool :=
  (lo <=? code c) && (code c <=? hi).

(** White space of [String.prototype.trim] and of the regular expression
    class [\s]: TAB, LF, VT, FF, CR, SPACE and NBSP. *)
Definition isSpace (c : ascii) : bool :=
  in_range 9 13 c || (code c =? 32) || (code c =? 160).

(** The class [[A-Za-z0-9]]. *)
Definition isAlnum (c : ascii) : bool :=
  in_range 65 90 c || in_range 97 122 c || in_range 48 57 c.

(** The class [[a-z0-9]]. *)
Definition isLowerAlnum (c : ascii) : bool :=
  in_range 97 122 c || in_range 48 57 c.

(** The class [\w] that decides a word boundary [\b]: [[A-Za-z0-9_]]. *)
Definition isWordChar (c : ascii) : bool :=
  isAlnum c || (code c =? 95).

(** Line terminators, which [.] does not match: LF and CR. *)
Definition isLineTerminator (c : ascii) : bool :=
  (code c =? 10) || (code c =? 13).

(** [toLowerCase] on one code unit: A-Z, and the Latin-1 capitals
    U+00C0..U+00DE except the multiplication sign U+00D7. *)
Definition lower_char (c : ascii) : ascii :=
  if in_range 65 90 c then ch (code c + 32)
  else if in_range 192 222 c && negb (code c =? 215) then ch (code c + 32)
  else c.

Definition toLowerCase (s : str) : str := map lower_char s.

Fixpoint trimStart (s : str) : str :=
  match s with
  | c :: s' => if isSpace c then trimStart s' else s
  | [] => []
  end.

Definition trimEnd (s : str) : str := rev (trimStart (rev s)).

Definition trim (s : str) : str := trimEnd (trimStart s).

(** JavaScript truthiness of a string: the empty string is falsy. *)
Definition truthy (s : str) : bool :=
  match s with [] => false | _ => true end.

(** [s.split(sep)] for a one-character separator. *)
Fixpoint split_on (sep : ascii) (s : str) : list str :=
  match s with
  | [] => [[]]
  | c :: s' =>
      if Ascii.eqb c sep then [] :: split_on sep s'
      else match split_on sep s' with
           | [] => [[c]]
           | w :: ws => (c :: w) :: ws
           end
  end.

(** [String(n)] for a natural number: its decimal digits. *)
Fixpoint digits (fuel n : nat) (acc : str) : str :=
  match fuel with
  | 0 => acc
  | S fuel' =>
      let acc' := ch (48 + n mod 10) :: acc in
      if n / 10 =? 0 then acc' else digits fuel' (n / 10) acc'
  end.

Definition of_nat (n : nat) : str := digits (S n) n [].

(** [s.replace(/C+/g, "-")] for a character class [C]: every maximal run
    of characters of the class becomes one hyphen.  [in_run] tells that the
    previous character was of the class. *)
Fixpoint hyphenate_runs (cls : ascii -> bool) (in_run : bool) (s : str) : str :=
  match s with
  | [] => []
  | c :: s' =>
      if cls c
      then if in_run then hyphenate_runs cls true s'
           else ch 45 :: hyphenate_runs cls true s'
      else c :: hyphenate_runs cls false s'
  end.

Fixpoint drop_while (p : ascii -> bool) (s : str) : str :=
  match s with
  | c :: s' => if p c then drop_while p s' else s
  | [] => []
  end.

Definition isHyphen (c : ascii) : bool := code c =? 45.

(** [s.replace(/^-+|-+$/g, '')] *)
Definition strip_hyphens (s : str) : str :=
  rev (drop_while isHyphen (rev (drop_while isHyphen s))).

(** The slug of both files:
    [toLowerCase().replace(/[^a-z0-9]+/g, "-").replace(/^-+|-+$/g, '')]. *)
Definition slugify (value : str) : str :=
  strip_hyphens
    (hyphenate_runs (fun c => negb (isLowerAlnum c)) false (toLowerCase value)).

(** [parts.join(sep)] *)
Fixpoint join (sep : str) (parts : list str) : str :=
  match parts with
  | [] => []
  | [p] => p
  | p :: ps => p ++ sep ++ join sep ps
  end.

(** The first occurrence of [needle] in [hay]: what stands before it and
    what stands after it. *)
Fixpoint split_first (needle hay : str) : option (str * str) :=
  match strip_prefix needle hay with
  | Some after => Some ([], after)
  | None =>
      match hay with
      | [] => None
      | c :: hay' =>
          match split_first needle hay' with
          | Some (before, after) => Some (c :: before, after)
          | None => None
          end
      end
  end.

(** [x] occurs in [s] as a contiguous substring. *)
Definition occurs (x s : str) : Prop := exists a b, s = a ++ x ++ b.

Lemma strip_prefix_app (p s : str) : strip_prefix p (p ++ s) = Some s.
Proof.
  induction p as [|x p IH]; simpl; [reflexivity|].
  rewrite Ascii.eqb_refl. exact IH.
Qed.

Lemma strip_prefix_some (p s r : str) :
  strip_prefix p s = Some r -> s = p ++ r.
Proof.
  revert s; induction p as [|x p IH]; intros s; simpl.
  - intros E; inversion E; reflexivity.
  - destruct s as [|y s]; [discriminate|].
    destruct (Ascii.eqb x y) eqn:E; [|discriminate].
    apply Ascii.eqb_eq in E; subst y. intros H. f_equal. apply IH, H.
Qed.

Lemma starts_with_app (p s : str) : starts_with p (p ++ s) = true.
Proof. unfold starts_with. rewrite strip_prefix_app. reflexivity. Qed.

Lemma starts_with_true (p s : str) :
  starts_with p s = true <-> exists r, s = p ++ r.
Proof.
  unfold starts_with. split.
  - destruct (strip_prefix p s) eqn:E; [|discriminate].
    intros _. exists s0. apply strip_prefix_some, E.
  - intros [r ->]. rewrite strip_prefix_app. reflexivity.
Qed.

Lemma includes_spec (q s : str) : includes q s = true <-> occurs q s.
Proof.
  unfold includes, occurs. induction s as [|c s IH].
  - simpl. destruct (starts_with q []) eqn:E.
    + split; [intros _|reflexivity].
      apply starts_with_true in E. destruct E as [r E].
      exists [], r. exact E.
    + split; [discriminate|].
      intros (a & b & E'). exfalso.
      symmetry in E'. apply app_eq_nil in E'. destruct E' as [-> E'].
      apply app_eq_nil in E'. destruct E' as [-> ->].
      simpl in E. discriminate.
  - simpl. destruct (starts_with q (c :: s)) eqn:E.
    + split; [intros _|reflexivity].
      apply starts_with_true in E. destruct E as [r E].
      exists [], r. exact E.
    + destruct (indexOf q s) eqn:I; simpl.
      * split; [intros _|reflexivity].
        destruct IH as [IH _]. destruct (IH eq_refl) as (a & b & ->).
        exists (c :: a), b. reflexivity.
      * split; [discriminate|].
        intros (a & b & E'). destruct a as [|x a].
        -- simpl in E'. rewrite E' in E. rewrite starts_with_app in E.
           discriminate.
        -- inversion E'; subst. destruct IH as [_ IH].
           assert (H : false = true) by (apply IH; eauto). discriminate.
Qed.

End Str.

Import Str.

(* ================================================================== *)
(** * Data model ([RuleSpan], [RuleBlock], [RuleSection]) *)

Record RuleSpan := mkSpan { span_text : option str }.

(** A table cell or a list item: [{ text: string; spans?: RuleSpan[] }]. *)
Record Cell := mkCell { cell_text : str; cell_spans : option (list RuleSpan) }.

Inductive RuleBlock :=
| Paragraph (text : str) (spans : option (list RuleSpan))
| ListBlock (ordered : option bool) (items : option (list Cell))
| Table (rows : list (list Cell)).

#[warnings="-register-all"]
(** [RuleSection], and [RuleDoc = RuleSection & { file?: string }]: a
    document is a section that may carry [file]. *)
Inductive RuleSection :=
| mkSection (title : str) (slug : option str) (level : option nat)
            (content : option (list RuleBlock))
            (sections : option (list RuleSection))
            (file : option str).

Definition title (s : RuleSection) : str :=
  let 'mkSection t _ _ _ _ _ := s in t.
Definition slug (s : RuleSection) : option str :=
  let 'mkSection _ sl _ _ _ _ := s in sl.
Definition level (s : RuleSection) : option nat :=
  let 'mkSection _ _ lv _ _ _ := s in lv.
Definition content (s : RuleSection) : option (list RuleBlock) :=
  let 'mkSection _ _ _ c _ _ := s in c.
Definition sections (s : RuleSection) : option (list RuleSection) :=
  let 'mkSection _ _ _ _ ss _ := s in ss.
Definition file (s : RuleSection) : option str :=
  let 'mkSection _ _ _ _ _ f := s in f.

(** Induction on a section with the hypothesis on every child. *)
Section RuleSectionInduction.

Variable P : RuleSection -> Prop.
Hypothesis Hmk : forall t sl lv c ss f,
    (forall l, ss = Some l -> Forall P l) -> P (mkSection t sl lv c ss f).

Fixpoint RuleSection_children_ind (s : RuleSection) : P s :=
  match s with
  | mkSection t sl lv c ss f =>
      Hmk t sl lv c ss f
        (match ss as o return forall l, o = Some l -> Forall P l with
         | None => fun l E => match E in _ = y return
                                match y with Some _ => Forall P l | None => True end
                              with eq_refl => I end
         | Some l0 =>
             fun l E =>
               match E in _ = y return
                 match y with Some l' => Forall P l' | None => True end
               with
               | eq_refl =>
                   (fix go (k : list RuleSection) : Forall P k :=
                      match k with
                      | [] => Forall_nil P
                      | x :: k' => Forall_cons x (RuleSection_children_ind x) (go k')
                      end) l0
               end
         end)
  end.

End RuleSectionInduction.

(** [x ?? []] *)
Definition orNil {A} (o : option (list A)) : list A :=
  match o with Some l => l | None => [] end.

Definition isParagraph (b : RuleBlock) : bool :=
  match b with Paragraph _ _ => true | _ => false end.

Definition isTable (b : RuleBlock) : bool :=
  match b with Table _ => true | _ => false end.

(* ================================================================== *)
(** * Content normalizer ([normalizeContent]) *)

Module Normalizer.

(** [table.rows.flat().map((cell) => String(cell.text ?? ''))] *)
Definition flattenTableText (rows : list (list Cell)) : list str :=
  map cell_text (concat rows).

(** [flattenTableText(block).filter((t) => t.length > 0)] *)
Definition tableTexts (rows : list (list Cell)) : list str :=
  filter truthy (flattenTableText rows).

(** The inner [for] loop: [k] walks [tableTexts], [j] walks [content];
    the result is the value of [j] when the loop is left. *)
Fixpoint dup_scan (content : list RuleBlock) (texts : list str) (j : nat) : nat :=
  match texts with
  | [] => j
  | t :: texts' =>
      match nth_error content j with
      | None => j
      | Some (Paragraph text _) =>
          if Str.eqb text t then dup_scan content texts' (S j) else j
      | Some _ => j
      end
  end.

(** The outer [for] loop, one iteration per unit of [fuel]; [i] is the loop
    index and [out] the array built so far. *)
Fixpoint normalize_loop (fuel : nat) (content : list RuleBlock) (i : nat)
                        (out : list RuleBlock) : list RuleBlock :=
  match fuel with
  | 0 => out
  | S fuel' =>
      match nth_error content i with
      | None => out
      | Some block =>
          let out := out ++ [block] in
          match block with
          | Table rows =>
              match tableTexts rows with
              | [] => normalize_loop fuel' content (i + 1) out
              | texts =>
                  let j := dup_scan content texts (i + 1) in
                  let duplicateCount := j - (i + 1) in
                  let i' := if 0 <? duplicateCount then i + duplicateCount else i in
                  normalize_loop fuel' content (i' + 1) out
              end
          | _ => normalize_loop fuel' content (i + 1) out
          end
      end
  end.

(** The index grows at every iteration, so [content.length] iterations
    always reach the end of the array. *)
Definition normalizeContent (content : list RuleBlock) : list RuleBlock :=
  normalize_loop (length content) content 0 [].

(** ** The run of duplicates, on lists *)

(** The number of leading blocks of [rest] that are paragraphs whose texts
    are, in order, the leading elements of [texts]. *)
Fixpoint dup_count (texts : list str) (rest : list RuleBlock) : nat :=
  match texts, rest with
  | t :: texts', Paragraph text _ :: rest' =>
      if Str.eqb text t then S (dup_count texts' rest') else 0
  | _, _ => 0
  end.

(** What one block makes the loop skip after it. *)
Definition skip_after (b : RuleBlock) (rest : list RuleBlock) : nat :=
  match b with
  | Table rows => dup_count (tableTexts rows) rest
  | _ => 0
  end.

(** [d] is the length of the maximal run of duplicates at the head of
    [rest]: the first [d] blocks are paragraphs carrying the first [d]
    texts, and the run ends because the texts are used up, the input ends,
    or the next block is not a paragraph with the next text. *)
Definition maximal_run (texts : list str) (rest : list RuleBlock) (d : nat) : Prop :=
  d <= length texts /\ d <= length rest /\
  (forall k, k < d ->
     exists t sp, nth_error texts k = Some t /\
                  nth_error rest k = Some (Paragraph t sp)) /\
  (d = length texts \/ d = length rest \/
   exists t b, nth_error texts d = Some t /\ nth_error rest d = Some b /\
               forall sp, b <> Paragraph t sp).

(** [out] is [l] with some blocks left out, order kept. *)
Inductive Subseq {A} : list A -> list A -> Prop :=
| Subseq_nil : Subseq [] []
| Subseq_keep x l1 l2 : Subseq l1 l2 -> Subseq (x :: l1) (x :: l2)
| Subseq_drop x l1 l2 : Subseq l1 l2 -> Subseq l1 (x :: l2).

Lemma Subseq_refl {A} (l : list A) : Subseq l l.
Proof. induction l; constructor; assumption. Qed.

Lemma Subseq_skipn {A} (n : nat) (l : list A) : Subseq (skipn n l) l.
Proof.
  revert l; induction n as [|n IH]; intros l; simpl.
  - apply Subseq_refl.
  - destruct l as [|x l]; [constructor|]. apply Subseq_drop, IH.
Qed.

Lemma Subseq_trans {A} (l1 l2 l3 : list A) :
  Subseq l1 l2 -> Subseq l2 l3 -> Subseq l1 l3.
Proof.
  intros H12 H23. revert l1 H12.
  induction H23 as [|x l2 l3 H IH|x l2 l3 H IH]; intros l1 H12.
  - exact H12.
  - inversion H12; subst.
    + apply Subseq_keep, IH; assumption.
    + apply Subseq_drop, IH; assumption.
  - apply Subseq_drop, IH, H12.
Qed.

(** ** The loop, read on the remaining suffix of the array *)

Lemma nth_error_skipn_hd {A} (l : list A) (i : nat) :
  nth_error l i = hd_error (skipn i l).
Proof.
  revert l; induction i as [|i IH]; intros [|x l]; simpl; auto.
Qed.

Lemma skipn_S_tl {A} (l : list A) (i : nat) (x : A) (r : list A) :
  skipn i l = x :: r -> skipn (S i) l = r.
Proof.
  revert l; induction i as [|i IH]; intros [|y l]; simpl; try discriminate.
  - intros E; inversion E; reflexivity.
  - intros E. apply IH in E. exact E.
Qed.

Lemma dup_scan_count (content : list RuleBlock) (texts : list str) (j : nat) :
  dup_scan content texts j = j + dup_count texts (skipn j content).
Proof.
  revert j; induction texts as [|t texts IH]; intros j; simpl.
  - lia.
  - rewrite nth_error_skipn_hd.
    destruct (skipn j content) as [|b r] eqn:E; simpl; [lia|].
    destruct b; try lia.
    destruct (Str.eqb text t); [|lia].
    rewrite IH, (skipn_S_tl _ _ _ _ E). lia.
Qed.

Lemma dup_count_le (texts : list str) (rest : list RuleBlock) :
  dup_count texts rest <= length rest.
Proof.
  revert rest; induction texts as [|t texts IH]; intros [|b rest]; simpl; try lia.
  destruct b; try lia. destruct (Str.eqb text t); [|lia].
  specialize (IH rest). lia.
Qed.

(** The list reading of the loop: the head block is kept, its duplicates
    are skipped, and the loop goes on behind them. *)
Fixpoint norm (fuel : nat) (rest : list RuleBlock) : list RuleBlock :=
  match fuel, rest with
  | S fuel', b :: rest' => b :: norm fuel' (skipn (skip_after b rest') rest')
  | _, _ => []
  end.

Lemma skipn_skipn_add {A} (a b : nat) (l : list A) :
  skipn a (skipn b l) = skipn (b + a) l.
Proof.
  revert l; induction b as [|b IH]; intros l; simpl; [reflexivity|].
  destruct l; [apply skipn_nil|]. apply IH.
Qed.

Lemma loop_norm (fuel : nat) (content : list RuleBlock) (i : nat)
                (out : list RuleBlock) :
  normalize_loop fuel content i out = out ++ norm fuel (skipn i content).
Proof.
  revert i out; induction fuel as [|fuel IH]; intros i out.
  - simpl. rewrite app_nil_r; reflexivity.
  - cbn [normalize_loop]. rewrite nth_error_skipn_hd.
    destruct (skipn i content) as [|b r] eqn:E; cbn [hd_error norm].
    + rewrite app_nil_r; reflexivity.
    + assert (E1 : skipn (i + 1) content = r)
        by (rewrite Nat.add_1_r; apply (skipn_S_tl _ _ _ _ E)).
      assert (step0 : normalize_loop fuel content (i + 1) (out ++ [b])
                      = out ++ b :: norm fuel (skipn 0 r)).
      { rewrite IH, E1, <- app_assoc. reflexivity. }
      destruct b as [t sp|o it|rows]; try exact step0.
      unfold skip_after.
      destruct (tableTexts rows) as [|t0 ts] eqn:ET.
      * exact step0.
      * cbv zeta. rewrite dup_scan_count, E1.
        set (d := dup_count (t0 :: ts) r).
        replace (i + 1 + d - (i + 1)) with d by lia.
        rewrite IH, <- app_assoc. simpl. do 3 f_equal.
        destruct (0 <? d) eqn:Z.
        -- replace (i + d + 1) with (i + 1 + d) by lia.
           rewrite <- skipn_skipn_add, E1. reflexivity.
        -- apply Nat.ltb_ge in Z. assert (d = 0) by lia.
           replace d with 0 by lia. rewrite E1. reflexivity.
Qed.

Lemma norm_fuel (fuel1 fuel2 : nat) (rest : list RuleBlock) :
  length rest <= fuel1 -> length rest <= fuel2 -> norm fuel1 rest = norm fuel2 rest.
Proof.
  revert fuel2 rest; induction fuel1 as [|f1 IH]; intros fuel2 rest H1 H2.
  - destruct rest; [|simpl in H1; lia]. destruct fuel2; reflexivity.
  - destruct rest as [|b rest]; [destruct fuel2; reflexivity|].
    destruct fuel2 as [|f2]; [simpl in H2; lia|]. simpl. f_equal.
    simpl in H1, H2.
    apply IH; rewrite length_skipn; lia.
Qed.

(** The unfolding equation of the normalizer. *)
Lemma normalizeContent_cons (b : RuleBlock) (rest : list RuleBlock) :
  normalizeContent (b :: rest)
  = b :: normalizeContent (skipn (skip_after b rest) rest).
Proof.
  unfold normalizeContent. rewrite !loop_norm. simpl. f_equal.
  apply norm_fuel; rewrite length_skipn; lia.
Qed.

Lemma normalizeContent_nil : normalizeContent [] = [].
Proof. reflexivity. Qed.

(** [out] is [inp] with some paragraph blocks left out, and nothing else. *)
Inductive DropsParagraphs : list RuleBlock -> list RuleBlock -> Prop :=
| DP_nil : DropsParagraphs [] []
| DP_keep b out inp : DropsParagraphs out inp -> DropsParagraphs (b :: out) (b :: inp)
| DP_drop t sp out inp : DropsParagraphs out inp -> DropsParagraphs out (Paragraph t sp :: inp).

Lemma DropsParagraphs_Subseq (out inp : list RuleBlock) :
  DropsParagraphs out inp -> Subseq out inp.
Proof. induction 1; constructor; assumption. Qed.

Lemma DropsParagraphs_filter (out inp : list RuleBlock) :
  DropsParagraphs out inp ->
  filter (fun b => negb (isParagraph b)) out
  = filter (fun b => negb (isParagraph b)) inp.
Proof.
  induction 1 as [|b out inp H IH|t sp out inp H IH]; simpl.
  - reflexivity.
  - rewrite IH; reflexivity.
  - exact IH.
Qed.

Lemma DropsParagraphs_keeps (out inp : list RuleBlock) (b : RuleBlock) :
  DropsParagraphs out inp -> In b inp -> isParagraph b = false -> In b out.
Proof.
  induction 1 as [|b' out inp H IH|t sp out inp H IH]; simpl; intros Hin Hb.
  - contradiction.
  - destruct Hin as [->|Hin]; [left; reflexivity|right; auto].
  - destruct Hin as [<-|Hin]; [discriminate|auto].
Qed.

Lemma DropsParagraphs_run (texts : list str) (out rest : list RuleBlock) :
  DropsParagraphs out (skipn (dup_count texts rest) rest) ->
  DropsParagraphs out rest.
Proof.
  revert rest; induction texts as [|t texts IH]; intros rest; simpl.
  - destruct rest; simpl; auto.
  - destruct rest as [|b rest]; simpl; auto.
    destruct b as [text sp|o it|rows]; simpl; auto.
    destruct (Str.eqb text t); simpl; auto.
    intros H. apply DP_drop, IH, H.
Qed.

Lemma dup_count_stop (texts : list str) (pre : list RuleBlock) (b : RuleBlock)
                     (rest : list RuleBlock) :
  isParagraph b = false ->
  dup_count texts (pre ++ b :: rest) = dup_count texts pre.
Proof.
  intros Hb. revert pre; induction texts as [|t texts IH]; intros pre; simpl.
  - destruct pre; reflexivity.
  - destruct pre as [|p pre]; simpl.
    + destruct b; [discriminate|reflexivity|reflexivity].
    + destruct p as [text sp|o it|rows]; try reflexivity.
      destruct (Str.eqb text t); [|reflexivity]. rewrite IH; reflexivity.
Qed.

Lemma skip_after_stop (p : RuleBlock) (pre : list RuleBlock) (b : RuleBlock)
                      (rest : list RuleBlock) :
  isParagraph b = false ->
  skip_after p (pre ++ b :: rest) = skip_after p pre.
Proof.
  intros Hb. destruct p; simpl; try reflexivity. apply dup_count_stop, Hb.
Qed.

Lemma skip_after_le (p : RuleBlock) (rest : list RuleBlock) :
  skip_after p rest <= length rest.
Proof. destruct p; simpl; try lia. apply dup_count_le. Qed.

(** A block that is not a paragraph cuts the input: what comes before it
    is normalized on its own. *)
Lemma normalizeContent_cut (pre : list RuleBlock) (b : RuleBlock)
                           (rest : list RuleBlock) :
  isParagraph b = false ->
  normalizeContent (pre ++ b :: rest)
  = normalizeContent pre ++ normalizeContent (b :: rest).
Proof.
  intros Hb. remember (length pre) as n eqn:En.
  revert pre En. induction n as [n IH] using lt_wf_ind. intros pre En.
  destruct pre as [|p pre]; [reflexivity|].
  simpl app.
  rewrite (normalizeContent_cons p (pre ++ b :: rest)), (normalizeContent_cons p pre).
  simpl app. f_equal.
  rewrite (skip_after_stop p pre b rest Hb).
  pose proof (skip_after_le p pre) as Hle.
  rewrite skipn_app.
  replace (skip_after p pre - length pre) with 0 by lia. simpl skipn.
  apply (IH (length (skipn (skip_after p pre) pre))); [|reflexivity].
  rewrite length_skipn. subst n. simpl. lia.
Qed.

Lemma dup_count_maximal (texts : list str) (rest : list RuleBlock) :
  maximal_run texts rest (dup_count texts rest).
Proof.
  revert rest; induction texts as [|t texts IH]; intros rest.
  - unfold maximal_run. simpl. repeat split; try lia; intros; lia.
  - destruct rest as [|b rest].
    + unfold maximal_run. simpl. repeat split; try lia; intros; lia.
    + assert (stop : (forall sp, b <> Paragraph t sp) ->
                maximal_run (t :: texts) (b :: rest) 0).
      { intros Hne. unfold maximal_run. simpl length.
        repeat split; try lia.
        right; right. exists t, b. repeat split. exact Hne. }
      destruct b as [text sp|o it|rows]; simpl dup_count;
        try (apply stop; intros sp0; discriminate).
      destruct (Str.eqb text t) eqn:E.
      * apply Str.eqb_spec in E; subst text.
        destruct (IH rest) as (H1 & H2 & H3 & H4).
        unfold maximal_run. repeat split; simpl; try lia.
        -- intros [|k] Hk; simpl.
           ++ exists t, sp. split; reflexivity.
           ++ apply H3. lia.
        -- destruct H4 as [H4|[H4|H4]]; [left; lia|right; left; lia|].
           right; right. exact H4.
      * apply Str.eqb_neq in E. apply stop.
        intros sp0 E'. inversion E'; subst. apply E; reflexivity.
Qed.

Lemma maximal_run_unique (texts : list str) (rest : list RuleBlock) (d1 d2 : nat) :
  maximal_run texts rest d1 -> maximal_run texts rest d2 -> d1 = d2.
Proof.
  assert (lt_absurd : forall a b, maximal_run texts rest a ->
                         maximal_run texts rest b -> a < b -> False).
  { intros a b (A1 & A2 & A3 & A4) (B1 & B2 & B3 & B4) Hlt.
    destruct (B3 a Hlt) as (t & sp & Ht & Hr).
    assert (a < length texts) by (apply nth_error_Some; congruence).
    assert (a < length rest) by (apply nth_error_Some; congruence).
    destruct A4 as [A4|[A4|(t' & b' & Ht' & Hr' & Hne)]]; try lia.
    rewrite Ht in Ht'. inversion Ht'; subst t'.
    rewrite Hr in Hr'. inversion Hr'; subst b'.
    apply (Hne sp); reflexivity. }
  intros H1 H2.
  destruct (Nat.lt_trichotomy d1 d2) as [H|[H|H]]; [|exact H|].
  - destruct (lt_absurd d1 d2 H1 H2 H).
  - destruct (lt_absurd d2 d1 H2 H1 H).
Qed.

Lemma normalizeContent_drops (c : list RuleBlock) :
  DropsParagraphs (normalizeContent c) c.
Proof.
  remember (length c) as n eqn:En.
  revert c En. induction n as [n IH] using lt_wf_ind. intros c En.
  destruct c as [|b rest]; [constructor|].
  rewrite normalizeContent_cons. apply DP_keep.
  assert (Hrec : DropsParagraphs
                   (normalizeContent (skipn (skip_after b rest) rest))
                   (skipn (skip_after b rest) rest)).
  { apply (IH (length (skipn (skip_after b rest) rest))); [|reflexivity].
    rewrite length_skipn. subst n. simpl. lia. }
  destruct b as [t sp|o it|rows]; simpl in *; try exact Hrec.
  apply (DropsParagraphs_run _ _ _ Hrec).
Qed.

End Normalizer.

(* ================================================================== *)
(** * Search filter ([sectionMatchesQuery], [countQueryMatches],
      [filterSection]) *)

Module Search.

(** ** [JSON.stringify]

    Property names come in the order of the type declarations; a property
    that is [undefined] is left out. *)

Definition dquote : ascii := ch 34.
Definition backslash : ascii := ch 92.

Definition hex_digit (n : nat) : ascii :=
  if n <? 10 then ch (48 + n) else ch (87 + n).

(** [QuoteJSONString] on one code unit. *)
Definition escape_char (c : ascii) : str :=
  let n := code c in
  if n =? 34 then [backslash; dquote]
  else if n =? 92 then [backslash; backslash]
  else if n =? 8 then backslash :: lit "b"
  else if n =? 12 then backslash :: lit "f"
  else if n =? 10 then backslash :: lit "n"
  else if n =? 13 then backslash :: lit "r"
  else if n =? 9 then backslash :: lit "t"
  else if n <? 32 then backslash :: lit "u00" ++ [hex_digit (n / 16); hex_digit (n mod 16)]
  else [c].

Definition escape (s : str) : str := flat_map escape_char s.

Definition json_string (s : str) : str := dquote :: escape s ++ [dquote].

Definition json_bool (b : bool) : str := if b then lit "true" else lit "false".

Definition json_nat (n : nat) : str := Str.of_nat n.

Definition json_array (elems : list str) : str :=
  lit "[" ++ join (lit ",") elems ++ lit "]".

Definition json_member (m : str * option str) : list str :=
  match snd m with
  | Some v => [json_string (fst m) ++ lit ":" ++ v]
  | None => []
  end.

Definition json_object (members : list (str * option str)) : str :=
  lit "{" ++ join (lit ",") (flat_map json_member members) ++ lit "}".

Definition span_json (sp : RuleSpan) : str :=
  json_object [(lit "text", option_map json_string (span_text sp))].

Definition spans_json (o : option (list RuleSpan)) : option str :=
  option_map (fun l => json_array (map span_json l)) o.

Definition cell_json (c : Cell) : str :=
  json_object [(lit "text", Some (json_string (cell_text c)));
               (lit "spans", spans_json (cell_spans c))].

Definition block_json (b : RuleBlock) : str :=
  match b with
  | Paragraph text spans =>
      json_object [(lit "type", Some (json_string (lit "paragraph")));
                   (lit "text", Some (json_string text));
                   (lit "spans", spans_json spans)]
  | ListBlock ordered items =>
      json_object [(lit "type", Some (json_string (lit "list")));
                   (lit "ordered", option_map json_bool ordered);
                   (lit "items",
                    option_map (fun l => json_array (map cell_json l)) items)]
  | Table rows =>
      json_object [(lit "type", Some (json_string (lit "table")));
                   (lit "rows",
                    Some (json_array
                            (map (fun r => json_array (map cell_json r)) rows)))]
  end.

Fixpoint stringify (s : RuleSection) : str :=
  match s with
  | mkSection t sl lv c ss f =>
      json_object
        [(lit "title", Some (json_string t));
         (lit "slug", option_map json_string sl);
         (lit "level", option_map json_nat lv);
         (lit "content", option_map (fun l => json_array (map block_json l)) c);
         (lit "sections",
          match ss with
          | None => None
          | Some l => Some (json_array (map stringify l))
          end);
         (lit "file", option_map json_string f)]
  end.

(** ** The three operations *)

Definition sectionMatchesQuery (section : RuleSection) (q : str) : bool :=
  if negb (truthy q) then true
  else let hay := toLowerCase (stringify section) in
       includes q hay.

(** The [while (true)] loop, one iteration per unit of [fuel]. *)
Fixpoint count_loop (fuel : nat) (q hay : str) (idx count : nat) : nat :=
  match fuel with
  | 0 => count
  | S fuel' =>
      match indexOfFrom q hay idx with
      | None => count
      | Some hit => count_loop fuel' q hay (hit + length q) (count + 1)
      end
  end.

(** A hit moves [idx] forward by the length of the non-empty query, so the
    loop is left within [hay.length + 1] iterations. *)
Definition countQueryMatches (section : RuleSection) (q : str) : nat :=
  if negb (truthy q) then 0
  else let hay := toLowerCase (stringify section) in
       count_loop (S (length hay)) q hay 0 0.

Fixpoint filterSection (section : RuleSection) (q : str) : option RuleSection :=
  match section with
  | mkSection t sl lv c ss f =>
      if negb (truthy q) then Some section
      else
        let selfMatches := sectionMatchesQuery section q in
        let children :=
          match ss with
          | None => []
          | Some l =>
              (fix each (l : list RuleSection) : list RuleSection :=
                 match l with
                 | [] => []
                 | s :: l' =>
                     match filterSection s q with
                     | Some s' => s' :: each l'
                     | None => each l'
                     end
                 end) l
          end in
        if selfMatches || (0 <? length children)
        then Some (mkSection t sl lv c (Some children) f)
        else None
  end.

(** ** The texts of a section *)

Definition spans_texts (o : option (list RuleSpan)) : list str :=
  flat_map (fun sp => match span_text sp with Some t => [t] | None => [] end)
           (orNil o).

Definition cell_texts (c : Cell) : list str :=
  cell_text c :: spans_texts (cell_spans c).

Definition block_texts (b : RuleBlock) : list str :=
  match b with
  | Paragraph text spans => text :: spans_texts spans
  | ListBlock _ items => flat_map cell_texts (orNil items)
  | Table rows => flat_map (fun r => flat_map cell_texts r) rows
  end.

(** The title of the section, the texts of its content blocks, and the
    titles and content texts of all its descendants. *)
Fixpoint section_texts (s : RuleSection) : list str :=
  match s with
  | mkSection t _ _ c ss _ =>
      t :: flat_map block_texts (orNil c)
        ++ match ss with
           | None => []
           | Some l => flat_map section_texts l
           end
  end.

(** The query occurs, letter case ignored, in one of the texts. *)
Definition in_texts (q : str) (s : RuleSection) : Prop :=
  exists t, In t (section_texts s) /\ occurs q (toLowerCase t).

(** No character of [q] is one that JSON writes as an escape. *)
Definition json_plain (q : str) : bool :=
  forallb (fun c => Str.eqb (escape_char c) [c]) q.

(** ** Occurrences *)

Lemma occurs_refl (x : str) : occurs x x.
Proof. exists [], []. rewrite app_nil_r; reflexivity. Qed.

Lemma occurs_trans (x y z : str) : occurs x y -> occurs y z -> occurs x z.
Proof.
  intros (a & b & ->) (c & d & ->).
  exists (c ++ a), (b ++ d). rewrite !app_assoc. reflexivity.
Qed.

Lemma occurs_app_l (x y z : str) : occurs x y -> occurs x (y ++ z).
Proof.
  intros (a & b & ->). exists a, (b ++ z). rewrite !app_assoc. reflexivity.
Qed.

Lemma occurs_app_r (x y z : str) : occurs x z -> occurs x (y ++ z).
Proof.
  intros (a & b & ->). exists (y ++ a), b. rewrite !app_assoc. reflexivity.
Qed.

Lemma occurs_cons (x z : str) (c : ascii) : occurs x z -> occurs x (c :: z).
Proof. apply (occurs_app_r x [c] z). Qed.

Lemma occurs_lower (x y : str) :
  occurs x y -> occurs (toLowerCase x) (toLowerCase y).
Proof.
  intros (a & b & ->). exists (toLowerCase a), (toLowerCase b).
  unfold toLowerCase. rewrite !map_app. reflexivity.
Qed.

Lemma occurs_join (sep x e : str) (l : list str) :
  In e l -> occurs x e -> occurs x (join sep l).
Proof.
  intros Hin Hx. induction l as [|p ps IH]; [contradiction|].
  destruct Hin as [->|Hin].
  - destruct ps as [|p' ps]; [exact Hx|]. apply occurs_app_l, Hx.
  - specialize (IH Hin). destruct ps as [|p' ps]; [contradiction|].
    change (occurs x (p ++ sep ++ join sep (p' :: ps))).
    apply occurs_app_r, occurs_app_r, IH.
Qed.

Lemma occurs_json_array (x e : str) (l : list str) :
  In e l -> occurs x e -> occurs x (json_array l).
Proof.
  intros Hin Hx. unfold json_array.
  apply occurs_app_r, occurs_app_l, (occurs_join _ _ _ _ Hin Hx).
Qed.

Lemma occurs_json_object (x k v : str) (members : list (str * option str)) :
  In (k, Some v) members -> occurs x v -> occurs x (json_object members).
Proof.
  intros Hin Hx. unfold json_object.
  apply occurs_app_r, occurs_app_l.
  apply (occurs_join _ _ (json_string k ++ lit ":" ++ v)).
  - apply in_flat_map. exists (k, Some v). split; [exact Hin|].
    left; reflexivity.
  - apply occurs_app_r, occurs_app_r, Hx.
Qed.

Lemma occurs_json_string (t : str) : occurs (escape t) (json_string t).
Proof. exists [dquote], [dquote]. reflexivity. Qed.

(** ** Every text of a section stands, escaped, in its serialization *)

Lemma spans_texts_json (t : str) (o : option (list RuleSpan)) :
  In t (spans_texts o) ->
  exists v, spans_json o = Some v /\ occurs (escape t) v.
Proof.
  destruct o as [l|]; [|contradiction]. unfold spans_texts. simpl.
  intros Hin. apply in_flat_map in Hin. destruct Hin as (sp & Hsp & Ht).
  eexists; split; [reflexivity|].
  apply (occurs_json_array _ (span_json sp)); [apply in_map, Hsp|].
  destruct sp as [[t'|]]; simpl in Ht; [|contradiction].
  destruct Ht as [->|[]].
  apply (occurs_json_object _ (lit "text") (json_string t)).
  - left; reflexivity.
  - apply occurs_json_string.
Qed.

Lemma cell_texts_json (t : str) (c : Cell) :
  In t (cell_texts c) -> occurs (escape t) (cell_json c).
Proof.
  intros [<-|Hin].
  - apply (occurs_json_object _ (lit "text") (json_string (cell_text c))).
    + left; reflexivity.
    + apply occurs_json_string.
  - destruct (spans_texts_json _ _ Hin) as (v & Ev & Hv).
    apply (occurs_json_object _ (lit "spans") v).
    + right; left. unfold cell_json. rewrite Ev. reflexivity.
    + exact Hv.
Qed.

Lemma cells_texts_json (t : str) (l : list Cell) :
  In t (flat_map cell_texts l) ->
  occurs (escape t) (json_array (map cell_json l)).
Proof.
  intros Hin. apply in_flat_map in Hin. destruct Hin as (c & Hc & Ht).
  apply (occurs_json_array _ (cell_json c)); [apply in_map, Hc|].
  apply cell_texts_json, Ht.
Qed.

Lemma block_texts_json (t : str) (b : RuleBlock) :
  In t (block_texts b) -> occurs (escape t) (block_json b).
Proof.
  destruct b as [text sp|o it|rows]; simpl.
  - intros [<-|Hin].
    + apply (occurs_json_object _ (lit "text") (json_string text)).
      * right; left; reflexivity.
      * apply occurs_json_string.
    + destruct (spans_texts_json _ _ Hin) as (v & Ev & Hv).
      apply (occurs_json_object _ (lit "spans") v).
      * right; right; left. rewrite Ev. reflexivity.
      * exact Hv.
  - destruct it as [l|]; [|contradiction]. simpl. intros Hin.
    apply (occurs_json_object _ (lit "items") (json_array (map cell_json l))).
    + right; right; left; reflexivity.
    + apply cells_texts_json, Hin.
  - intros Hin. apply in_flat_map in Hin. destruct Hin as (r & Hr & Ht).
    eapply occurs_json_object.
    + right; left; reflexivity.
    + apply (occurs_json_array _ (json_array (map cell_json r))).
      * apply (in_map (fun r => json_array (map cell_json r))), Hr.
      * apply cells_texts_json, Ht.
Qed.

Lemma section_texts_json (t : str) (s : RuleSection) :
  In t (section_texts s) -> occurs (escape t) (stringify s).
Proof.
  induction s as [ti sl lv c ss f IH] using RuleSection_children_ind.
  simpl. intros [<-|Hin].
  - eapply occurs_json_object; [left; reflexivity|apply occurs_json_string].
  - apply in_app_or in Hin. destruct Hin as [Hin|Hin].
    + destruct c as [l|]; [|contradiction]. simpl in Hin.
      apply in_flat_map in Hin. destruct Hin as (b & Hb & Ht).
      eapply occurs_json_object.
      * right; right; right; left; reflexivity.
      * apply (occurs_json_array _ (block_json b)); [apply in_map, Hb|].
        apply block_texts_json, Ht.
    + destruct ss as [l|]; [|contradiction].
      apply in_flat_map in Hin. destruct Hin as (k & Hk & Ht).
      eapply occurs_json_object.
      * right; right; right; right; left; reflexivity.
      * apply (occurs_json_array _ (stringify k)); [apply in_map, Hk|].
        pose proof (IH l eq_refl) as HF. rewrite Forall_forall in HF.
        apply (HF k Hk), Ht.
Qed.

(** ** A query without escaped characters survives the escaping *)

Lemma lower_char_plain (c : ascii) :
  Str.eqb (escape_char (lower_char c)) [lower_char c] = true ->
  escape_char c = [c].
Proof.
  destruct c as [[] [] [] [] [] [] [] []]; vm_compute; congruence.
Qed.

Lemma escape_plain (x : str) :
  json_plain (toLowerCase x) = true -> escape x = x.
Proof.
  induction x as [|c x IH]; simpl; [reflexivity|].
  rewrite andb_true_iff. intros [Hc Hx].
  unfold escape in *. simpl. rewrite (lower_char_plain c Hc), (IH Hx).
  reflexivity.
Qed.

Lemma escape_app (a b : str) : escape (a ++ b) = escape a ++ escape b.
Proof. unfold escape. apply flat_map_app. Qed.

Lemma occurs_lower_escape (q t : str) :
  json_plain q = true -> occurs q (toLowerCase t) ->
  occurs q (toLowerCase (escape t)).
Proof.
  intros Hq (a & b & E). unfold toLowerCase in E.
  apply map_eq_app in E. destruct E as (a' & r & -> & Ea & E).
  apply map_eq_app in E. destruct E as (q' & b' & -> & Eq & Eb).
  subst q. rewrite !escape_app, (escape_plain q' Hq).
  exists (toLowerCase (escape a')), (toLowerCase (escape b')).
  unfold toLowerCase. rewrite !map_app. reflexivity.
Qed.

Lemma sectionMatchesQuery_occurs (s : RuleSection) (q : str) :
  q <> [] ->
  sectionMatchesQuery s q = true <-> occurs q (toLowerCase (stringify s)).
Proof.
  intros Hq. unfold sectionMatchesQuery.
  destruct q as [|c q]; [contradiction|]. simpl negb. cbv iota.
  apply includes_spec.
Qed.

Lemma stringify_title_key (s : RuleSection) :
  occurs (lit "title") (toLowerCase (stringify s)).
Proof.
  destruct s as [t sl lv c ss f].
  apply (occurs_lower (lit "title")). cbn [stringify].
  unfold json_object. apply occurs_app_r, occurs_app_l.
  cbn [flat_map json_member snd fst app].
  match goal with
  | |- occurs _ (join _ (?e :: ?l)) =>
      apply (occurs_join _ _ e); [left; reflexivity|]
  end.
  apply occurs_app_l. exists [dquote], [dquote]. reflexivity.
Qed.

(** ** The counting loop is left before the fuel runs out *)

Lemma strip_prefix_length (p s r : str) :
  strip_prefix p s = Some r -> length s = length p + length r.
Proof.
  intros H. apply strip_prefix_some in H. subst s. apply length_app.
Qed.

Lemma indexOf_bound (q s : str) (hit : nat) :
  indexOf q s = Some hit -> hit + length q <= length s.
Proof.
  revert hit; induction s as [|c s IH]; intros hit; simpl.
  - destruct (starts_with q []) eqn:E; [|discriminate].
    intros H; inversion H; subst.
    apply starts_with_true in E. destruct E as [r E].
    destruct q; [simpl; lia|discriminate].
  - destruct (starts_with q (c :: s)) eqn:E.
    + intros H; inversion H; subst.
      apply starts_with_true in E. destruct E as [r E].
      apply (f_equal (@length ascii)) in E. rewrite length_app in E.
      simpl in *. lia.
    + destruct (indexOf q s) as [h|]; simpl; [|discriminate].
      intros H; inversion H; subst. specialize (IH h eq_refl). lia.
Qed.

Lemma indexOfFrom_bound (q hay : str) (idx hit : nat) :
  indexOfFrom q hay idx = Some hit ->
  idx <= hit /\ hit + length q <= Nat.max idx (length hay).
Proof.
  unfold indexOfFrom.
  destruct (indexOf q (skipn idx hay)) as [h|] eqn:E; simpl; [|discriminate].
  intros H; inversion H; subst. apply indexOf_bound in E.
  rewrite length_skipn in E. lia.
Qed.

Lemma count_loop_fuel (q hay : str) (fuel1 fuel2 idx count : nat) :
  q <> [] ->
  length hay < idx + fuel1 -> length hay < idx + fuel2 ->
  count_loop fuel1 q hay idx count = count_loop fuel2 q hay idx count.
Proof.
  intros Hq. revert fuel2 idx count.
  induction fuel1 as [|f1 IH]; intros fuel2 idx count H1 H2.
  - assert (Hnone : indexOfFrom q hay idx = None).
    { destruct (indexOfFrom q hay idx) as [hit|] eqn:E; [|reflexivity].
      apply indexOfFrom_bound in E. destruct q; [contradiction|].
      simpl in E. lia. }
    destruct fuel2; simpl; [reflexivity|]. rewrite Hnone. reflexivity.
  - destruct fuel2 as [|f2]; simpl.
    + destruct (indexOfFrom q hay idx) as [hit|] eqn:E; [|reflexivity].
      apply indexOfFrom_bound in E. destruct q; [contradiction|].
      simpl in E. lia.
    + destruct (indexOfFrom q hay idx) as [hit|] eqn:E; [|reflexivity].
      apply indexOfFrom_bound in E.
      assert (0 < length q) by (destruct q; [contradiction|simpl; lia]).
      apply IH; lia.
Qed.

(** The count of "fire" in "Fire damage, fire resistance" is 2. *)
Example count_fire :
  countQueryMatches
    (mkSection (lit "Fire damage, fire resistance") None None None None None)
    (lit "fire") = 2.
Proof. vm_compute. reflexivity. Qed.

End Search.

(* ================================================================== *)
(** * Regular expressions

    The patterns that the code synthesizes use five constructs: a literal
    character (plain, or special behind a backslash), [\b], [\s+], [(.+)]
    and, in the composite pattern of the glossary, the alternation of a
    group.  [compile_whole] and [compile_group] stand for [new RegExp] on
    the two shapes of source text, and [match_atoms] for the backtracking
    search of the engine. *)

Module Regex.

Inductive Atom :=
| Chr (c : ascii)    (* a literal character *)
| WordBoundary       (* \b *)
| Spaces             (* \s+ , greedy *)
| CaptureAny.        (* (.+) , greedy, capturing *)

(** The characters of the class [[.*+?^${}()|[\]\\]]. *)
Definition isSpecial (c : ascii) : bool :=
  existsb (fun n => code c =? n)
          [46; 42; 43; 63; 94; 36; 123; 125; 40; 41; 124; 91; 93; 92].

(** [value.replace(/[.*+?^${}()|[\]\\]/g, "\\$&")] *)
Definition escapeRegExp (value : str) : str :=
  flat_map (fun c => if isSpecial c then [ch 92; c] else [c]) value.

(** [s.replace(needle, replacement)] with a string pattern and a
    replacement without dollar sign: the first occurrence is rewritten. *)
Definition replace_first (needle replacement s : str) : str :=
  match split_first needle s with
  | Some (before, after) => before ++ replacement ++ after
  | None => s
  end.

(** The parser of pattern text: it reads alternatives separated by [|] up
    to the end, or to a closing parenthesis or a dollar sign, which it
    leaves.  [cur] is the alternative being read and [done] the ones read,
    both reversed.  Text outside the five constructs is refused. *)
Fixpoint parse_body (src : str) (cur : list Atom) (done : list (list Atom))
  : option (list (list Atom) * str) :=
  match src with
  | [] => Some (rev (rev cur :: done), [])
  | c :: r =>
      if code c =? 92 then                               (* backslash *)
        match r with
        | d :: r' =>
            if code d =? 98 then parse_body r' (WordBoundary :: cur) done
            else if code d =? 115 then
              match r' with
              | p :: r'' =>
                  if code p =? 43 then parse_body r'' (Spaces :: cur) done
                  else None
              | [] => None
              end
            else if isSpecial d then parse_body r' (Chr d :: cur) done
            else None
        | [] => None
        end
      else if code c =? 124 then parse_body r [] (rev cur :: done)
      else if code c =? 40 then                          (* ( . + ) *)
        match r with
        | d :: p :: e :: r' =>
            if (code d =? 46) && (code p =? 43) && (code e =? 41)
            then parse_body r' (CaptureAny :: cur) done
            else None
        | _ => None
        end
      else if (code c =? 41) || (code c =? 36)
      then Some (rev (rev cur :: done), src)
      else if isSpecial c then None
      else parse_body r (Chr c :: cur) done
  end.

(** [new RegExp("^" + ... + "$", "i")]: the atoms between the anchors.
    [None] stands for a pattern that the constructor or this model
    refuses. *)
Definition compile_whole (source : str) : option (list Atom) :=
  match source with
  | c :: body =>
      if code c =? 94 then
        match parse_body body [] [] with
        | Some ([atoms], rest) => if Str.eqb rest (lit "$") then Some atoms else None
        | _ => None
        end
      else None
  | [] => None
  end.

(** [new RegExp("(" + ... + ")", "g")]: the alternatives of the group. *)
Definition compile_group (source : str) : option (list (list Atom)) :=
  match source with
  | c :: body =>
      if code c =? 40 then
        match parse_body body [] [] with
        | Some (alts, rest) => if Str.eqb rest (lit ")") then Some alts else None
        | None => None
        end
      else None
  | [] => None
  end.

(** Comparison of two code units, under the [i] flag or without it. *)
Definition char_eq (ignoreCase : bool) (a b : ascii) : bool :=
  if ignoreCase then Ascii.eqb (lower_char a) (lower_char b)
  else Ascii.eqb a b.

Definition isWord (o : option ascii) : bool :=
  match o with Some c => isWordChar c | None => false end.

(** [\b] between the character before the position and the one at it. *)
Definition boundary (prev : option ascii) (rest : str) : bool :=
  xorb (isWord prev) (isWord (hd_error rest)).

Fixpoint run_length (cls : ascii -> bool) (rest : str) : nat :=
  match rest with
  | c :: rest' => if cls c then S (run_length cls rest') else 0
  | [] => 0
  end.

(** A greedy quantifier: the longest repetition first, then one less, down
    to one, until the rest of the pattern matches. *)
Fixpoint greedy {R} (n : nat) (k : nat -> option R) : option R :=
  match n with
  | 0 => None
  | S n' => match k n with Some r => Some r | None => greedy n' k end
  end.

(** The character before position [n] of [rest]. *)
Definition prev_at (prev : option ascii) (rest : str) (n : nat) : option ascii :=
  match n with
  | 0 => prev
  | S n' => nth_error rest n'
  end.

(** Backtracking match of [atoms] at the head of [rest]; with [to_end] the
    pattern ends in [$].  The result is the length of the match and the
    text of the first capturing group. *)
Fixpoint match_atoms (ignoreCase to_end : bool) (atoms : list Atom)
                     (prev : option ascii) (rest : str)
  : option (nat * option str) :=
  match atoms with
  | [] =>
      if to_end
      then match rest with [] => Some (0, None) | _ :: _ => None end
      else Some (0, None)
  | Chr c :: atoms' =>
      match rest with
      | y :: rest' =>
          if char_eq ignoreCase c y then
            match match_atoms ignoreCase to_end atoms' (Some y) rest' with
            | Some (m, cap) => Some (1 + m, cap)
            | None => None
            end
          else None
      | [] => None
      end
  | WordBoundary :: atoms' =>
      if boundary prev rest
      then match_atoms ignoreCase to_end atoms' prev rest
      else None
  | Spaces :: atoms' =>
      greedy (run_length isSpace rest)
             (fun n =>
                match match_atoms ignoreCase to_end atoms'
                                  (prev_at prev rest n) (skipn n rest) with
                | Some (m, cap) => Some (n + m, cap)
                | None => None
                end)
  | CaptureAny :: atoms' =>
      greedy (run_length (fun c => negb (isLineTerminator c)) rest)
             (fun n =>
                match match_atoms ignoreCase to_end atoms'
                                  (prev_at prev rest n) (skipn n rest) with
                | Some (m, _) => Some (n + m, Some (firstn n rest))
                | None => None
                end)
  end.

(** ** Literal text *)

(** Match the text [s] at the head of [rest], character by character; the
    result is the last character read and what is left. *)
Fixpoint eat (ignoreCase : bool) (s rest : str) (prev : option ascii)
  : option (option ascii * str) :=
  match s, rest with
  | [], _ => Some (prev, rest)
  | x :: s', y :: rest' =>
      if char_eq ignoreCase x y then eat ignoreCase s' rest' (Some y) else None
  | _ :: _, [] => None
  end.

Lemma match_chars (ignoreCase to_end : bool) (s : str) (atoms : list Atom) :
  forall prev rest,
    match_atoms ignoreCase to_end (map Chr s ++ atoms) prev rest
    = match eat ignoreCase s rest prev with
      | Some (prev', rest') =>
          match match_atoms ignoreCase to_end atoms prev' rest' with
          | Some (m, cap) => Some (length s + m, cap)
          | None => None
          end
      | None => None
      end.
Proof.
  induction s as [|x s IH]; intros prev rest; simpl.
  - destruct (match_atoms ignoreCase to_end atoms prev rest) as [[m cap]|];
      reflexivity.
  - destruct rest as [|y rest]; [reflexivity|].
    destruct (char_eq ignoreCase x y); [|reflexivity].
    rewrite IH. destruct (eat ignoreCase s rest (Some y)) as [[prev' rest']|];
      [|reflexivity].
    destruct (match_atoms ignoreCase to_end atoms prev' rest') as [[m cap]|];
      reflexivity.
Qed.

(** ** Escaped text is read back as the text *)

Lemma special_codes (c : ascii) :
  if isSpecial c
  then (code c =? 98) = false /\ (code c =? 115) = false
  else (code c =? 92) = false /\ (code c =? 124) = false /\
       (code c =? 40) = false /\ (code c =? 41) = false /\
       (code c =? 36) = false.
Proof.
  destruct c as [[] [] [] [] [] [] [] []]; vm_compute; repeat split.
Qed.

Lemma parse_escaped (s rest : str) :
  forall cur done,
    parse_body (escapeRegExp s ++ rest) cur done
    = parse_body rest (rev (map Chr s) ++ cur) done.
Proof.
  induction s as [|c s IH]; intros cur done; [reflexivity|].
  unfold escapeRegExp in *. cbn [flat_map map rev].
  pose proof (special_codes c) as H.
  rewrite <- !app_assoc. destruct (isSpecial c) eqn:Ec.
  - destruct H as (H1 & H2). cbn [app parse_body].
    change (code (ch 92) =? 92) with true. cbv iota.
    rewrite H1, H2, Ec, IH. reflexivity.
  - destruct H as (H1 & H2 & H3 & H4 & H5). cbn [app parse_body].
    rewrite H1, H2, H3, H4, H5, Ec, IH. reflexivity.
Qed.

(** ** The first occurrence of a needle in escaped text *)

Definition escape_char (c : ascii) : str :=
  if isSpecial c then [ch 92; c] else [c].











End Regex.

(* ================================================================== *)
(** * Keyword matcher ([weaponKeywords.ts]) *)

Module Keywords.

Import Regex.

Record KeywordDef := mkKeyword { kw_name : str; kw_description : str }.

Record WeaponKeywordMatch :=
  mkMatch { label : str; description : str; anchor : str }.

(** [regex] is [None] when [new RegExp] refuses the pattern; the flag is
    [i] and the atoms stand between [^] and [$]. *)
Record KeywordMatcher :=
  mkMatcher { km_name : str; km_description : str;
              km_regex : option (list Atom);
              km_hasParam : bool }.

Definition KEYWORD_ANCHOR : str := lit "weapon-keywords".

Definition buildMatcher (defName : str) : option (list Atom) * bool :=
  let trimmed := trim defName in
  if includes (lit "(X)") trimmed then
    let pattern :=
      lit "^" ++ replace_first (lit "\(X\)") (lit "\((.+)\)") (escapeRegExp trimmed)
              ++ lit "$" in
    (compile_whole pattern, true)
  else if includes (lit " X") trimmed then
    let pattern :=
      lit "^" ++ replace_first (lit " X") (lit "\s+(.+)") (escapeRegExp trimmed)
              ++ lit "$" in
    (compile_whole pattern, true)
  else (compile_whole (lit "^" ++ escapeRegExp trimmed ++ lit "$"), false).

(** [KEYWORD_MATCHERS], from the table [WEAPON_KEYWORDS]. *)
Definition KEYWORD_MATCHERS (WEAPON_KEYWORDS : list KeywordDef)
  : list KeywordMatcher :=
  map (fun k =>
         let '(regex, hasParam) := buildMatcher (kw_name k) in
         mkMatcher (kw_name k) (kw_description k) regex hasParam)
      WEAPON_KEYWORDS.

Definition normalizeParam (param : str) : str := trim param.

(** [text.match(def.regex)]: the first capturing group of a match of the
    whole text, [Some None] when the pattern has no group. *)
Definition regex_match (regex : option (list Atom)) (text : str)
  : option (option str) :=
  match regex with
  | Some atoms => option_map snd (match_atoms true true atoms None text)
  | None => None
  end.

(** [GetSubstitution] for a pattern without capturing groups: in the
    replacement text [$$] is a dollar sign, [$&] the matched text, [$`] the
    text before the match and [$'] the text after it. *)
Fixpoint getSubstitution (matched before after replacement : str) : str :=
  match replacement with
  | [] => []
  | c :: r =>
      if code c =? 36 then
        match r with
        | d :: r' =>
            if code d =? 36 then ch 36 :: getSubstitution matched before after r'
            else if code d =? 38 then matched ++ getSubstitution matched before after r'
            else if code d =? 96 then before ++ getSubstitution matched before after r'
            else if code d =? 39 then after ++ getSubstitution matched before after r'
            else c :: getSubstitution matched before after r
        | [] => [c]
        end
      else c :: getSubstitution matched before after r
  end.

(** [/\bX\b/] *)
Definition whole_word_X : list Atom := [WordBoundary; Chr (ch 88); WordBoundary].

Definition at_whole_word_X (prev : option ascii) (rest : str) : bool :=
  match match_atoms false false whole_word_X prev rest with
  | Some _ => true
  | None => false
  end.

(** [whole.replace(/\bX\b/g, replacement)], from position [pos] on where
    [rest] begins. *)
Fixpoint replace_from (replacement whole : str) (pos : nat)
                      (prev : option ascii) (rest : str) : str :=
  match rest with
  | [] => []
  | c :: rest' =>
      if at_whole_word_X prev rest
      then getSubstitution (lit "X") (firstn pos whole) rest' replacement
             ++ replace_from replacement whole (S pos) (Some c) rest'
      else c :: replace_from replacement whole (S pos) (Some c) rest'
  end.

Definition replace_whole_word_X (description replacement : str) : str :=
  replace_from replacement description 0 None description.

(** The description that the specification words: every whole-word [X]
    replaced by the text [value] itself. *)
Fixpoint substitute_from (value : str) (prev : option ascii) (rest : str) : str :=
  match rest with
  | [] => []
  | c :: rest' =>
      if at_whole_word_X prev rest
      then value ++ substitute_from value (Some c) rest'
      else c :: substitute_from value (Some c) rest'
  end.

Definition substitute_X (description value : str) : str :=
  substitute_from value None description.

(** The body of the [for] loop of [resolveWeaponKeyword] for one matcher. *)
Definition resolve_with (def : KeywordMatcher) (text slug : str)
  : option WeaponKeywordMatch :=
  match regex_match (km_regex def) text with
  | None => None
  | Some group1 =>
      let param := if km_hasParam def
                   then normalizeParam (match group1 with Some g => g | None => [] end)
                   else [] in
      let description :=
        if km_hasParam def
        then replace_whole_word_X (km_description def)
                                  (if truthy param then param else lit "X")
        else km_description def in
      Some (mkMatch text description
                    (if truthy slug then lit "weapon-keyword-" ++ slug
                     else KEYWORD_ANCHOR))
  end.

Fixpoint resolve_in (matchers : list KeywordMatcher) (text slug : str)
  : option WeaponKeywordMatch :=
  match matchers with
  | [] => None
  | def :: matchers' =>
      match resolve_with def text slug with
      | Some r => Some r
      | None => resolve_in matchers' text slug
      end
  end.

Definition resolveWeaponKeyword (WEAPON_KEYWORDS : list KeywordDef)
                                (keyword : str) : option WeaponKeywordMatch :=
  let text := trim keyword in
  if negb (truthy text) then None
  else let slug := slugify text in
       resolve_in (KEYWORD_MATCHERS WEAPON_KEYWORDS) text slug.

(** [text.split(",").map((part) => part.trim()).filter(Boolean)] *)
Definition splitKeywordList (text : str) : list str :=
  filter truthy (map trim (split_on (ch 44) text)).

(** ** Substitution of the parameter *)

(** The replacement text has no dollar sign. *)
Definition dollar_free (s : str) : bool :=
  forallb (fun c => negb (code c =? 36)) s.

Lemma getSubstitution_dollar_free (matched before after replacement : str) :
  dollar_free replacement = true ->
  getSubstitution matched before after replacement = replacement.
Proof.
  induction replacement as [|c r IH]; simpl; [reflexivity|].
  rewrite andb_true_iff. intros [Hc Hr].
  destruct (code c =? 36); [discriminate|]. rewrite (IH Hr). reflexivity.
Qed.

Lemma replace_from_dollar_free (replacement whole : str) :
  dollar_free replacement = true ->
  forall rest pos prev,
    replace_from replacement whole pos prev rest
    = substitute_from replacement prev rest.
Proof.
  intros H. induction rest as [|c rest IH]; intros pos prev; simpl.
  - reflexivity.
  - rewrite IH, (getSubstitution_dollar_free _ _ _ _ H). reflexivity.
Qed.

(** The parameter that [resolve_with] substitutes. *)
Definition parameter_of (group1 : option str) : str :=
  let param := normalizeParam (match group1 with Some g => g | None => [] end) in
  if truthy param then param else lit "X".

(** The description of a resolved keyword: without a parameter it is the
    description of the definition; with a parameter whose trimmed text has
    no dollar sign, every whole-word [X] is replaced by that text, and by
    [X] itself when the text is empty. *)
Lemma resolve_with_description (def : KeywordMatcher) (text slug : str)
                               (r : WeaponKeywordMatch) :
  resolve_with def text slug = Some r ->
  exists group1,
    regex_match (km_regex def) text = Some group1 /\
    (km_hasParam def = false -> description r = km_description def) /\
    (km_hasParam def = true -> dollar_free (parameter_of group1) = true ->
     description r = substitute_X (km_description def) (parameter_of group1)).
Proof.
  unfold resolve_with.
  destruct (regex_match (km_regex def) text) as [group1|]; [|discriminate].
  intros E. inversion E; subst r. clear E. exists group1.
  split; [reflexivity|]. simpl. split.
  - intros ->. reflexivity.
  - intros -> Hd. unfold replace_whole_word_X, substitute_X.
    apply replace_from_dollar_free. exact Hd.
Qed.

(** A resolved keyword comes from the first matcher, in the order of the
    table, whose pattern matches the trimmed text. *)
Lemma resolve_in_first (matchers : list KeywordMatcher) (text slug : str)
                       (r : WeaponKeywordMatch) :
  resolve_in matchers text slug = Some r ->
  exists before def after,
    matchers = before ++ def :: after /\
    Forall (fun d => regex_match (km_regex d) text = None) before /\
    resolve_with def text slug = Some r.
Proof.
  induction matchers as [|d matchers IH]; simpl; [discriminate|].
  destruct (resolve_with d text slug) as [r'|] eqn:E.
  - intros H; inversion H; subst r'. exists [], d, matchers.
    repeat split; [constructor|exact E].
  - intros H. destruct (IH H) as (before & def & after & -> & Hb & Hr).
    exists (d :: before), def, after. repeat split; [|exact Hr].
    constructor; [|exact Hb].
    unfold resolve_with in E.
    destruct (regex_match (km_regex d) text); [discriminate|reflexivity].
Qed.

(** ** When a matcher takes a parameter *)


(** ** The compiled patterns *)






End Keywords.

(* ================================================================== *)
(** * Term index ([buildAnchorMaps], [buildGlossary]) *)

Module Glossary.

Import Regex.

(** ** [Map]: entries in insertion order *)

Abbreviation JsMap V := (list (str * V)) (only parsing).

Fixpoint map_get {V} (k : str) (m : JsMap V) : option V :=
  match m with
  | [] => None
  | (k', v) :: m' => if Str.eqb k k' then Some v else map_get k m'
  end.

Definition map_has {V} (k : str) (m : JsMap V) : bool :=
  match map_get k m with Some _ => true | None => false end.

(** [m.set(k, v)]: a present key keeps its place and takes the new value,
    a new key goes to the end. *)
Fixpoint map_set {V} (k : str) (v : V) (m : JsMap V) : JsMap V :=
  match m with
  | [] => [(k, v)]
  | (k', v') :: m' =>
      if Str.eqb k k' then (k, v) :: m' else (k', v') :: map_set k v m'
  end.

Definition map_keys {V} (m : JsMap V) : list str := map fst m.

(** ** Records *)

Record Candidate :=
  mkCandidate { cand_id : str; cand_docSlug : str; cand_depth : nat }.

Record LinkTerm :=
  mkLink { link_id : str; link_docSlug : str; sameLevelCount : nat }.

(** The text of one alternative of the composite pattern:
    [`${startsWord ? '\\b' : ''}${escaped}${endsWord ? '\\b' : ''}`]. *)
Definition startsWord (term : str) : bool :=      (* /^[A-Za-z0-9]/.test(term) *)
  match term with c :: _ => isAlnum c | [] => false end.

Definition endsWord (term : str) : bool :=        (* /[A-Za-z0-9]$/.test(term) *)
  match rev term with c :: _ => isAlnum c | [] => false end.

Definition pattern_source (term : str) : str :=
  (if startsWord term then lit "\b" else [])
    ++ escapeRegExp term
    ++ (if endsWord term then lit "\b" else []).

(** The atoms that the text of one alternative denotes. *)
Definition term_pattern (term : str) : list Atom :=
  (if startsWord term then [WordBoundary] else [])
    ++ map Chr term
    ++ (if endsWord term then [WordBoundary] else []).

(** [regex] holds the alternatives of [(p1|p2|...)], flag [g], in order. *)
Record Glossary :=
  mkGlossary { regex : option (list (list Atom));
               linkTerms : JsMap LinkTerm;
               tooltipTerms : JsMap str;
               anchorToDoc : JsMap str }.

(** ** [getSectionId], [collectSectionTitles] *)

Definition getSectionId (section : RuleSection) : str :=
  let derived := hyphenate_runs isSpace false (toLowerCase (title section)) in
  match slug section with
  | Some s => if truthy s then s else derived
  | None => derived
  end.

Fixpoint collectSectionTitles (section : RuleSection) (out : list RuleSection)
                              (depth : nat) : list RuleSection :=
  match section with
  | mkSection t sl lv c ss f =>
      let out := out ++ [mkSection t sl (Some depth) c ss f] in
      match ss with
      | None => out
      | Some l =>
          (fix each (l : list RuleSection) (out : list RuleSection) :=
             match l with
             | [] => out
             | s :: l' => each l' (collectSectionTitles s out (depth + 1))
             end) l out
      end
  end.

(** ** [buildAnchorMaps] *)

Definition blacklist : list str :=
  [lit "the"; lit "and"; lit "or"; lit "of"; lit "in"; lit "to"; lit "a"; lit "an"].

Definition mem (x : str) (l : list str) : bool := existsb (Str.eqb x) l.

(** The title under which a collected section is filed, when it is. *)
Definition heading_title (section : RuleSection) : option str :=
  let title := trim (title section) in
  if negb (truthy title) || (length title <? 4) then None
  else if mem (toLowerCase title) blacklist then None
  else Some title.

Definition heading_candidate (docSlug : str) (section : RuleSection) : Candidate :=
  mkCandidate (getSectionId section) docSlug
              (match level section with Some d => d | None => 0 end).

(** The body of [for (const section of sections)]. *)
Definition add_candidate (docSlug : str) (candidates : JsMap (list Candidate))
                         (section : RuleSection) : JsMap (list Candidate) :=
  match heading_title section with
  | None => candidates
  | Some title =>
      let list := match map_get title candidates with
                  | Some l => l
                  | None => []
                  end in
      map_set title (list ++ [heading_candidate docSlug section]) candidates
  end.

Definition register_anchor (anchor docSlug : str) (anchorToDoc : JsMap str)
  : JsMap str :=
  if map_has anchor anchorToDoc then anchorToDoc
  else map_set anchor docSlug anchorToDoc.

Definition isKeywordTable (head : list Cell) : bool :=
  let headerText := map (fun cell => toLowerCase (cell_text cell)) head in
  existsb (fun h => includes (lit "keyword") h) headerText
  && (2 <=? length headerText).

Definition walk_row (docSlug : str) (anchorToDoc : JsMap str) (row : list Cell)
  : JsMap str :=
  let raw := slugify (match row with cell :: _ => cell_text cell | [] => [] end) in
  if negb (truthy raw) then anchorToDoc
  else register_anchor (lit "weapon-keyword-" ++ raw) docSlug anchorToDoc.

Definition walk_block (docSlug : str) (anchorToDoc : JsMap str) (block : RuleBlock)
  : JsMap str :=
  match block with
  | Table (head :: body) =>
      if isKeywordTable head
      then fold_left (walk_row docSlug) body anchorToDoc
      else anchorToDoc
  | _ => anchorToDoc
  end.

Fixpoint walk (docSlug : str) (sec : RuleSection) (anchorToDoc : JsMap str)
  : JsMap str :=
  match sec with
  | mkSection _ _ _ c ss _ =>
      let anchorToDoc := fold_left (walk_block docSlug) (orNil c) anchorToDoc in
      match ss with
      | None => anchorToDoc
      | Some l =>
          (fix each (l : list RuleSection) (m : JsMap str) :=
             match l with
             | [] => m
             | s :: l' => each l' (walk docSlug s m)
             end) l anchorToDoc
      end
  end.

(** The body of [for (const doc of docs)]. *)
Definition scan_doc (state : JsMap (list Candidate) * JsMap str) (doc : RuleSection)
  : JsMap (list Candidate) * JsMap str :=
  let '(candidates, anchorToDoc) := state in
  let docSlug := getSectionId doc in
  let sections := collectSectionTitles doc [] 0 in
  (fold_left (add_candidate docSlug) sections candidates,
   walk docSlug doc anchorToDoc).

(** [Math.min(...list.map((c) => c.depth))] of a non-empty list. *)
Definition min_depth (first : Candidate) (others : list Candidate) : nat :=
  fold_left Nat.min (map cand_depth others) (cand_depth first).

(** The body of [for (const [title, list] of candidates.entries())]. *)
Definition link_group (state : JsMap LinkTerm * JsMap str)
                      (entry : str * list Candidate)
  : JsMap LinkTerm * JsMap str :=
  let '(linkTerms, anchorToDoc) := state in
  let '(title, list) := entry in
  match list with
  | [] => state
  | first :: others =>
      let minDepth := min_depth first others in
      let sameLevel := filter (fun c => cand_depth c =? minDepth) list in
      match sameLevel with
      | chosen :: _ =>
          (map_set title
                   (mkLink (cand_id chosen) (cand_docSlug chosen) (length sameLevel))
                   linkTerms,
           register_anchor (cand_id chosen) (cand_docSlug chosen) anchorToDoc)
      | [] => state    (* not reached: the minimum is the depth of an element *)
      end
  end.

Definition buildAnchorMaps (docs : list RuleSection) : JsMap LinkTerm * JsMap str :=
  let '(candidates, anchorToDoc) := fold_left scan_doc docs ([], []) in
  fold_left link_group candidates ([], anchorToDoc).

(** ** [buildGlossary] *)

(** [if (key && desc) tooltipTerms.set(key, desc)] *)
Definition add_tooltip (tooltipTerms : JsMap str) (entry : str * str) : JsMap str :=
  let '(key, desc) := entry in
  if truthy key && truthy desc then map_set key desc tooltipTerms
  else tooltipTerms.

Definition keyword_entry (kw : Keywords.KeywordDef) : str * str :=
  (Keywords.kw_name kw, Keywords.kw_description kw).

(** The term to tooltip map, from [Object.entries(ATTRIBUTE_TOOLTIPS)],
    [Object.entries(SKILL_TOOLTIPS)] and [WEAPON_KEYWORDS], in this order. *)
Definition buildTooltipTerms (ATTRIBUTE_TOOLTIPS SKILL_TOOLTIPS : list (str * str))
                             (WEAPON_KEYWORDS : list Keywords.KeywordDef)
  : JsMap str :=
  let tooltipTerms := fold_left add_tooltip ATTRIBUTE_TOOLTIPS [] in
  let tooltipTerms := fold_left add_tooltip SKILL_TOOLTIPS tooltipTerms in
  fold_left add_tooltip (map keyword_entry WEAPON_KEYWORDS) tooltipTerms.

(** [Array.from(new Set(keys))]: the first occurrence of every key. *)
Fixpoint dedupe (seen : list str) (keys : list str) : list str :=
  match keys with
  | [] => []
  | k :: keys' =>
      if mem k seen then dedupe seen keys' else k :: dedupe (k :: seen) keys'
  end.

(** [sort((a, b) => b.length - a.length)]: [Array.prototype.sort] is
    stable, so the result is that of a stable insertion sort.  [insert_term]
    puts [t] behind the longer terms and before the terms of its own
    length, which stood after it. *)
Fixpoint insert_term (t : str) (sorted : list str) : list str :=
  match sorted with
  | [] => [t]
  | x :: sorted' =>
      if length t <? length x then x :: insert_term t sorted'
      else t :: sorted
  end.

Definition sort_by_length_desc (terms : list str) : list str :=
  fold_right insert_term [] terms.

Definition glossary_terms (tooltipTerms : JsMap str) (linkTerms : JsMap LinkTerm)
  : list str :=
  sort_by_length_desc (dedupe [] (map_keys tooltipTerms ++ map_keys linkTerms)).

Definition buildGlossary (docs : list RuleSection)
                         (ATTRIBUTE_TOOLTIPS SKILL_TOOLTIPS : list (str * str))
                         (WEAPON_KEYWORDS : list Keywords.KeywordDef) : Glossary :=
  let '(linkTerms, anchorToDoc) := buildAnchorMaps docs in
  let tooltipTerms :=
    buildTooltipTerms ATTRIBUTE_TOOLTIPS SKILL_TOOLTIPS WEAPON_KEYWORDS in
  let terms := glossary_terms tooltipTerms linkTerms in
  match terms with
  | [] => mkGlossary None linkTerms tooltipTerms anchorToDoc
  | _ =>
      let patterns := map pattern_source terms in
      let regex := compile_group (lit "(" ++ join (lit "|") patterns ++ lit ")") in
      mkGlossary regex linkTerms tooltipTerms anchorToDoc
  end.

(** ** Lemmas on maps *)

Lemma map_get_set {V} (k k' : str) (v : V) (m : JsMap V) :
  map_get k (map_set k' v m) = if Str.eqb k k' then Some v else map_get k m.
Proof.
  induction m as [|[k0 v0] m IH]; simpl.
  - reflexivity.
  - destruct (Str.eqb k' k0) eqn:E0; simpl.
    + apply Str.eqb_spec in E0; subst k0.
      destruct (Str.eqb k k'); reflexivity.
    + destruct (Str.eqb k k0) eqn:E1.
      * apply Str.eqb_spec in E1; subst k0.
        destruct (Str.eqb k k') eqn:E2; [|reflexivity].
        apply Str.eqb_spec in E2; subst k'. rewrite Str.eqb_refl in E0.
        discriminate.
      * exact IH.
Qed.

Lemma map_keys_set {V} (k : str) (v : V) (m : JsMap V) :
  map_keys (map_set k v m)
  = if map_has k m then map_keys m else map_keys m ++ [k].
Proof.
  unfold map_has, map_keys. induction m as [|[k0 v0] m IH]; simpl.
  - reflexivity.
  - destruct (Str.eqb k k0) eqn:E; simpl.
    + apply Str.eqb_spec in E; subst k0. reflexivity.
    + rewrite IH. destruct (map_get k m); reflexivity.
Qed.

Lemma map_get_in_keys {V} (k : str) (m : JsMap V) :
  In k (map_keys m) <-> map_has k m = true.
Proof.
  unfold map_has, map_keys. induction m as [|[k0 v0] m IH]; simpl.
  - split; [contradiction|discriminate].
  - destruct (Str.eqb k k0) eqn:E.
    + apply Str.eqb_spec in E; subst k0. split; auto.
    + apply Str.eqb_neq in E. rewrite <- IH. split.
      * intros [H|H]; [congruence|exact H].
      * auto.
Qed.

Lemma map_set_NoDup {V} (k : str) (v : V) (m : JsMap V) :
  NoDup (map_keys m) -> NoDup (map_keys (map_set k v m)).
Proof.
  intros H. rewrite map_keys_set. destruct (map_has k m) eqn:E; [exact H|].
  apply NoDup_app; [exact H|repeat constructor; auto|].
  intros x Hx [<-|[]]. apply map_get_in_keys in Hx. congruence.
Qed.

(** ** Tooltip registration *)

(** An entry that [add_tooltip] stores under [key]. *)
Definition registers (key : str) (entry : str * str) : bool :=
  truthy (fst entry) && truthy (snd entry) && Str.eqb key (fst entry).

(** The description of the latest entry that registers [key]. *)
Definition last_registration (key : str) (entries : list (str * str)) : option str :=
  option_map snd (find (registers key) (rev entries)).

(** The description of the earliest entry that registers [key]. *)
Definition first_registration (key : str) (entries : list (str * str)) : option str :=
  option_map snd (find (registers key) entries).

Lemma add_tooltip_get (key : str) (m : JsMap str) (e : str * str) :
  map_get key (add_tooltip m e)
  = if registers key e then Some (snd e) else map_get key m.
Proof.
  destruct e as [k d]. unfold add_tooltip, registers. simpl.
  destruct (truthy k && truthy d); simpl; [|reflexivity].
  apply map_get_set.
Qed.

Lemma fold_add_tooltip_get (key : str) (entries : list (str * str)) (m : JsMap str) :
  map_get key (fold_left add_tooltip entries m)
  = match last_registration key entries with
    | Some d => Some d
    | None => map_get key m
    end.
Proof.
  unfold last_registration.
  induction entries as [|e entries IH] using rev_ind; [reflexivity|].
  rewrite fold_left_app, rev_app_distr. simpl.
  rewrite add_tooltip_get. destruct (registers key e); [reflexivity|].
  exact IH.
Qed.

Lemma buildTooltipTerms_fold (attrs skills : list (str * str))
                             (kws : list Keywords.KeywordDef) :
  buildTooltipTerms attrs skills kws
  = fold_left add_tooltip (attrs ++ skills ++ map keyword_entry kws) [].
Proof. unfold buildTooltipTerms. rewrite !fold_left_app. reflexivity. Qed.

(** ** Heading collection, in document traversal order *)

(** The sections of a subtree, parents before children and children in
    order, each with its depth. *)
Fixpoint preorder (s : RuleSection) (depth : nat) : list RuleSection :=
  match s with
  | mkSection t sl lv c ss f =>
      mkSection t sl (Some depth) c ss f
        :: match ss with
           | None => []
           | Some l => flat_map (fun k => preorder k (S depth)) l
           end
  end.

Lemma collectSectionTitles_preorder (s : RuleSection) :
  forall out depth, collectSectionTitles s out depth = out ++ preorder s depth.
Proof.
  induction s as [t sl lv c ss f IH] using RuleSection_children_ind.
  intros out depth. simpl. destruct ss as [l|].
  - specialize (IH l eq_refl).
    set (hd := mkSection t sl (Some depth) c (Some l) f).
    change (out ++ hd :: flat_map (fun k => preorder k (S depth)) l)
      with (out ++ [hd] ++ flat_map (fun k => preorder k (S depth)) l).
    rewrite app_assoc. generalize (out ++ [hd]) as acc.
    induction IH as [|k l Hk HF IHl]; intros acc; simpl.
    + rewrite app_nil_r; reflexivity.
    + rewrite Hk, IHl, Nat.add_1_r, <- app_assoc. reflexivity.
  - reflexivity.
Qed.

(** The headings that one section, one document, all documents file. *)
Definition section_heading (docSlug : str) (s : RuleSection)
  : list (str * Candidate) :=
  match heading_title s with
  | Some t => [(t, heading_candidate docSlug s)]
  | None => []
  end.

Definition doc_headings (doc : RuleSection) : list (str * Candidate) :=
  flat_map (section_heading (getSectionId doc)) (preorder doc 0).

Definition headings (docs : list RuleSection) : list (str * Candidate) :=
  flat_map doc_headings docs.

(** The collected headings that carry the title [t], in traversal order. *)
Definition heading_group (docs : list RuleSection) (t : str) : list Candidate :=
  map snd (filter (fun h => Str.eqb t (fst h)) (headings docs)).

(** [d] is the least depth among the candidates of [group]. *)
Definition least_depth (group : list Candidate) (d : nat) : Prop :=
  (exists c, In c group /\ cand_depth c = d) /\
  (forall c, In c group -> d <= cand_depth c).

Definition file_heading (candidates : JsMap (list Candidate))
                        (h : str * Candidate) : JsMap (list Candidate) :=
  map_set (fst h)
          (match map_get (fst h) candidates with Some l => l | None => [] end
             ++ [snd h])
          candidates.

Lemma add_candidate_file (docSlug : str) (secs : list RuleSection)
                         (candidates : JsMap (list Candidate)) :
  fold_left (add_candidate docSlug) secs candidates
  = fold_left file_heading (flat_map (section_heading docSlug) secs) candidates.
Proof.
  revert candidates; induction secs as [|s secs IH]; intros candidates.
  - reflexivity.
  - simpl. rewrite fold_left_app, IH. f_equal.
    unfold add_candidate, section_heading.
    destruct (heading_title s); reflexivity.
Qed.

Lemma scan_docs_candidates (docs : list RuleSection)
                           (candidates : JsMap (list Candidate))
                           (anchors : JsMap str) :
  fst (fold_left scan_doc docs (candidates, anchors))
  = fold_left file_heading (headings docs) candidates.
Proof.
  revert candidates anchors; induction docs as [|doc docs IH];
    intros candidates anchors.
  - reflexivity.
  - unfold headings. simpl. rewrite fold_left_app.
    rewrite IH, add_candidate_file, collectSectionTitles_preorder.
    reflexivity.
Qed.

Lemma file_heading_get (t : str) (hs : list (str * Candidate))
                       (candidates : JsMap (list Candidate)) :
  map_get t (fold_left file_heading hs candidates)
  = match map snd (filter (fun h => Str.eqb t (fst h)) hs) with
    | [] => map_get t candidates
    | g => Some (match map_get t candidates with Some l => l | None => [] end
                   ++ g)
    end.
Proof.
  revert candidates; induction hs as [|[k c] hs IH]; intros candidates.
  - reflexivity.
  - simpl fold_left. rewrite IH.
    assert (H : map_get t (file_heading candidates (k, c))
                = if Str.eqb t k
                  then Some (match map_get k candidates with
                             | Some l => l
                             | None => []
                             end ++ [c])
                  else map_get t candidates).
    { unfold file_heading. simpl. apply map_get_set. }
    rewrite H. clear H. simpl filter.
    destruct (Str.eqb t k) eqn:E.
    + apply Str.eqb_spec in E; subst k. simpl map.
      destruct (map snd (filter (fun h => Str.eqb t (fst h)) hs)) as [|c' g].
      * reflexivity.
      * rewrite <- app_assoc. reflexivity.
    + reflexivity.
Qed.

Lemma file_heading_NoDup (hs : list (str * Candidate))
                         (candidates : JsMap (list Candidate)) :
  NoDup (map_keys candidates) ->
  NoDup (map_keys (fold_left file_heading hs candidates)).
Proof.
  revert candidates; induction hs as [|h hs IH]; intros candidates H.
  - exact H.
  - simpl. apply IH. apply map_set_NoDup, H.
Qed.

(** ** The link of one group *)

Definition resolve_group (list : list Candidate) : option LinkTerm :=
  match list with
  | [] => None
  | first :: others =>
      match filter (fun c => cand_depth c =? min_depth first others) list with
      | chosen :: later =>
          Some (mkLink (cand_id chosen) (cand_docSlug chosen)
                       (length (chosen :: later)))
      | [] => None
      end
  end.

Lemma link_group_resolve (linkTerms : JsMap LinkTerm) (anchors : JsMap str)
                         (title : str) (list : list Candidate) :
  fst (link_group (linkTerms, anchors) (title, list))
  = match resolve_group list with
    | Some link => map_set title link linkTerms
    | None => linkTerms
    end.
Proof.
  unfold link_group, resolve_group. destruct list as [|first others].
  - reflexivity.
  - destruct (filter _ (first :: others)); reflexivity.
Qed.

Lemma map_get_absent {V} (k : str) (m : JsMap V) :
  ~ In k (map_keys m) -> map_get k m = None.
Proof.
  intros H. destruct (map_get k m) eqn:E; [|reflexivity].
  exfalso. apply H, map_get_in_keys. unfold map_has. rewrite E. reflexivity.
Qed.

Lemma link_groups_get (t : str) (candidates : JsMap (list Candidate)) :
  NoDup (map_keys candidates) ->
  forall state,
    map_get t (fst (fold_left link_group candidates state))
    = match map_get t candidates with
      | Some list =>
          match resolve_group list with
          | Some link => Some link
          | None => map_get t (fst state)
          end
      | None => map_get t (fst state)
      end.
Proof.
  induction candidates as [|[k list] candidates IH]; intros Hnd state.
  - reflexivity.
  - simpl map_keys in Hnd. inversion Hnd as [|x l Hk Hnd']; subst.
    simpl fold_left. rewrite (IH Hnd'). destruct state as [linkTerms anchors].
    rewrite link_group_resolve. simpl map_get.
    destruct (Str.eqb t k) eqn:E.
    + apply Str.eqb_spec in E; subst k.
      rewrite (map_get_absent _ _ Hk).
      destruct (resolve_group list); [|reflexivity].
      rewrite map_get_set, Str.eqb_refl. reflexivity.
    + assert (Hother : map_get t (match resolve_group list with
                                  | Some link => map_set k link linkTerms
                                  | None => linkTerms
                                  end) = map_get t linkTerms).
      { destruct (resolve_group list); [|reflexivity].
        rewrite map_get_set, E. reflexivity. }
      rewrite Hother. reflexivity.
Qed.

Lemma fold_min_le (l : list nat) (a : nat) :
  fold_left Nat.min l a <= a /\ (forall x, In x l -> fold_left Nat.min l a <= x).
Proof.
  revert a; induction l as [|y l IH]; intros a; simpl.
  - split; [lia|contradiction].
  - destruct (IH (Nat.min a y)) as [H1 H2]. split; [lia|].
    intros x [<-|Hx]; [lia|auto].
Qed.

Lemma fold_min_attained (l : list nat) (a : nat) :
  fold_left Nat.min l a = a \/ In (fold_left Nat.min l a) l.
Proof.
  revert a; induction l as [|y l IH]; intros a; simpl.
  - left; reflexivity.
  - destruct (IH (Nat.min a y)) as [H|H]; [|right; right; exact H].
    rewrite H.
    destruct (Nat.min_spec a y) as [[_ E]|[_ E]]; rewrite E.
    + left; reflexivity.
    + right; left; reflexivity.
Qed.

Lemma min_depth_least (first : Candidate) (others : list Candidate) :
  least_depth (first :: others) (min_depth first others).
Proof.
  unfold least_depth, min_depth. split.
  - destruct (fold_min_attained (map cand_depth others) (cand_depth first))
      as [H|H].
    + exists first. split; [left; reflexivity|symmetry; exact H].
    + apply in_map_iff in H. destruct H as (c & Hc & Hin).
      exists c. split; [right; exact Hin|exact Hc].
  - destruct (fold_min_le (map cand_depth others) (cand_depth first))
      as [H1 H2].
    intros c [<-|Hin]; [exact H1|]. apply H2, in_map, Hin.
Qed.

Lemma least_depth_unique (group : list Candidate) (d1 d2 : nat) :
  least_depth group d1 -> least_depth group d2 -> d1 = d2.
Proof.
  intros [(c1 & I1 & E1) L1] [(c2 & I2 & E2) L2].
  specialize (L1 c2 I2). specialize (L2 c1 I1). lia.
Qed.

Lemma buildAnchorMaps_linkTerms (docs : list RuleSection) (t : str) :
  map_get t (fst (buildAnchorMaps docs))
  = match heading_group docs t with
    | [] => None
    | group => resolve_group group
    end.
Proof.
  unfold buildAnchorMaps.
  pose proof (scan_docs_candidates docs [] []) as Ec.
  destruct (fold_left scan_doc docs ([], [])) as [candidates anchors].
  simpl in Ec.
  rewrite link_groups_get.
  - rewrite Ec, file_heading_get. fold (heading_group docs t).
    destruct (heading_group docs t) as [|first others] eqn:G; [reflexivity|].
    simpl app. destruct (resolve_group (first :: others)); reflexivity.
  - rewrite Ec. apply file_heading_NoDup. constructor.
Qed.

(** ** No term of the glossary is empty *)

Lemma map_set_keys_Forall {V} (P : str -> Prop) (k : str) (v : V) (m : JsMap V) :
  P k -> Forall P (map_keys m) -> Forall P (map_keys (map_set k v m)).
Proof.
  intros Hk Hm. rewrite map_keys_set. destruct (map_has k m); [exact Hm|].
  apply Forall_app. split; [exact Hm|]. constructor; [exact Hk|constructor].
Qed.

Lemma add_tooltip_keys (entries : list (str * str)) (m : JsMap str) :
  Forall (fun k => k <> []) (map_keys m) ->
  Forall (fun k => k <> []) (map_keys (fold_left add_tooltip entries m)).
Proof.
  revert m; induction entries as [|[k d] entries IH]; intros m Hm; simpl.
  - exact Hm.
  - apply IH. destruct (truthy k && truthy d) eqn:E; [|exact Hm].
    apply map_set_keys_Forall; [|exact Hm].
    destruct k; [discriminate|discriminate].
Qed.

Lemma heading_title_nonempty (s : RuleSection) (t : str) :
  heading_title s = Some t -> t <> [].
Proof.
  unfold heading_title. intros E.
  destruct (trim (title s)) as [|c r]; [simpl in E; discriminate E|].
  destruct (negb (truthy (c :: r)) || (length (c :: r) <? 4));
    [discriminate E|].
  destruct (mem _ blacklist); [discriminate E|].
  inversion E; discriminate.
Qed.

Lemma headings_nonempty (docs : list RuleSection) :
  Forall (fun h => fst h <> []) (headings docs).
Proof.
  apply Forall_forall. intros h Hh. unfold headings in Hh.
  apply in_flat_map in Hh. destruct Hh as (doc & _ & Hh).
  unfold doc_headings in Hh. apply in_flat_map in Hh.
  destruct Hh as (s & _ & Hh). unfold section_heading in Hh.
  destruct (heading_title s) as [t|] eqn:E; [|contradiction].
  destruct Hh as [<-|[]]. simpl. apply (heading_title_nonempty _ _ E).
Qed.

Lemma file_heading_keys (hs : list (str * Candidate))
                        (candidates : JsMap (list Candidate)) :
  Forall (fun h => fst h <> []) hs ->
  Forall (fun k => k <> []) (map_keys candidates) ->
  Forall (fun k => k <> []) (map_keys (fold_left file_heading hs candidates)).
Proof.
  revert candidates; induction hs as [|h hs IH]; intros candidates Hh Hc; simpl.
  - exact Hc.
  - inversion Hh; subst. apply IH; [assumption|].
    apply map_set_keys_Forall; assumption.
Qed.

Lemma link_group_keys (candidates : JsMap (list Candidate)) :
  Forall (fun k => k <> []) (map_keys candidates) ->
  forall state,
    Forall (fun k => k <> []) (map_keys (fst state)) ->
    Forall (fun k => k <> [])
           (map_keys (fst (fold_left link_group candidates state))).
Proof.
  induction candidates as [|[k list] candidates IH]; intros Hc state Hs; simpl.
  - exact Hs.
  - inversion Hc; subst. apply IH; [assumption|].
    destruct state as [linkTerms anchors]. rewrite link_group_resolve.
    destruct (resolve_group list); [|exact Hs].
    apply map_set_keys_Forall; assumption.
Qed.

Lemma linkTerms_keys (docs : list RuleSection) :
  Forall (fun k => k <> []) (map_keys (fst (buildAnchorMaps docs))).
Proof.
  unfold buildAnchorMaps.
  pose proof (scan_docs_candidates docs [] []) as Ec.
  destruct (fold_left scan_doc docs ([], [])) as [candidates anchors].
  simpl in Ec. apply link_group_keys; [|constructor].
  rewrite Ec. apply file_heading_keys; [apply headings_nonempty|constructor].
Qed.

Lemma dedupe_In (x : str) (keys seen : list str) :
  In x (dedupe seen keys) -> In x keys.
Proof.
  revert seen; induction keys as [|k keys IH]; intros seen; simpl.
  - auto.
  - destruct (mem k seen); simpl.
    + intros H. right. apply (IH _ H).
    + intros [H|H]; [left; exact H|right; apply (IH _ H)].
Qed.

Lemma add_tooltip_values (entries : list (str * str)) (m : JsMap str) :
  Forall (fun e => snd e <> []) m ->
  Forall (fun e => snd e <> []) (fold_left add_tooltip entries m).
Proof.
  revert m; induction entries as [|[k d] entries IH]; intros m Hm; simpl.
  - exact Hm.
  - apply IH. destruct (truthy k && truthy d) eqn:E; [|exact Hm].
    apply andb_true_iff in E. destruct E as [_ Ed].
    assert (Hd : d <> []) by (destruct d; [discriminate|discriminate]).
    clear IH. induction m as [|[k0 v0] m IHm]; simpl.
    + constructor; [exact Hd|constructor].
    + inversion Hm; subst. destruct (Str.eqb k k0).
      * constructor; [exact Hd|assumption].
      * constructor; [assumption|apply IHm; assumption].
Qed.

Lemma map_get_value {V} (P : V -> Prop) (k : str) (v : V) (m : JsMap V) :
  Forall (fun e => P (snd e)) m -> map_get k m = Some v -> P v.
Proof.
  induction m as [|[k0 v0] m IH]; simpl; [discriminate|].
  intros Hm. inversion Hm; subst. destruct (Str.eqb k k0).
  - intros E; inversion E; subst. assumption.
  - apply IH; assumption.
Qed.

(** ** The composite pattern *)

Lemma parse_pattern_source (term rest : str) (cur : list Atom)
                           (done : list (list Atom)) :
  parse_body (pattern_source term ++ rest) cur done
  = parse_body rest (rev (term_pattern term) ++ cur) done.
Proof.
  unfold pattern_source, term_pattern.
  assert (Hb : forall r c d, parse_body (lit "\b" ++ r) c d
                             = parse_body r (WordBoundary :: c) d)
    by reflexivity.
  rewrite <- !app_assoc.
  destruct (startsWord term), (endsWord term); cbn [app];
    rewrite ?Hb, parse_escaped, ?Hb;
    repeat (rewrite ?rev_app_distr; cbn [rev app]; rewrite <- ?app_assoc);
    rewrite ?app_nil_r; reflexivity.
Qed.

Lemma parse_alternatives (terms : list str) :
  forall term done,
    parse_body (join (lit "|") (map pattern_source (term :: terms)) ++ lit ")")
               [] done
    = Some (rev done ++ map term_pattern (term :: terms), lit ")").
Proof.
  induction terms as [|t terms IH]; intros term done.
  - cbn [map join]. rewrite parse_pattern_source.
    change (parse_body (lit ")") (rev (term_pattern term) ++ []) done)
      with (Some (rev (rev (rev (term_pattern term) ++ []) :: done), lit ")")).
    rewrite app_nil_r, rev_involutive. reflexivity.
  - change (join (lit "|") (map pattern_source (term :: t :: terms)))
      with (pattern_source term ++ lit "|"
              ++ join (lit "|") (map pattern_source (t :: terms))).
    rewrite <- !app_assoc, parse_pattern_source.
    change (parse_body (lit "|" ++ join (lit "|") (map pattern_source (t :: terms))
                          ++ lit ")")
                       (rev (term_pattern term) ++ []) done)
      with (parse_body (join (lit "|") (map pattern_source (t :: terms)) ++ lit ")")
                       [] (rev (rev (term_pattern term) ++ []) :: done)).
    rewrite IH, app_nil_r, rev_involutive. cbn [rev map].
    rewrite <- app_assoc. reflexivity.
Qed.

(** The constructor accepts the composite pattern, and its alternatives
    are the patterns of the terms, in the order of the terms. *)
Lemma compile_patterns (term : str) (terms : list str) :
  compile_group (lit "(" ++ join (lit "|") (map pattern_source (term :: terms))
                     ++ lit ")")
  = Some (map term_pattern (term :: terms)).
Proof.
  change (compile_group (lit "(" ++ join (lit "|") (map pattern_source (term :: terms))
                             ++ lit ")"))
    with (match parse_body (join (lit "|") (map pattern_source (term :: terms))
                              ++ lit ")") [] [] with
          | Some (alts, rest) =>
              if Str.eqb rest (lit ")") then Some alts else None
          | None => None
          end).
  rewrite parse_alternatives. reflexivity.
Qed.

(** What [buildGlossary] returns, field by field. *)
Lemma buildGlossary_fields (docs : list RuleSection)
                           (attrs skills : list (str * str))
                           (kws : list Keywords.KeywordDef) :
  let g := buildGlossary docs attrs skills kws in
  linkTerms g = fst (buildAnchorMaps docs) /\
  tooltipTerms g = buildTooltipTerms attrs skills kws /\
  regex g = match glossary_terms (tooltipTerms g) (linkTerms g) with
            | [] => None
            | terms => Some (map term_pattern terms)
            end.
Proof.
  unfold buildGlossary. destruct (buildAnchorMaps docs) as [links anchors].
  destruct (glossary_terms (buildTooltipTerms attrs skills kws) links)
    as [|term terms] eqn:E; cbv zeta; cbn [linkTerms tooltipTerms regex fst];
    rewrite E; repeat split; try reflexivity.
  apply compile_patterns.
Qed.

End Glossary.

(* ================================================================== *)
(** * Text annotator ([highlightText], [renderGlossaryText],
      [renderKeywordText]) *)

Module Annotator.

Import Regex Glossary.

(** A piece of highlighted text: plain, or inside [<mark>]. *)
Inductive Frag :=
| Text (s : str)
| Mark (s : str).

Inductive Node :=
| NText (content : list Frag)
    (* the value of [highlightText], pushed as it is *)
| NTooltip (term tooltip : str) (content : list Frag)
    (* [<span title={tooltip}>] *)
| NLink (term : str) (link : LinkTerm) (hint : option str) (content : list Frag)
    (* [<a href={`#${link.id}`} title={hint}>], navigating to [link] *)
| NKeyword (part description anchor : str) (docSlug : option str)
           (content : list Frag) (comma : bool).
    (* [<span title={description}><a href={`#${anchor}`}>], then [", "] *)

(** ** [highlightText] *)

(** The [while (i < text.length)] loop, one iteration per unit of fuel. *)
Fixpoint highlight_loop (fuel : nat) (text lower qLower : str) (qlen : nat)
                        (i : nat) (parts : list Frag) : list Frag :=
  match fuel with
  | 0 => parts
  | S fuel' =>
      if i <? length text then
        match indexOfFrom qLower lower i with
        | None => parts ++ [Text (skipn i text)]
        | Some hit =>
            let parts := if i <? hit then parts ++ [Text (slice text i hit)]
                         else parts in
            let parts := parts ++ [Mark (slice text hit (hit + qlen))] in
            highlight_loop fuel' text lower qLower qlen (hit + qlen) parts
        end
      else parts
  end.

(** With an empty query the value is the text itself; otherwise every hit
    moves [i] forward, and [text.length] iterations reach the end. *)
Definition highlightText (text q : str) : list Frag :=
  if negb (truthy q) then [Text text]
  else highlight_loop (length text) text (toLowerCase text) (toLowerCase q)
                      (length q) 0 [].

(** ** [renderGlossaryText] *)

(** The composite pattern tried at one position: the alternatives in
    order, the first that matches decides; the result is the length of the
    match. *)
Fixpoint match_alternatives (alts : list (list Atom)) (prev : option ascii)
                            (rest : str) : option nat :=
  match alts with
  | [] => None
  | alt :: alts' =>
      match match_atoms false false alt prev rest with
      | Some (n, _) => Some n
      | None => match_alternatives alts' prev rest
      end
  end.

(** The search from [index] on, where [rest] begins. *)
Fixpoint exec_from (alts : list (list Atom)) (prev : option ascii) (rest : str)
                   (index : nat) : option (nat * nat) :=
  match match_alternatives alts prev rest with
  | Some n => Some (index, n)
  | None =>
      match rest with
      | [] => None
      | c :: rest' => exec_from alts (Some c) rest' (S index)
      end
  end.

(** [regex.exec(raw)] with [regex.lastIndex = lastIndex]: the start and
    the length of the match. *)
Definition exec (alts : list (list Atom)) (raw : str) (lastIndex : nat)
  : option (nat * nat) :=
  if lastIndex <=? length raw
  then exec_from alts (prev_at None raw lastIndex) (skipn lastIndex raw) lastIndex
  else None.

Definition link_hint (term : str) (link : LinkTerm) : option str :=
  if 1 <? sameLevelCount link
  then Some (lit "Multiple sections named " ++ [ch 34] ++ term ++ [ch 34]
             ++ lit " at the same level: " ++ Str.of_nat (sameLevelCount link))
  else None.

(** The node of one matched term. *)
Definition annotate (glossary : Glossary) (term q : str) : Node :=
  let content := highlightText term q in
  match map_get term (tooltipTerms glossary) with
  | Some ((_ :: _) as tooltip) => NTooltip term tooltip content
  | _ =>
      match map_get term (linkTerms glossary) with
      | Some link => NLink term link (link_hint term link) content
      | None => NText content
      end
  end.

(** The [while ((match = glossary.regex.exec(raw)) !== null)] loop.  A
    match of length zero would leave [lastIndex] where it is and the loop
    would not end: [None]. *)
Fixpoint render_loop (fuel : nat) (glossary : Glossary) (alts : list (list Atom))
                     (raw q : str) (lastIndex : nat) (nodes : list Node)
  : option (list Node) :=
  match fuel with
  | 0 => None
  | S fuel' =>
      match exec alts raw lastIndex with
      | Some (start, n) =>
          let end_ := start + n in
          let nodes := if lastIndex <? start
                       then nodes ++ [NText (highlightText (slice raw lastIndex start) q)]
                       else nodes in
          let term := slice raw start end_ in
          render_loop fuel' glossary alts raw q end_
                      (nodes ++ [annotate glossary term q])
      | None =>
          Some (if lastIndex <? length raw
                then nodes ++ [NText (highlightText (skipn lastIndex raw) q)]
                else nodes)
      end
  end.

Definition renderGlossaryText (text q : str) (glossary : Glossary)
  : option (list Node) :=
  match regex glossary with
  | None => Some [NText (highlightText text q)]
  | Some alts => render_loop (S (length text)) glossary alts text q 0 []
  end.

(** ** [renderKeywordText] *)

Definition isNone {A} (o : option A) : bool :=
  match o with None => true | Some _ => false end.

Fixpoint keyword_nodes (glossary : Glossary) (q : str) (count idx : nat)
                       (resolved : list (str * option Keywords.WeaponKeywordMatch))
  : list Node :=
  match resolved with
  | [] => []
  | (part, Some info) :: resolved' =>
      NKeyword part (Keywords.description info) (Keywords.anchor info)
               (map_get (Keywords.anchor info) (anchorToDoc glossary))
               (highlightText part q) (idx <? count - 1)
        :: keyword_nodes glossary q count (idx + 1) resolved'
  | (_, None) :: resolved' => keyword_nodes glossary q count (idx + 1) resolved'
  end.

Definition renderKeywordText (WEAPON_KEYWORDS : list Keywords.KeywordDef)
                             (text q : str) (glossary : Glossary) : list Node :=
  let parts := Keywords.splitKeywordList text in
  match parts with
  | [] => [NText (highlightText text q)]
  | _ =>
      let resolved := map (Keywords.resolveWeaponKeyword WEAPON_KEYWORDS) parts in
      if existsb isNone resolved then [NText (highlightText text q)]
      else keyword_nodes glossary q (length parts) 0 (combine parts resolved)
  end.

(** ** Where the annotations stand *)

Definition frag_length (f : Frag) : nat :=
  match f with Text s => length s | Mark s => length s end.

Definition content_length (content : list Frag) : nat :=
  fold_right (fun f n => frag_length f + n) 0 content.

(** The glossary annotations of a rendered text: the offset in the text
    and the term of every tooltip span and link. *)
Fixpoint annotations (offset : nat) (nodes : list Node) : list (nat * str) :=
  match nodes with
  | [] => []
  | NText content :: nodes' => annotations (offset + content_length content) nodes'
  | NTooltip term _ content :: nodes' =>
      (offset, term) :: annotations (offset + content_length content) nodes'
  | NLink term _ _ content :: nodes' =>
      (offset, term) :: annotations (offset + content_length content) nodes'
  | NKeyword _ _ _ _ content _ :: nodes' =>
      annotations (offset + content_length content) nodes'
  end.

(** ** One term at one position *)

(** The term stands at the head of [rest] and the word boundaries that its
    pattern asks for hold. *)
Definition term_stands (term : str) (prev : option ascii) (rest : str) : bool :=
  (if startsWord term then boundary prev rest else true)
  && match eat false term rest prev with
     | Some (prev', rest') => if endsWord term then boundary prev' rest' else true
     | None => false
     end.

Lemma eat_exact (s rest rest' : str) (prev prev' : option ascii) :
  eat false s rest prev = Some (prev', rest') -> rest = s ++ rest'.
Proof.
  revert rest prev; induction s as [|x s IH]; intros rest prev; simpl.
  - intros E; inversion E; reflexivity.
  - destruct rest as [|y rest]; [discriminate|].
    destruct (Ascii.eqb x y) eqn:E; [|discriminate].
    apply Ascii.eqb_eq in E; subst y. intros H. f_equal. apply (IH _ _ H).
Qed.

Lemma match_term_pattern (term : str) (prev : option ascii) (rest : str) :
  match_atoms false false (term_pattern term) prev rest
  = if term_stands term prev rest then Some (length term, None) else None.
Proof.
  unfold term_pattern, term_stands.
  destruct (startsWord term), (endsWord term); cbn [app match_atoms];
    try (destruct (boundary prev rest); cbn [andb]; [|reflexivity]);
    rewrite match_chars;
    destruct (eat false term rest prev) as [[prev' rest']|]; cbn [andb];
    try reflexivity;
    cbn [match_atoms];
    try (destruct (boundary prev' rest'));
    rewrite ?Nat.add_0_r; reflexivity.
Qed.

Lemma term_stands_prefix (term : str) (prev : option ascii) (rest : str) :
  term_stands term prev rest = true -> exists rest', rest = term ++ rest'.
Proof.
  unfold term_stands. rewrite andb_true_iff. intros [_ H].
  destruct (eat false term rest prev) as [[prev' rest']|] eqn:E;
    [|discriminate].
  exists rest'. apply (eat_exact _ _ _ _ _ E).
Qed.

Lemma match_alternatives_find (terms : list str) (prev : option ascii) (rest : str) :
  match_alternatives (map term_pattern terms) prev rest
  = option_map (@length ascii) (find (fun t => term_stands t prev rest) terms).
Proof.
  induction terms as [|t terms IH]; simpl; [reflexivity|].
  rewrite match_term_pattern. destruct (term_stands t prev rest); simpl.
  - reflexivity.
  - exact IH.
Qed.

(** ** The order of the alternatives *)

(** No term stands before a longer one. *)
Fixpoint longest_first (terms : list str) : Prop :=
  match terms with
  | [] => True
  | t :: terms' =>
      (forall x, In x terms' -> length x <= length t) /\ longest_first terms'
  end.

Lemma insert_term_In (t x : str) (sorted : list str) :
  In x (insert_term t sorted) <-> x = t \/ In x sorted.
Proof.
  induction sorted as [|y sorted IH]; simpl.
  - intuition.
  - destruct (length t <? length y); simpl; rewrite ?IH; intuition.
Qed.

Lemma insert_term_longest_first (t : str) (sorted : list str) :
  longest_first sorted -> longest_first (insert_term t sorted).
Proof.
  induction sorted as [|y sorted IH]; simpl.
  - intros _. split; [contradiction|exact I].
  - intros [Hy Hs]. destruct (length t <? length y) eqn:E; simpl.
    + apply Nat.ltb_lt in E. split; [|apply IH, Hs].
      intros x Hx. apply insert_term_In in Hx.
      destruct Hx as [->|Hx]; [lia|apply Hy, Hx].
    + apply Nat.ltb_ge in E. split; [|split; assumption].
      intros x [<-|Hx]; [exact E|]. specialize (Hy x Hx). lia.
Qed.

Lemma sort_longest_first (terms : list str) :
  longest_first (sort_by_length_desc terms).
Proof.
  induction terms as [|t terms IH]; simpl; [exact I|].
  apply insert_term_longest_first, IH.
Qed.

Lemma sort_In (x : str) (terms : list str) :
  In x (sort_by_length_desc terms) <-> In x terms.
Proof.
  induction terms as [|t terms IH]; simpl; [reflexivity|].
  rewrite insert_term_In, IH. intuition.
Qed.

(** In a list with the longest first, the first term that stands at a
    position is at least as long as any other that stands there. *)
Lemma find_longest (terms : list str) (p : str -> bool) (L : str) :
  longest_first terms -> In L terms -> p L = true ->
  exists t, find p terms = Some t /\ In t terms /\ p t = true
            /\ length L <= length t.
Proof.
  induction terms as [|x terms IH]; simpl; [contradiction|].
  intros [Hx Hs] Hin HL. destruct (p x) eqn:Ex.
  - exists x. repeat split; auto.
    destruct Hin as [->|Hin]; [lia|apply Hx, Hin].
  - destruct Hin as [->|Hin]; [congruence|].
    destruct (IH Hs Hin HL) as (t & Hf & Ht & Hp & Hl).
    exists t. repeat split; auto.
Qed.

(** ** The search for the next match *)

(** The composite pattern tried at position [i] of [raw]. *)
Definition stands_at (alts : list (list Atom)) (raw : str) (i : nat) : option nat :=
  match_alternatives alts (prev_at None raw i) (skipn i raw).

Lemma skipn_nth_cons {A} (l : list A) (i : nat) :
  i < length l -> exists x, nth_error l i = Some x /\ skipn i l = x :: skipn (S i) l.
Proof.
  revert l; induction i as [|i IH]; intros [|x l] H; simpl in H; try lia.
  - exists x. split; reflexivity.
  - destruct (IH l) as (y & E1 & E2); [lia|]. exists y. split; assumption.
Qed.

Lemma exec_found (alts : list (list Atom)) (raw : str) (p n : nat) :
  p <= length raw -> stands_at alts raw p = Some n ->
  exec alts raw p = Some (p, n).
Proof.
  intros Hp H. unfold exec. apply Nat.leb_le in Hp. rewrite Hp.
  unfold stands_at in H.
  destruct (skipn p raw); simpl; rewrite H; reflexivity.
Qed.

Lemma exec_from_cons (alts : list (list Atom)) (prev : option ascii)
                     (c : ascii) (rest : str) (index : nat) :
  match_alternatives alts prev (c :: rest) = None ->
  exec_from alts prev (c :: rest) index = exec_from alts (Some c) rest (S index).
Proof. intros H. simpl. rewrite H. reflexivity. Qed.

Lemma exec_step (alts : list (list Atom)) (raw : str) (i : nat) :
  i < length raw -> stands_at alts raw i = None ->
  exec alts raw i = exec alts raw (S i).
Proof.
  intros Hi H. unfold exec.
  assert (H1 : (i <=? length raw) = true) by (apply Nat.leb_le; lia).
  assert (H2 : (S i <=? length raw) = true) by (apply Nat.leb_le; lia).
  rewrite H1, H2. unfold stands_at in H.
  destruct (skipn_nth_cons raw i Hi) as (x & E1 & E2).
  rewrite E2 in H |- *. rewrite (exec_from_cons _ _ _ _ _ H).
  unfold prev_at at 1. rewrite E1. reflexivity.
Qed.

Lemma exec_reach (alts : list (list Atom)) (raw : str) (p : nat) :
  p <= length raw ->
  forall k lastIndex,
    lastIndex + k = p ->
    (forall i, lastIndex <= i < p -> stands_at alts raw i = None) ->
    exec alts raw lastIndex = exec alts raw p.
Proof.
  intros Hp. induction k as [|k IH]; intros lastIndex E Hnone.
  - replace lastIndex with p by lia. reflexivity.
  - rewrite exec_step; [|lia|apply Hnone; lia].
    apply IH; [lia|]. intros i Hi. apply Hnone. lia.
Qed.

Lemma exec_from_sound (alts : list (list Atom)) (rest : str) :
  forall prev index start n,
    exec_from alts prev rest index = Some (start, n) ->
    exists k, start = index + k /\ k <= length rest /\
              match_alternatives alts (prev_at prev rest k) (skipn k rest) = Some n.
Proof.
  induction rest as [|c rest IH]; intros prev index start n; simpl.
  - destruct (match_alternatives alts prev []) as [m|] eqn:E; [|discriminate].
    intros H; inversion H; subst. exists 0. repeat split; try lia. exact E.
  - destruct (match_alternatives alts prev (c :: rest)) as [m|] eqn:E.
    + intros H; inversion H; subst. exists 0. repeat split; try lia. exact E.
    + intros H. apply IH in H. destruct H as (k & -> & Hk & Hm).
      exists (S k). repeat split; try lia.
      destruct k; exact Hm.
Qed.

(** A match of the composite pattern of [terms] is a term that stands
    where the match begins. *)
Lemma exec_sound (terms : list str) (raw : str) (lastIndex start n : nat) :
  exec (map term_pattern terms) raw lastIndex = Some (start, n) ->
  lastIndex <= start /\ start + n <= length raw /\
  In (slice raw start (start + n)) terms /\
  length (slice raw start (start + n)) = n.
Proof.
  unfold exec. destruct (lastIndex <=? length raw) eqn:Hl; [|discriminate].
  apply Nat.leb_le in Hl. intros H. apply exec_from_sound in H.
  destruct H as (k & -> & Hk & Hm). rewrite length_skipn in Hk.
  rewrite match_alternatives_find in Hm.
  destruct (find _ terms) as [t|] eqn:F; [|discriminate].
  simpl in Hm. inversion Hm; subst n. apply find_some in F.
  destruct F as [Hin Hst]. apply term_stands_prefix in Hst.
  destruct Hst as [r Er]. rewrite Normalizer.skipn_skipn_add in Er.
  assert (Hlen : length (skipn (lastIndex + k) raw) = length t + length r)
    by (rewrite Er; apply length_app).
  rewrite length_skipn in Hlen.
  assert (Es : slice raw (lastIndex + k) (lastIndex + k + length t) = t).
  { unfold slice. rewrite Er.
    replace (lastIndex + k + length t - (lastIndex + k)) with (length t + 0)
      by lia.
    rewrite firstn_app_2. simpl. apply app_nil_r. }
  rewrite Es. repeat split; try lia. exact Hin.
Qed.

(** ** The loop ends when no term is empty *)

Lemma render_loop_total (glossary : Glossary) (terms : list str) (raw q : str) :
  (forall t, In t terms -> t <> []) ->
  forall fuel lastIndex nodes,
    lastIndex <= length raw -> length raw < lastIndex + fuel ->
    exists more,
      render_loop fuel glossary (map term_pattern terms) raw q lastIndex nodes
      = Some (nodes ++ more).
Proof.
  intros Hne. induction fuel as [|fuel IH]; intros lastIndex nodes Hl Hf.
  - lia.
  - simpl. destruct (exec (map term_pattern terms) raw lastIndex)
      as [[start n]|] eqn:E.
    + destruct (exec_sound _ _ _ _ _ E) as (H1 & H2 & H3 & H4).
      assert (0 < n).
      { destruct (slice raw start (start + n)) as [|c s] eqn:Es.
        - destruct (Hne [] H3). reflexivity.
        - simpl in H4. lia. }
      match goal with
      | |- exists more, render_loop _ _ _ _ _ _ ?acc = _ =>
          destruct (IH (start + n) acc) as [more Hm]; [lia|lia|]
      end.
      rewrite Hm. destruct (lastIndex <? start).
      * rewrite <- !app_assoc. eexists; reflexivity.
      * rewrite <- app_assoc. eexists; reflexivity.
    + destruct (lastIndex <? length raw).
      * eexists; reflexivity.
      * exists []. rewrite app_nil_r. reflexivity.
Qed.

(** ** Highlighting keeps the text *)

Lemma content_length_app (a b : list Frag) :
  content_length (a ++ b) = content_length a + content_length b.
Proof.
  induction a as [|f a IH]; simpl; [reflexivity|]. rewrite IH. lia.
Qed.

Lemma slice_length (s : str) (from to : nat) :
  to <= length s -> length (slice s from to) = to - from.
Proof.
  intros H. unfold slice. rewrite length_firstn, length_skipn. lia.
Qed.

Lemma highlight_loop_length (text lower qLower : str) (qlen : nat) :
  length lower = length text -> length qLower = qlen -> 0 < qlen ->
  forall fuel i parts,
    i <= length text -> length text <= i + fuel ->
    content_length parts = i ->
    content_length (highlight_loop fuel text lower qLower qlen i parts)
    = length text.
Proof.
  intros Hlow Hq Hpos. induction fuel as [|fuel IH]; intros i parts Hi Hf Hp.
  - simpl. lia.
  - simpl. destruct (i <? length text) eqn:Ei.
    + apply Nat.ltb_lt in Ei.
      destruct (indexOfFrom qLower lower i) as [hit|] eqn:Eh.
      * apply Search.indexOfFrom_bound in Eh. rewrite Hlow, Hq in Eh.
        apply IH; [lia|lia|].
        rewrite content_length_app. simpl.
        rewrite slice_length by lia.
        destruct (i <? hit) eqn:Eih.
        -- apply Nat.ltb_lt in Eih. rewrite content_length_app. simpl.
           rewrite slice_length by lia. lia.
        -- apply Nat.ltb_ge in Eih. lia.
      * rewrite content_length_app. simpl. rewrite length_skipn. lia.
    + apply Nat.ltb_ge in Ei. lia.
Qed.

Lemma highlightText_length (text q : str) :
  content_length (highlightText text q) = length text.
Proof.
  unfold highlightText. destruct q as [|c q]; simpl negb; cbv iota.
  - simpl. lia.
  - apply highlight_loop_length; try lia.
    + unfold toLowerCase. apply length_map.
    + unfold toLowerCase. apply length_map.
    + simpl. lia.
    + reflexivity.
Qed.

(** ** The node of a glossary term *)

Definition is_annotation_of (term : str) (n : Node) : Prop :=
  match n with
  | NTooltip t _ _ => t = term
  | NLink t _ _ _ => t = term
  | _ => False
  end.

Lemma glossary_terms_In (docs : list RuleSection) (attrs skills : list (str * str))
                        (kws : list Keywords.KeywordDef) (t : str) :
  let g := buildGlossary docs attrs skills kws in
  In t (glossary_terms (tooltipTerms g) (linkTerms g)) ->
  In t (map_keys (tooltipTerms g)) \/ In t (map_keys (linkTerms g)).
Proof.
  cbv zeta. intros H. unfold glossary_terms in H.
  apply sort_In, dedupe_In, in_app_or in H. exact H.
Qed.

Lemma glossary_terms_nonempty (docs : list RuleSection)
                              (attrs skills : list (str * str))
                              (kws : list Keywords.KeywordDef) (t : str) :
  let g := buildGlossary docs attrs skills kws in
  In t (glossary_terms (tooltipTerms g) (linkTerms g)) -> t <> [].
Proof.
  cbv zeta. intros H. apply glossary_terms_In in H.
  pose proof (buildGlossary_fields docs attrs skills kws) as F.
  cbv zeta in F. destruct F as (El & Et & _).
  rewrite El, Et in H. destruct H as [H|H].
  - revert t H. apply Forall_forall.
    rewrite buildTooltipTerms_fold. apply add_tooltip_keys. constructor.
  - revert t H. apply Forall_forall. apply linkTerms_keys.
Qed.

Lemma annotate_glossary_term (docs : list RuleSection)
                             (attrs skills : list (str * str))
                             (kws : list Keywords.KeywordDef) (t q : str) :
  let g := buildGlossary docs attrs skills kws in
  In t (glossary_terms (tooltipTerms g) (linkTerms g)) ->
  is_annotation_of t (annotate g t q).
Proof.
  cbv zeta. intros H. apply glossary_terms_In in H.
  set (g := buildGlossary docs attrs skills kws) in *. unfold annotate.
  destruct (map_get t (tooltipTerms g)) as [d|] eqn:Et.
  - assert (Hd : d <> []).
    { apply (map_get_value (fun v => v <> []) t d (tooltipTerms g)); [|exact Et].
      pose proof (buildGlossary_fields docs attrs skills kws) as F.
      cbv zeta in F. destruct F as (_ & E & _).
      fold g in E. rewrite E, buildTooltipTerms_fold.
      apply add_tooltip_values. constructor. }
    destruct d; [contradiction|]. reflexivity.
  - destruct H as [H|H].
    + apply map_get_in_keys in H. unfold map_has in H. rewrite Et in H.
      discriminate.
    + apply map_get_in_keys in H. unfold map_has in H.
      destruct (map_get t (linkTerms g)); [reflexivity|discriminate].
Qed.

(** The first pass of the loop. *)
Lemma render_first (glossary : Glossary) (terms : list str) (raw q : str)
                   (p n : nat) :
  (forall t, In t terms -> t <> []) ->
  exec (map term_pattern terms) raw 0 = Some (p, n) ->
  exists more,
    render_loop (S (length raw)) glossary (map term_pattern terms) raw q 0 []
    = Some ((if 0 <? p then [NText (highlightText (slice raw 0 p) q)] else [])
              ++ annotate glossary (slice raw p (p + n)) q :: more).
Proof.
  intros Hne E. cbn [render_loop]. rewrite E.
  destruct (exec_sound _ _ _ _ _ E) as (H1 & H2 & H3 & H4).
  assert (0 < n).
  { destruct (slice raw p (p + n)) as [|c s] eqn:Es.
    - destruct (Hne [] H3). reflexivity.
    - simpl in H4. lia. }
  match goal with
  | |- exists more, render_loop _ _ _ _ _ _ ?acc = _ =>
      destruct (render_loop_total glossary terms raw q Hne
                  (length raw) (p + n) acc) as [more Hm]; [lia|lia|]
  end.
  rewrite Hm. exists more. destruct (0 <? p); simpl.
  - reflexivity.
  - reflexivity.
Qed.

Lemma annotations_lead (p : nat) (raw q : str) (n : Node) (more : list Node)
                       (term : str) :
  p <= length raw -> is_annotation_of term n ->
  In (p, term)
     (annotations 0 ((if 0 <? p then [NText (highlightText (slice raw 0 p) q)]
                      else []) ++ n :: more)).
Proof.
  intros Hp Hn. destruct (0 <? p) eqn:E.
  - simpl. rewrite highlightText_length, slice_length by lia.
    replace (p - 0) with p by lia.
    destruct n; simpl in Hn; try contradiction; subst; left; reflexivity.
  - apply Nat.ltb_ge in E. replace p with 0 by lia. simpl.
    destruct n; simpl in Hn; try contradiction; subst; left; reflexivity.
Qed.

End Annotator.

(* ================================================================== *)
(** * Section views: labelled tables and row identifiers *)

Module Views.

Import Glossary Normalizer.

(** [type LabeledTable = { label: string; block: RuleBlock }] *)
Record LabeledTable := mkLabeled { label : str; block : RuleBlock }.

(** [block.rows?.[0] ?? []] *)
Definition firstRow (rows : list (list Cell)) : list Cell :=
  match rows with r :: _ => r | [] => [] end.

(** [String(firstRow[0]?.text ?? '')] *)
Definition firstText (row : list Cell) : str :=
  match row with cell :: _ => cell_text cell | [] => [] end.

(** The body of [for (const block of content)] in [collectLabeledTables]. *)
Definition collect_block (out : list LabeledTable) (b : RuleBlock)
  : list LabeledTable :=
  match b with
  | Table rows =>
      if negb (length (firstRow rows) =? 1) then out
      else
        let label := trim (firstText (firstRow rows)) in
        if negb (truthy label) then out else out ++ [mkLabeled label b]
  | _ => out
  end.

Fixpoint collectLabeledTables (section : RuleSection) (out : list LabeledTable)
  : list LabeledTable :=
  match section with
  | mkSection _ _ _ c ss _ =>
      let out := fold_left collect_block (orNil c) out in
      match ss with
      | None => out
      | Some l =>
          (fix each (l : list RuleSection) (out : list LabeledTable) :=
             match l with
             | [] => out
             | s :: l' => each l' (collectLabeledTables s out)
             end) l out
      end
  end.

(** [rules.find((d) => getSectionId(d) === slug) ?? rules[0]] *)
Definition activeDoc (rules : list RuleSection) (slug : str)
  : option RuleSection :=
  match find (fun d => Str.eqb (getSectionId d) slug) rules with
  | Some d => Some d
  | None => hd_error rules
  end.

(** The body of [for (const entry of labeled)]. *)
Definition add_labeled (map : list (str * RuleBlock)) (entry : LabeledTable)
  : list (str * RuleBlock) :=
  let key := toLowerCase (label entry) in
  if negb (map_has key map) then map_set key (block entry) map else map.

Definition tablesByLabel (activeDoc : option RuleSection)
  : list (str * RuleBlock) :=
  match activeDoc with
  | None => []
  | Some doc => fold_left add_labeled (collectLabeledTables doc []) []
  end.

(** ** [RuleSectionView] *)

Definition hasLabeledTableInContent (title : str) (content : list RuleBlock)
  : bool :=
  existsb (fun b =>
             match b with
             | Table rows =>
                 if negb (length (firstRow rows) =? 1) then false
                 else Str.eqb (toLowerCase (trim (firstText (firstRow rows))))
                              (toLowerCase title)
             | _ => false
             end) content.

Definition shouldInjectTable (tablesByLabel : list (str * RuleBlock))
                             (section : RuleSection) : bool :=
  let content := normalizeContent (orNil (content section)) in
  let fallbackTable := map_get (toLowerCase (title section)) tablesByLabel in
  negb (Annotator.isNone fallbackTable)
  && negb (hasLabeledTableInContent (title section) content).

(** The blocks that a section view hands to [renderBlock], in order: at
    depth 0 the normalized content; below, the fallback table first when
    it is to be injected. *)
Definition view_blocks (tablesByLabel : list (str * RuleBlock))
                       (section : RuleSection) (depth : nat) : list RuleBlock :=
  let content := normalizeContent (orNil (content section)) in
  if depth =? 0 then content
  else
    match map_get (toLowerCase (title section)) tablesByLabel with
    | Some fallbackTable =>
        if shouldInjectTable tablesByLabel section
        then fallbackTable :: content else content
    | None => content
    end.

(** ** [renderBlock]: the [id] of the rows of a table *)

Definition row_id (isKeywordTable : bool) (row : list Cell) : option str :=
  if isKeywordTable
  then Some (lit "weapon-keyword-" ++ slugify (firstText row))
  else None.

Definition table_row_ids (b : RuleBlock) : list (option str) :=
  match b with
  | Table (head :: body) => map (row_id (isKeywordTable head)) body
  | _ => []
  end.

End Views.

(* ================================================================== *)
(** * The list of search results *)

Module App.

Import Search Glossary Views.

(** [if (!q) return rules;
    return rules.map((doc) => filterSection(doc, q)).filter(Boolean)] *)
Definition filtered (rules : list RuleSection) (q : str) : list RuleSection :=
  if negb (truthy q) then rules
  else flat_map (fun doc => match filterSection doc q with
                            | Some d => [d]
                            | None => []
                            end) rules.

(** The slug that a search result selects: the button of a result sets
    the active slug to [doc.slug || doc.title.toLowerCase().replace(/\s+/g, '-')]. *)
Definition result_slugs (rules : list RuleSection) (q : str) : list str :=
  map (fun doc =>
         let derived := hyphenate_runs isSpace false (toLowerCase (title doc)) in
         match slug doc with
         | Some s => if truthy s then s else derived
         | None => derived
         end)
      (filtered rules q).

End App.

(* ================================================================== *)
(** * The active document *)

Module Navigation.

Import Glossary Views.

(** The state of [RulesApp] that chooses the active document: the
    normalized query [q], [searchSelection] and [activeSlug]. *)
Record Selection :=
  mkSelection { q : str; searchSelection : str; activeSlug : str }.

(** [navigateTo(id, docSlug)]:
    [if (docSlug && docSlug !== activeSlug) setActiveSlug(docSlug)];
    [docSlug] is [None] when it is [undefined]. *)
Definition navigateTo (st : Selection) (docSlug : option str) : Selection :=
  match docSlug with
  | Some d =>
      if truthy d && negb (Str.eqb d (activeSlug st))
      then mkSelection (q st) (searchSelection st) d
      else st
  | None => st
  end.

(** [activeDoc], from the state:
    [const slug = q && searchSelection ? searchSelection : activeSlug;
     return rules.find((d) => getSectionId(d) === slug) ?? rules[0]] *)
Definition activeDocument (rules : list RuleSection) (st : Selection)
  : option RuleSection :=
  let slug := if truthy (q st) && truthy (searchSelection st)
              then searchSelection st else activeSlug st in
  activeDoc rules slug.

End Navigation.

(* ================================================================== *)
(** * Offsets of the rendered nodes *)

Module PlacementFacts.

Import Regex Glossary Annotator.

Definition node_length (n : Node) : nat :=
  match n with
  | NText content => content_length content
  | NTooltip _ _ content => content_length content
  | NLink _ _ _ content => content_length content
  | NKeyword _ _ _ _ content _ => content_length content
  end.

Definition nodes_length (nodes : list Node) : nat :=
  list_sum (map node_length nodes).

(** The annotations come one after the other from [from] on, and each is
    a term of [terms] that the text [raw] holds at the offset of the
    annotation. *)
Fixpoint well_placed (raw : str) (terms : list str) (from : nat)
                     (anns : list (nat * str)) : Prop :=
  match anns with
  | [] => True
  | (o, t) :: anns' =>
      from <= o /\ In t terms /\ slice raw o (o + length t) = t /\
      well_placed raw terms (o + length t) anns'
  end.

Lemma nodes_length_app (a b : list Node) :
  nodes_length (a ++ b) = nodes_length a + nodes_length b.
Proof. unfold nodes_length. rewrite map_app, list_sum_app. reflexivity. Qed.

Lemma annotations_app (a b : list Node) :
  forall offset,
    annotations offset (a ++ b)
    = annotations offset a ++ annotations (offset + nodes_length a) b.
Proof.
  induction a as [|n a IH]; intros offset.
  - simpl. rewrite Nat.add_0_r. reflexivity.
  - assert (E : nodes_length (n :: a) = node_length n + nodes_length a)
      by reflexivity.
    rewrite E, Nat.add_assoc.
    destruct n; cbn [app annotations node_length]; rewrite IH; reflexivity.
Qed.

Lemma well_placed_from (raw : str) (terms : list str) (from from' : nat)
                       (anns : list (nat * str)) :
  from <= from' -> well_placed raw terms from' anns ->
  well_placed raw terms from anns.
Proof.
  destruct anns as [|[o t] anns]; [auto|]. simpl.
  intros Hf (H1 & H2 & H3 & H4). repeat split; try assumption. lia.
Qed.

Lemma annotate_length (g : Glossary) (term q : str) :
  node_length (annotate g term q) = length term.
Proof.
  unfold annotate.
  destruct (map_get term (tooltipTerms g)) as [[|c d]|];
    destruct (map_get term (linkTerms g)); cbn [node_length];
    apply highlightText_length.
Qed.

Lemma annotate_annotations (g : Glossary) (term q : str) (offset : nat) :
  annotations offset [annotate g term q] = [(offset, term)] \/
  annotations offset [annotate g term q] = [].
Proof.
  unfold annotate.
  destruct (map_get term (tooltipTerms g)) as [[|c d]|];
    destruct (map_get term (linkTerms g)); cbn [annotations]; auto.
Qed.

Lemma render_loop_placed (g : Glossary) (terms : list str) (raw q : str) :
  forall fuel lastIndex nodes out,
    render_loop fuel g (map term_pattern terms) raw q lastIndex nodes = Some out ->
    nodes_length nodes = lastIndex ->
    exists more,
      out = nodes ++ more /\
      well_placed raw terms lastIndex (annotations lastIndex more).
Proof.
  induction fuel as [|fuel IH]; intros lastIndex nodes out H Hn;
    [discriminate H|].
  cbn [render_loop] in H.
  destruct (exec (map term_pattern terms) raw lastIndex) as [[start n]|] eqn:E.
  - destruct (exec_sound _ _ _ _ _ E) as (H1 & H2 & H3 & H4). cbv zeta in H.
    set (term := slice raw start (start + n)) in *.
    set (lead := if lastIndex <? start
                 then [NText (highlightText (slice raw lastIndex start) q)]
                 else []).
    assert (El : (if lastIndex <? start
                  then nodes ++ [NText (highlightText (slice raw lastIndex start) q)]
                  else nodes) = nodes ++ lead).
    { unfold lead. destruct (lastIndex <? start);
        [reflexivity|rewrite app_nil_r; reflexivity]. }
    rewrite El in H.
    assert (Hlead : nodes_length lead = start - lastIndex /\
                    annotations lastIndex lead = []).
    { unfold lead. destruct (lastIndex <? start) eqn:Els.
      - apply Nat.ltb_lt in Els. split; [|reflexivity].
        unfold nodes_length. cbn [map list_sum fold_right node_length].
        rewrite highlightText_length, slice_length by lia. lia.
      - apply Nat.ltb_ge in Els. split; [|reflexivity].
        unfold nodes_length. simpl. lia. }
    destruct Hlead as [Hl Ha].
    apply IH in H.
    + destruct H as (more & -> & Hw).
      exists (lead ++ annotate g term q :: more). split.
      * rewrite <- !app_assoc. reflexivity.
      * rewrite annotations_app, Ha, Hl. cbn [app].
        replace (lastIndex + (start - lastIndex)) with start by lia.
        change (annotate g term q :: more) with ([annotate g term q] ++ more).
        rewrite annotations_app.
        unfold nodes_length at 1. cbn [map list_sum fold_right].
        rewrite annotate_length, Nat.add_0_r, H4.
        destruct (annotate_annotations g term q start) as [Ea|Ea]; rewrite Ea.
        -- cbn [app well_placed]. rewrite H4.
           repeat split; try assumption.
        -- cbn [app]. apply (well_placed_from _ _ _ (start + n)); [lia|exact Hw].
    + rewrite !nodes_length_app, Hn, Hl. unfold nodes_length.
      cbn [map list_sum fold_right]. rewrite annotate_length, H4. lia.
  - inversion H; subst out.
    destruct (lastIndex <? length raw).
    + eexists. split; [reflexivity|]. exact I.
    + exists []. split; [rewrite app_nil_r; reflexivity|exact I].
Qed.

End PlacementFacts.

(** ** The positions at which the scan resumes *)

Module ScanFacts.

Import Regex Glossary Annotator PlacementFacts.

Lemma annotate_is (g : Glossary) (term q : str) (offset : nat) :
  is_annotation_of term (annotate g term q) ->
  annotations offset [annotate g term q] = [(offset, term)].
Proof.
  destruct (annotate g term q); simpl; intros H; try contradiction;
    subst; reflexivity.
Qed.

(** The loop of [renderGlossaryText], run from [lastIndex0]: whenever the
    scan is resumed at [lastIndex0] or behind an annotation and the
    pattern then matches the term [t] at [p], the annotation of [t] at
    [p] is among those made. *)
Lemma render_loop_reach (g : Glossary) (terms : list str) (raw q : str) :
  (forall t, In t terms -> is_annotation_of t (annotate g t q)) ->
  forall fuel lastIndex0 nodes0 out,
    render_loop fuel g (map term_pattern terms) raw q lastIndex0 nodes0
    = Some out ->
    nodes_length nodes0 = lastIndex0 ->
    exists more,
      out = nodes0 ++ more /\
      forall lastIndex p t,
        (lastIndex = lastIndex0 \/
         exists o t', In (o, t') (annotations lastIndex0 more) /\
                      lastIndex = o + length t') ->
        exec (map term_pattern terms) raw lastIndex = Some (p, length t) ->
        slice raw p (p + length t) = t ->
        In (p, t) (annotations lastIndex0 more).
Proof.
  intros Hann. induction fuel as [|fuel IH]; intros lastIndex0 nodes0 out H Hn;
    [discriminate H|].
  cbn [render_loop] in H.
  destruct (exec (map term_pattern terms) raw lastIndex0) as [[start n]|] eqn:E.
  - destruct (exec_sound _ _ _ _ _ E) as (H1 & H2 & H3 & H4). cbv zeta in H.
    set (term := slice raw start (start + n)) in *.
    set (lead := if lastIndex0 <? start
                 then [NText (highlightText (slice raw lastIndex0 start) q)]
                 else []).
    assert (El : (if lastIndex0 <? start
                  then nodes0 ++ [NText (highlightText (slice raw lastIndex0 start) q)]
                  else nodes0) = nodes0 ++ lead).
    { unfold lead. destruct (lastIndex0 <? start);
        [reflexivity|rewrite app_nil_r; reflexivity]. }
    rewrite El in H.
    assert (Hlead : nodes_length lead = start - lastIndex0 /\
                    annotations lastIndex0 lead = []).
    { unfold lead. destruct (lastIndex0 <? start) eqn:Els.
      - apply Nat.ltb_lt in Els. split; [|reflexivity].
        unfold nodes_length. cbn [map list_sum fold_right node_length].
        rewrite highlightText_length, slice_length by lia. lia.
      - apply Nat.ltb_ge in Els. split; [|reflexivity].
        unfold nodes_length. simpl. lia. }
    destruct Hlead as [Hl Ha].
    apply IH in H.
    + destruct H as (more & -> & Hw).
      exists (lead ++ annotate g term q :: more). split.
      * rewrite <- !app_assoc. reflexivity.
      * assert (Ean : annotations lastIndex0 (lead ++ annotate g term q :: more)
                      = (start, term) :: annotations (start + n) more).
        { rewrite annotations_app, Ha, Hl. cbn [app].
          replace (lastIndex0 + (start - lastIndex0)) with start by lia.
          change (annotate g term q :: more) with ([annotate g term q] ++ more).
          rewrite annotations_app.
          unfold nodes_length at 1. cbn [map list_sum fold_right].
          rewrite annotate_length, Nat.add_0_r, H4.
          rewrite (annotate_is g term q start (Hann term H3)). reflexivity. }
        rewrite Ean. intros lastIndex p t Hres Hexec Hslice.
        destruct Hres as [->|(o & t' & Hin & ->)].
        -- rewrite E in Hexec. injection Hexec as Hp Hlen. left.
           unfold term. rewrite Hp, Hlen, Hslice. reflexivity.
        -- right. destruct Hin as [Hin|Hin].
           ++ injection Hin as <- <-.
              apply (Hw (start + length term) p t); try assumption.
              left. rewrite H4. reflexivity.
           ++ apply (Hw (o + length t') p t); try assumption.
              right. exists o, t'. split; [exact Hin|reflexivity].
    + rewrite !nodes_length_app, Hn, Hl. unfold nodes_length.
      cbn [map list_sum fold_right]. rewrite annotate_length, H4. lia.
  - inversion H; subst out.
    assert (Hnone : forall lastIndex p t,
               (lastIndex = lastIndex0 \/
                exists o t', In (o, t') (@nil (nat * str)) /\
                             lastIndex = o + length t') ->
               exec (map term_pattern terms) raw lastIndex = Some (p, length t) ->
               slice raw p (p + length t) = t -> False).
    { intros lastIndex p t [->|(o & t' & [] & _)] Hexec _. congruence. }
    destruct (lastIndex0 <? length raw).
    + eexists. split; [reflexivity|]. cbn [annotations].
      intros lastIndex p t Hres Hexec Hslice.
      destruct (Hnone _ _ _ Hres Hexec Hslice).
    + exists []. split; [rewrite app_nil_r; reflexivity|]. cbn [annotations].
      intros lastIndex p t Hres Hexec Hslice.
      destruct (Hnone _ _ _ Hres Hexec Hslice).
Qed.

End ScanFacts.

(* ================================================================== *)
(** * String literals in the serialization *)

Module JsonFacts.

Import Search.

(** Every text of a section stands in the serialization as a JSON string
    literal, between its two double quotes. *)
Lemma spans_literals (t : str) (o : option (list RuleSpan)) :
  In t (spans_texts o) ->
  exists v, spans_json o = Some v /\ occurs (json_string t) v.
Proof.
  destruct o as [l|]; [|contradiction]. unfold spans_texts. simpl.
  intros Hin. apply in_flat_map in Hin. destruct Hin as (sp & Hsp & Ht).
  eexists; split; [reflexivity|].
  apply (occurs_json_array _ (span_json sp)); [apply in_map, Hsp|].
  destruct sp as [[t'|]]; simpl in Ht; [|contradiction].
  destruct Ht as [->|[]].
  apply (occurs_json_object _ (lit "text") (json_string t)).
  - left; reflexivity.
  - apply occurs_refl.
Qed.

Lemma cell_literals (t : str) (c : Cell) :
  In t (cell_texts c) -> occurs (json_string t) (cell_json c).
Proof.
  intros [<-|Hin].
  - apply (occurs_json_object _ (lit "text") (json_string (cell_text c))).
    + left; reflexivity.
    + apply occurs_refl.
  - destruct (spans_literals _ _ Hin) as (v & Ev & Hv).
    apply (occurs_json_object _ (lit "spans") v).
    + right; left. unfold cell_json. rewrite Ev. reflexivity.
    + exact Hv.
Qed.

Lemma cells_literals (t : str) (l : list Cell) :
  In t (flat_map cell_texts l) ->
  occurs (json_string t) (json_array (map cell_json l)).
Proof.
  intros Hin. apply in_flat_map in Hin. destruct Hin as (c & Hc & Ht).
  apply (occurs_json_array _ (cell_json c)); [apply in_map, Hc|].
  apply cell_literals, Ht.
Qed.

Lemma block_literals (t : str) (b : RuleBlock) :
  In t (block_texts b) -> occurs (json_string t) (block_json b).
Proof.
  destruct b as [text sp|o it|rows]; simpl.
  - intros [<-|Hin].
    + apply (occurs_json_object _ (lit "text") (json_string text)).
      * right; left; reflexivity.
      * apply occurs_refl.
    + destruct (spans_literals _ _ Hin) as (v & Ev & Hv).
      apply (occurs_json_object _ (lit "spans") v).
      * right; right; left. rewrite Ev. reflexivity.
      * exact Hv.
  - destruct it as [l|]; [|contradiction]. simpl. intros Hin.
    apply (occurs_json_object _ (lit "items") (json_array (map cell_json l))).
    + right; right; left; reflexivity.
    + apply cells_literals, Hin.
  - intros Hin. apply in_flat_map in Hin. destruct Hin as (r & Hr & Ht).
    eapply occurs_json_object.
    + right; left; reflexivity.
    + apply (occurs_json_array _ (json_array (map cell_json r))).
      * apply (in_map (fun r => json_array (map cell_json r))), Hr.
      * apply cells_literals, Ht.
Qed.

Lemma section_literals (t : str) (s : RuleSection) :
  In t (section_texts s) -> occurs (json_string t) (stringify s).
Proof.
  induction s as [ti sl lv c ss f IH] using RuleSection_children_ind.
  simpl. intros [<-|Hin].
  - eapply occurs_json_object; [left; reflexivity|apply occurs_refl].
  - apply in_app_or in Hin. destruct Hin as [Hin|Hin].
    + destruct c as [l|]; [|contradiction]. simpl in Hin.
      apply in_flat_map in Hin. destruct Hin as (b & Hb & Ht).
      eapply occurs_json_object.
      * right; right; right; left; reflexivity.
      * apply (occurs_json_array _ (block_json b)); [apply in_map, Hb|].
        apply block_literals, Ht.
    + destruct ss as [l|]; [|contradiction].
      apply in_flat_map in Hin. destruct Hin as (k & Hk & Ht).
      eapply occurs_json_object.
      * right; right; right; right; left; reflexivity.
      * apply (occurs_json_array _ (stringify k)); [apply in_map, Hk|].
        pose proof (IH l eq_refl) as HF. rewrite Forall_forall in HF.
        apply (HF k Hk), Ht.
Qed.

End JsonFacts.

(* ================================================================== *)
(** * Properties of the specification *)

Section NormalizerProperties.

Import Normalizer.

Definition cellA := mkCell (lit "A") None.
Definition cellB := mkCell (lit "B") None.
Definition para (s : str) := Paragraph s None.

(** C5. A table block at any place of the content makes the normalizer
    drop exactly the maximal run of paragraphs behind it whose texts are
    the table's non-empty cell texts in row-major order: the run ends at
    the first paragraph with another text, at the first block that is not a
    paragraph, at the end of the input, or when the cell texts are used up.
    What stands before the table and what stands behind the run are
    normalized on their own.  A table with cells A, B followed by the
    paragraphs A, B, C loses the first two paragraphs and keeps C; a
    mismatch at the first paragraph removes nothing. *)
Theorem normalize_removes_maximal_run :
  forall (pre : list RuleBlock) (rows : list (list Cell)) (rest : list RuleBlock),
    (exists d,
        maximal_run (tableTexts rows) rest d /\
        (forall d', maximal_run (tableTexts rows) rest d' -> d' = d) /\
        normalizeContent (pre ++ Table rows :: rest)
        = normalizeContent pre ++ Table rows :: normalizeContent (skipn d rest)) /\
    normalizeContent
      [Table [[cellA; cellB]]; para (lit "A"); para (lit "B"); para (lit "C")]
    = [Table [[cellA; cellB]]; para (lit "C")] /\
    normalizeContent
      [Table [[cellA; cellB]]; para (lit "X"); para (lit "A"); para (lit "B")]
    = [Table [[cellA; cellB]]; para (lit "X"); para (lit "A"); para (lit "B")].
Proof.
  intros pre rows rest. split; [|split; reflexivity].
  exists (dup_count (tableTexts rows) rest). split; [|split].
  - apply dup_count_maximal.
  - intros d' H. apply (maximal_run_unique _ _ _ _ H), dup_count_maximal.
  - rewrite normalizeContent_cut by reflexivity.
    rewrite normalizeContent_cons. reflexivity.
Qed.

(** C9. The output of the normalizer is the input with some paragraph
    blocks left out: a subsequence of the input in the original order, in
    which every table block and every list block of the input stands,
    unchanged. *)
Theorem normalize_output_subsequence :
  forall c : list RuleBlock,
    Subseq (normalizeContent c) c /\
    DropsParagraphs (normalizeContent c) c /\
    filter (fun b => negb (isParagraph b)) (normalizeContent c)
    = filter (fun b => negb (isParagraph b)) c /\
    incl (filter (fun b => negb (isParagraph b)) c) (normalizeContent c).
Proof.
  intros c. pose proof (normalizeContent_drops c) as H.
  split; [apply DropsParagraphs_Subseq, H|].
  split; [exact H|].
  split; [apply DropsParagraphs_filter, H|].
  intros b Hb. apply filter_In in Hb. destruct Hb as [Hin Hp].
  apply (DropsParagraphs_keeps _ _ _ H Hin).
  destruct (isParagraph b); [discriminate|reflexivity].
Qed.

End NormalizerProperties.

Section SearchProperties.

Import Search.

Definition plain_section (t : str) : RuleSection := mkSection t None None None None None.

(** C2, as the specification states it, fails in both directions: the
    query "title" matches a section whose only text is "Foo" (the property
    name is part of the serialization), and the query made of a, a double
    quote and b does not match a section that has this very text as its
    title (the serialization writes the quote as an escape). *)
Lemma self_match_not_only_texts :
  (lit "title" <> [] /\ toLowerCase (lit "title") = lit "title" /\
   sectionMatchesQuery (plain_section (lit "Foo")) (lit "title") = true /\
   ~ in_texts (lit "title") (plain_section (lit "Foo"))) /\
  (let q := lit "a" ++ [dquote] ++ lit "b" in
   q <> [] /\ toLowerCase q = q /\
   in_texts q (plain_section q) /\
   sectionMatchesQuery (plain_section q) q = false).
Proof.
  split.
  - split; [discriminate|]. split; [reflexivity|]. split; [reflexivity|].
    intros (t & Hin & Hocc). simpl in Hin. destruct Hin as [<-|[]].
    apply includes_spec in Hocc. vm_compute in Hocc. discriminate.
  - cbv zeta. split; [discriminate|]. split; [reflexivity|].
    split; [|reflexivity].
    eexists. split; [left; reflexivity|]. apply occurs_refl.
Qed.

(** C2, amended. For a non-empty query, a section self-matches if and only
    if the query occurs in the lower-cased JSON serialization of the
    section.  An occurrence of the query in the lower-cased JSON string
    literal (the escaped text between its double quotes) of the title, of
    a content text or of a title or content text of a descendant is
    enough: the quotes around a literal cut every context, so that the
    literal is lower-cased within the serialization as it is on its own.
    The other parts of the serialization match as well: the query "title"
    matches every section. *)
Theorem self_match_is_json_substring :
  forall (s : RuleSection) (q : str),
    q <> [] ->
    (sectionMatchesQuery s q = true <-> occurs q (toLowerCase (stringify s))) /\
    (forall t, In t (section_texts s) ->
               occurs q (toLowerCase (json_string t)) ->
               sectionMatchesQuery s q = true) /\
    sectionMatchesQuery s (lit "title") = true.
Proof.
  intros s q Hq. split; [apply sectionMatchesQuery_occurs, Hq|]. split.
  - intros t Hin Hocc. apply sectionMatchesQuery_occurs; [exact Hq|].
    apply (occurs_trans _ (toLowerCase (json_string t))); [exact Hocc|].
    apply occurs_lower, JsonFacts.section_literals, Hin.
  - apply sectionMatchesQuery_occurs; [discriminate|].
    apply stringify_title_key.
Qed.

Lemma self_match_is_json_substring_witness :
  sectionMatchesQuery (plain_section (lit "Fire damage")) (lit "fire") = true.
Proof.
  assert (Hq : lit "fire" <> []) by discriminate.
  apply (proj1 (proj2 (self_match_is_json_substring
                         (plain_section (lit "Fire damage")) (lit "fire") Hq))
               (lit "Fire damage")).
  - left; reflexivity.
  - exists [dquote], (lit " damage" ++ [dquote]). reflexivity.
Defined.

(** C10. The match count of the empty query is 0 for every section, while
    the search filter takes the empty query as a match of every section:
    [sectionMatchesQuery] answers true and [filterSection] returns the
    section unchanged. *)
Theorem empty_query_counts_zero :
  forall s : RuleSection,
    countQueryMatches s [] = 0 /\
    sectionMatchesQuery s [] = true /\
    filterSection s [] = Some s.
Proof.
  intros s. split; [reflexivity|]. split; [reflexivity|].
  destruct s; reflexivity.
Qed.

End SearchProperties.

Section TooltipProperties.

Import Glossary.

Definition reach_attr : list (str * str) := [(lit "Reach", lit "attribute text")].
Definition reach_kw : list Keywords.KeywordDef :=
  [Keywords.mkKeyword (lit "Reach") (lit "keyword text")].

(** C4, as the specification states it (first-wins), fails: with "Reach"
    registered by the attributes and again by the weapon keywords, the
    mapping carries the description of the weapon keyword, registered
    last, and not the one registered first. *)
Lemma tooltip_registration_not_first_wins :
  first_registration (lit "Reach") (reach_attr ++ [] ++ map keyword_entry reach_kw)
  = Some (lit "attribute text") /\
  map_get (lit "Reach") (buildTooltipTerms reach_attr [] reach_kw)
  = Some (lit "keyword text") /\
  map_get (lit "Reach") (buildTooltipTerms reach_attr [] reach_kw)
  <> first_registration (lit "Reach")
                        (reach_attr ++ [] ++ map keyword_entry reach_kw).
Proof. repeat split; try reflexivity. discriminate. Qed.

(** C4, amended. Tooltip-term registration is last-wins: the mapping built
    from the attributes, then the skills, then the weapon keywords carries
    for every term key the description of the latest entry that registers
    the key, an entry with an empty key or an empty description
    registering nothing; a key that no entry registers is absent. *)
Theorem tooltip_registration_last_wins :
  forall (attrs skills : list (str * str)) (kws : list Keywords.KeywordDef)
         (key : str),
    map_get key (buildTooltipTerms attrs skills kws)
    = last_registration key (attrs ++ skills ++ map keyword_entry kws).
Proof.
  intros attrs skills kws key.
  rewrite buildTooltipTerms_fold, fold_add_tooltip_get.
  destruct (last_registration key _); reflexivity.
Qed.

End TooltipProperties.

Section HeadingProperties.

Import Glossary.

(** C6. The headings collected under one title, in document traversal
    order, form the group of the title.  The link target of the title is
    the first heading of the group among those at the least depth of the
    group, and [sameLevelCount] is the number of headings of the group at
    that depth. *)
Theorem duplicate_heading_resolution :
  forall (docs : list RuleSection) (title : str) (group : list Candidate)
         (d : nat),
    heading_group docs title = group ->
    group <> [] ->
    least_depth group d ->
    exists chosen later,
      filter (fun c => cand_depth c =? d) group = chosen :: later /\
      map_get title (fst (buildAnchorMaps docs))
      = Some (mkLink (cand_id chosen) (cand_docSlug chosen)
                     (length (chosen :: later))).
Proof.
  intros docs title group d Hg Hne Hd.
  rewrite buildAnchorMaps_linkTerms, Hg.
  destruct group as [|first others]; [contradiction|].
  assert (Ed : min_depth first others = d)
    by (apply (least_depth_unique (first :: others));
        [apply min_depth_least|exact Hd]).
  unfold resolve_group. rewrite Ed.
  destruct (filter (fun c => cand_depth c =? d) (first :: others))
    as [|chosen later] eqn:F.
  - exfalso. destruct Hd as [(c & Hin & Hc) _].
    assert (Hf : In c (filter (fun c => cand_depth c =? d) (first :: others))).
    { apply filter_In. split; [exact Hin|]. apply Nat.eqb_eq, Hc. }
    rewrite F in Hf. contradiction.
  - exists chosen, later. split; reflexivity.
Qed.

Definition leaf (t : str) : RuleSection := mkSection t None None None None None.
Definition node (t : str) (children : list RuleSection) : RuleSection :=
  mkSection t None None None (Some children) None.

(** Two documents: "Resistances" stands at depth 2 in the first and at
    depth 1 in the second. *)
Definition two_docs : list RuleSection :=
  [node (lit "Combat Rules") [node (lit "Damage") [leaf (lit "Resistances")]];
   node (lit "Creatures") [leaf (lit "Resistances")]].

(** The same with a second "Resistances" at depth 1, in a third document. *)
Definition three_docs : list RuleSection :=
  two_docs ++ [node (lit "Hazards") [leaf (lit "Resistances")]].

Lemma duplicate_heading_resolution_witness :
  exists chosen later,
    filter (fun c => cand_depth c =? 1)
           (heading_group two_docs (lit "Resistances")) = chosen :: later /\
    map_get (lit "Resistances") (fst (buildAnchorMaps two_docs))
    = Some (mkLink (cand_id chosen) (cand_docSlug chosen)
                   (length (chosen :: later))).
Proof.
  apply (duplicate_heading_resolution two_docs (lit "Resistances")
           (heading_group two_docs (lit "Resistances")) 1).
  - reflexivity.
  - vm_compute. discriminate.
  - split.
    + exists (mkCandidate (lit "resistances") (lit "creatures") 1).
      split; [vm_compute; right; left; reflexivity|reflexivity].
    + vm_compute. intros c [<-|[<-|[]]]; simpl; lia.
Defined.

(** The example of the specification, evaluated: the depth-1 section wins
    with [sameLevelCount] 1, and 2 once a second depth-1 section exists,
    the first seen still being the target. *)
Example resistances_links :
  map_get (lit "Resistances") (fst (buildAnchorMaps two_docs))
  = Some (mkLink (lit "resistances") (lit "creatures") 1) /\
  map_get (lit "Resistances") (fst (buildAnchorMaps three_docs))
  = Some (mkLink (lit "resistances") (lit "creatures") 2).
Proof. split; vm_compute; reflexivity. Qed.

End HeadingProperties.

Section AnnotatorProperties.

Import Regex Glossary Annotator.

Definition strength_terms : list (str * str) :=
  [(lit "Strength", lit "Raw physical power.");
   (lit "Strength Save", lit "A save made with Strength.")].

Definition strength_glossary : Glossary := buildGlossary [] strength_terms [] [].

Definition shot_terms : list (str * str) :=
  [(lit "Shot Power", lit "The force of a shot.");
   (lit "Power Shot Power", lit "The force of a power shot.")].

(** C1, as the specification states it, fails.  With the terms "Strength"
    and "Strength Save", the text "Strength Saves" has the longer term at
    position 0, where its pattern asks for a word boundary behind it: the
    only annotation is the shorter term, at position 0.  With the terms
    "Shot Power" and "Power Shot Power", the text "Shot Power Shot Power"
    has the longer term at position 5; the scan matches the shorter one at
    0 and again at 11, inside the longer, which gets no annotation. *)
Lemma longer_term_not_always_annotated :
  (exists post, lit "Strength Saves" = lit "Strength Save" ++ post) /\
  option_map (annotations 0)
             (renderGlossaryText (lit "Strength Saves") [] strength_glossary)
  = Some [(0, lit "Strength")] /\
  (exists pre post,
      lit "Shot Power Shot Power" = pre ++ lit "Power Shot Power" ++ post /\
      length pre = 5) /\
  option_map (annotations 0)
             (renderGlossaryText (lit "Shot Power Shot Power") []
                                 (buildGlossary [] shot_terms [] []))
  = Some [(0, lit "Shot Power"); (11, lit "Shot Power")].
Proof.
  split; [exists (lit "s"); reflexivity|].
  split; [vm_compute; reflexivity|].
  split; [exists (lit "Shot "), []; split; reflexivity|].
  vm_compute; reflexivity.
Qed.

(** C1, amended. The alternatives of the composite matcher are the
    glossary terms with the longest first.  Whenever the scan, resumed at
    [lastIndex], finds no term before position [p], and a glossary term [L]
    stands at [p] with the word boundaries that its pattern asks for, the
    match produced at [p] is a glossary term [t] at least as long as [L],
    of which [L] is a prefix: never a term shorter than [L], such as one
    that [L] contains.  The text is rendered, and whenever [lastIndex] is
    a position at which the scan of the text does resume, the start of the
    text or the end of an annotation, the rendered text carries the
    annotation of [t] at [p]. *)
Theorem longest_term_wins_where_it_stands :
  forall (docs : list RuleSection) (attrs skills : list (str * str))
         (kws : list Keywords.KeywordDef) (L raw q : str) (lastIndex p : nat),
    let g := buildGlossary docs attrs skills kws in
    let terms := glossary_terms (tooltipTerms g) (linkTerms g) in
    In L terms ->
    term_stands L (prev_at None raw p) (skipn p raw) = true ->
    lastIndex <= p ->
    (forall i, lastIndex <= i < p ->
               stands_at (map term_pattern terms) raw i = None) ->
    longest_first terms /\
    exists t,
      regex g = Some (map term_pattern terms) /\
      exec (map term_pattern terms) raw lastIndex = Some (p, length t) /\
      slice raw p (p + length t) = t /\
      In t terms /\
      length L <= length t /\ firstn (length L) t = L /\
      (forall s, length s < length L -> t <> s) /\
      exists nodes,
        renderGlossaryText raw q g = Some nodes /\
        ((lastIndex = 0 \/
          exists o t', In (o, t') (annotations 0 nodes) /\
                       lastIndex = o + length t') ->
         In (p, t) (annotations 0 nodes)).
Proof.
  cbv zeta. intros docs attrs skills kws L raw q lastIndex p HL Hst Hle Hnone.
  set (g := buildGlossary docs attrs skills kws) in *.
  set (terms := glossary_terms (tooltipTerms g) (linkTerms g)) in *.
  assert (Hsorted : longest_first terms) by apply sort_longest_first.
  split; [exact Hsorted|].
  assert (Hne : forall t, In t terms -> t <> [])
    by (intros t; apply (glossary_terms_nonempty docs attrs skills kws)).
  destruct (find_longest terms
              (fun t => term_stands t (prev_at None raw p) (skipn p raw))
              L Hsorted HL Hst) as (t & Hfind & Hin & Ht & Hlen).
  assert (Hstands : stands_at (map term_pattern terms) raw p = Some (length t)).
  { unfold stands_at. rewrite match_alternatives_find, Hfind. reflexivity. }
  destruct (term_stands_prefix _ _ _ Hst) as [rL EL].
  destruct (term_stands_prefix _ _ _ Ht) as [rt Et].
  assert (Hp : p <= length raw).
  { destruct (Nat.le_gt_cases p (length raw)) as [H|H]; [exact H|].
    rewrite skipn_all2 in EL by lia. destruct L; [|discriminate].
    destruct (Hne [] HL). reflexivity. }
  assert (Hexec : exec (map term_pattern terms) raw lastIndex = Some (p, length t)).
  { rewrite (exec_reach _ raw p Hp (p - lastIndex) lastIndex); [|lia|exact Hnone].
    apply exec_found; assumption. }
  assert (Hslice : slice raw p (p + length t) = t).
  { unfold slice. rewrite Et.
    replace (p + length t - p) with (length t + 0) by lia.
    rewrite firstn_app_2. simpl. apply app_nil_r. }
  assert (Hregex : regex g = Some (map term_pattern terms)).
  { pose proof (buildGlossary_fields docs attrs skills kws) as F.
    cbv zeta in F. destruct F as (_ & _ & F). fold g in F. fold terms in F.
    rewrite F. destruct terms; [contradiction|reflexivity]. }
  assert (Hprefix : firstn (length L) t = L).
  { rewrite EL in Et.
    assert (E : firstn (length L) (L ++ rL) = firstn (length L) (t ++ rt))
      by (rewrite Et; reflexivity).
    rewrite firstn_app, Nat.sub_diag, firstn_all in E. simpl in E.
    rewrite app_nil_r in E. rewrite firstn_app in E.
    replace (length L - length t) with 0 in E by lia. simpl in E.
    rewrite app_nil_r in E. symmetry. exact E. }
  exists t. repeat split; try assumption.
  - intros s Hs E. subst s. lia.
  - unfold renderGlossaryText. rewrite Hregex.
    destruct (render_loop_total g terms raw q Hne (S (length raw)) 0 [])
      as [more Hm]; try lia.
    rewrite Hm. exists ([] ++ more). split; [reflexivity|].
    apply (ScanFacts.render_loop_reach g terms raw q) in Hm;
      [|intros t' Ht'; apply (annotate_glossary_term docs attrs skills kws), Ht'
       |reflexivity].
    destruct Hm as (more' & Em & Hreach). rewrite Em.
    intros Hres. apply (Hreach lastIndex p t Hres Hexec Hslice).
Qed.

Lemma longest_term_wins_where_it_stands_witness :
  exists t,
    exec (map term_pattern
              (glossary_terms (tooltipTerms strength_glossary)
                              (linkTerms strength_glossary)))
         (lit "Strength and Strength Save.") 8 = Some (13, length t) /\
    length (lit "Strength Save") <= length t /\
    exists nodes,
      renderGlossaryText (lit "Strength and Strength Save.") [] strength_glossary
      = Some nodes /\ In (13, t) (annotations 0 nodes).
Proof.
  destruct (longest_term_wins_where_it_stands
              [] strength_terms [] [] (lit "Strength Save")
              (lit "Strength and Strength Save.") [] 8 13)
    as (_ & t & _ & Hexec & _ & _ & Hlen & _ & _ & nodes & Hr & Hrender).
  - vm_compute. left; reflexivity.
  - vm_compute. reflexivity.
  - lia.
  - intros i Hi.
    assert (Hi' : i = 8 \/ i = 9 \/ i = 10 \/ i = 11 \/ i = 12) by lia.
    destruct Hi' as [->|[->|[->|[->| ->]]]]; vm_compute; reflexivity.
  - exists t. split; [exact Hexec|]. split; [exact Hlen|].
    exists nodes. split; [exact Hr|].
    apply Hrender. right. exists 0, (lit "Strength").
    split; [|reflexivity].
    change (renderGlossaryText (lit "Strength and Strength Save.") []
                               (buildGlossary [] strength_terms [] []))
      with (renderGlossaryText (lit "Strength and Strength Save.") []
                               strength_glossary) in Hr.
    assert (E : renderGlossaryText (lit "Strength and Strength Save.") []
                                   strength_glossary
                = Some [NTooltip (lit "Strength") (lit "Raw physical power.")
                                 [Text (lit "Strength")];
                        NText [Text (lit " and ")];
                        NTooltip (lit "Strength Save")
                                 (lit "A save made with Strength.")
                                 [Text (lit "Strength Save")];
                        NText [Text (lit ".")]])
      by (vm_compute; reflexivity).
    rewrite E in Hr. injection Hr as <-. left. reflexivity.
Defined.

(** The example of the specification: "Strength Save" is annotated as a
    whole. *)
Example strength_save_annotated :
  option_map (annotations 0)
             (renderGlossaryText (lit "Strength Save") [] strength_glossary)
  = Some [(0, lit "Strength Save")].
Proof. vm_compute. reflexivity. Qed.

End AnnotatorProperties.

Section KeywordProperties.

Import Regex Keywords Glossary Annotator.

Definition reach_keywords : list KeywordDef :=
  [mkKeyword (lit "Reach (X)") (lit "This weapon can strike at range X.")].

(** C3, as the specification states it, fails.  In the cell
    "Reach (3), Strength" the token "Strength" is no keyword; the cell is
    rendered by [highlightText] alone, while the glossary annotator makes
    a tooltip span of "Strength". *)
Lemma keyword_cell_fallback_not_glossary :
  existsb isNone (map (resolveWeaponKeyword reach_keywords)
                      (splitKeywordList (lit "Reach (3), Strength"))) = true /\
  renderKeywordText reach_keywords (lit "Reach (3), Strength") []
                    strength_glossary
  = [NText [Text (lit "Reach (3), Strength")]] /\
  renderGlossaryText (lit "Reach (3), Strength") [] strength_glossary
  = Some [NText [Text (lit "Reach (3), ")];
          NTooltip (lit "Strength") (lit "Raw physical power.")
                   [Text (lit "Strength")]] /\
  Some (renderKeywordText reach_keywords (lit "Reach (3), Strength") []
                          strength_glossary)
  <> renderGlossaryText (lit "Reach (3), Strength") [] strength_glossary.
Proof.
  split; [vm_compute; reflexivity|].
  split; [vm_compute; reflexivity|].
  split; [vm_compute; reflexivity|].
  vm_compute. discriminate.
Qed.

(** C3, amended. A keyword-table cell with a token that the keyword
    matcher does not resolve is rendered as a whole by the search
    highlighter alone: one run of plain text with the matches of the query
    marked, with no keyword link and no glossary annotation. *)
Theorem keyword_cell_fallback_is_highlight_only :
  forall (kws : list KeywordDef) (text q : str) (glossary : Glossary),
    existsb isNone (map (resolveWeaponKeyword kws) (splitKeywordList text))
    = true ->
    renderKeywordText kws text q glossary = [NText (highlightText text q)] /\
    annotations 0 (renderKeywordText kws text q glossary) = [].
Proof.
  intros kws text q glossary H.
  assert (E : renderKeywordText kws text q glossary
              = [NText (highlightText text q)]).
  { unfold renderKeywordText.
    destruct (splitKeywordList text) as [|part parts]; [reflexivity|].
    rewrite H. reflexivity. }
  rewrite E. split; reflexivity.
Qed.

Lemma keyword_cell_fallback_is_highlight_only_witness :
  renderKeywordText reach_keywords (lit "Reach (3), Strength") (lit "reach")
                    strength_glossary
  = [NText (highlightText (lit "Reach (3), Strength") (lit "reach"))].
Proof.
  apply (keyword_cell_fallback_is_highlight_only
           reach_keywords (lit "Reach (3), Strength") (lit "reach")
           strength_glossary).
  vm_compute. reflexivity.
Defined.

(** C7 at the inputs "Reach ($&)" and "Reach ($$)".  The captured
    parameters are [$&] and [$$]; [String.prototype.replace] reads them as
    replacement patterns, so the resolved description keeps its [X], or
    carries a single dollar sign, where the specification asks for the
    parameter itself. *)
Theorem dollar_parameter_is_a_replacement_pattern :
  regex_match (fst (buildMatcher (lit "Reach (X)"))) (lit "Reach ($&)")
  = Some (Some (lit "$&")) /\
  option_map description (resolveWeaponKeyword reach_keywords (lit "Reach ($&)"))
  = Some (lit "This weapon can strike at range X.") /\
  substitute_X (lit "This weapon can strike at range X.") (lit "$&")
  = lit "This weapon can strike at range $&." /\
  regex_match (fst (buildMatcher (lit "Reach (X)"))) (lit "Reach ($$)")
  = Some (Some (lit "$$")) /\
  option_map description (resolveWeaponKeyword reach_keywords (lit "Reach ($$)"))
  = Some (lit "This weapon can strike at range $.") /\
  substitute_X (lit "This weapon can strike at range X.") (lit "$$")
  = lit "This weapon can strike at range $$.".
Proof. repeat split; vm_compute; reflexivity. Qed.

(** The example of the specification, evaluated. *)
Example reach_3_resolved :
  resolveWeaponKeyword reach_keywords (lit "Reach (3)")
  = Some (mkMatch (lit "Reach (3)") (lit "This weapon can strike at range 3.")
                  (lit "weapon-keyword-reach-3")).
Proof. vm_compute. reflexivity. Qed.

Definition xtra_keywords : list KeywordDef :=
  [mkKeyword (lit "Armor Xtra") (lit "Adds X armor.")].

(** C8 at the name "Armor Xtra", in which [" X"] begins a longer word.
    The name has no "(X)"; [buildMatcher] finds [" X"] in it and compiles
    [^Armor\s+(.+)tra$] with a parameter, not the literal name: resolving
    "Armor Xtra" captures "X", and "Armor Ultra" resolves as well, with the
    parameter "Ul". *)
Theorem space_X_inside_a_word_is_parameterized :
  includes (lit "(X)") (lit "Armor Xtra") = false /\
  buildMatcher (lit "Armor Xtra")
  = (Some (map Chr (lit "Armor") ++ [Spaces; CaptureAny] ++ map Chr (lit "tra")),
     true) /\
  regex_match (fst (buildMatcher (lit "Armor Xtra"))) (lit "Armor Xtra")
  = Some (Some (lit "X")) /\
  regex_match (fst (buildMatcher (lit "Armor Xtra"))) (lit "Armor Ultra")
  = Some (Some (lit "Ul")) /\
  option_map description (resolveWeaponKeyword xtra_keywords (lit "Armor Ultra"))
  = Some (lit "Adds Ul armor.").
Proof. repeat split; vm_compute; reflexivity. Qed.

End KeywordProperties.

(* ================================================================== *)
(** * Further properties of the code *)

(** ** Search filter and match count *)

Module SearchFacts.

Import Search.

(** The children that [filterSection] keeps: the filtered images of the
    children, in order. *)
Definition kept_children (q : str) (l : list RuleSection) : list RuleSection :=
  flat_map (fun s => match filterSection s q with
                     | Some s' => [s']
                     | None => []
                     end) l.

(** A section and all its descendants. *)
Fixpoint subtree (s : RuleSection) : list RuleSection :=
  match s with
  | mkSection _ _ _ _ ss _ =>
      s :: match ss with
           | Some l => flat_map subtree l
           | None => []
           end
  end.

Lemma filterSection_unfold (t : str) (sl : option str) (lv : option nat)
      (c : option (list RuleBlock)) (ss : option (list RuleSection))
      (f : option str) (q : str) :
  q <> [] ->
  filterSection (mkSection t sl lv c ss f) q
  = if sectionMatchesQuery (mkSection t sl lv c ss f) q
       || (0 <? length (kept_children q (orNil ss)))
    then Some (mkSection t sl lv c (Some (kept_children q (orNil ss))) f)
    else None.
Proof.
  intros Hq. destruct q as [|a q]; [contradiction|].
  cbn [filterSection truthy negb]. destruct ss as [l|]; [|reflexivity].
  cbn [orNil].
  assert (E : forall l,
             (fix each (l0 : list RuleSection) : list RuleSection :=
                match l0 with
                | [] => []
                | s :: l' =>
                    match filterSection s (a :: q) with
                    | Some s' => s' :: each l'
                    | None => each l'
                    end
                end) l = kept_children (a :: q) l).
  { induction l0 as [|k l0 IH]; [reflexivity|].
    unfold kept_children. cbn [flat_map].
    destruct (filterSection k (a :: q)); cbn [app]; rewrite IH; reflexivity. }
  rewrite E. reflexivity.
Qed.

Lemma child_occurs (t : str) (sl : option str) (lv : option nat)
      (c : option (list RuleBlock)) (l : list RuleSection) (f : option str)
      (k : RuleSection) :
  In k l -> occurs (stringify k) (stringify (mkSection t sl lv c (Some l) f)).
Proof.
  intros Hk. cbn [stringify]. eapply occurs_json_object.
  - right; right; right; right; left; reflexivity.
  - apply (occurs_json_array _ (stringify k)); [apply in_map, Hk|].
    apply occurs_refl.
Qed.

Lemma subtree_occurs (s : RuleSection) :
  forall d, In d (subtree s) -> occurs (stringify d) (stringify s).
Proof.
  induction s as [t sl lv c ss f IH] using RuleSection_children_ind.
  intros d Hd. cbn [subtree] in Hd. destruct Hd as [<-|Hd]; [apply occurs_refl|].
  destruct ss as [l|]; [|contradiction].
  apply in_flat_map in Hd. destruct Hd as (k & Hk & Hd).
  pose proof (IH l eq_refl) as HF. rewrite Forall_forall in HF.
  apply (occurs_trans _ (stringify k)); [apply (HF k Hk), Hd|].
  apply child_occurs, Hk.
Qed.

Lemma match_occurs_up (d s : RuleSection) (q : str) :
  occurs (stringify d) (stringify s) ->
  sectionMatchesQuery d q = true -> sectionMatchesQuery s q = true.
Proof.
  intros Hocc. destruct q as [|a q]; [reflexivity|].
  rewrite !sectionMatchesQuery_occurs by discriminate.
  intros H. apply (occurs_trans _ _ _ H), occurs_lower, Hocc.
Qed.

Lemma kept_children_none (q : str) (l : list RuleSection) :
  (forall k, In k l -> filterSection k q = None) -> kept_children q l = [].
Proof.
  unfold kept_children. induction l as [|k l IH]; intros Hall; [reflexivity|].
  cbn [flat_map]. rewrite (Hall k (or_introl eq_refl)). cbn [app].
  apply IH. intros k' Hk'. apply Hall. right; exact Hk'.
Qed.

Lemma filterSection_none (s : RuleSection) :
  forall q, q <> [] ->
            (filterSection s q = None <-> sectionMatchesQuery s q = false).
Proof.
  induction s as [t sl lv c ss f IH] using RuleSection_children_ind.
  intros q Hq. rewrite (filterSection_unfold _ _ _ _ _ _ _ Hq).
  destruct (sectionMatchesQuery (mkSection t sl lv c ss f) q) eqn:Em;
    cbn [orb].
  - split; discriminate.
  - assert (Hk : kept_children q (orNil ss) = []).
    { destruct ss as [l|]; [|reflexivity]. cbn [orNil].
      pose proof (IH l eq_refl) as HF. rewrite Forall_forall in HF.
      assert (Hall : forall k, In k l -> filterSection k q = None).
      { intros k Hin. apply (HF k Hin q Hq).
        destruct (sectionMatchesQuery k q) eqn:Ek; [|reflexivity].
        rewrite (match_occurs_up k _ q (child_occurs t sl lv c l f k Hin) Ek)
          in Em. discriminate. }
      apply kept_children_none, Hall. }
    rewrite Hk. split; reflexivity.
Qed.

Lemma filterSection_title (s s' : RuleSection) (q : str) :
  filterSection s q = Some s' -> title s' = title s.
Proof.
  destruct s as [t sl lv c ss f]. destruct q as [|a q].
  - cbn. intros E; inversion E; reflexivity.
  - rewrite filterSection_unfold by discriminate.
    destruct (_ || _); [|discriminate]. intros E; inversion E; reflexivity.
Qed.

Lemma kept_children_titles (q : str) (l : list RuleSection) :
  q <> [] ->
  map title (kept_children q l)
  = map title (filter (fun k => sectionMatchesQuery k q) l).
Proof.
  intros Hq. unfold kept_children.
  induction l as [|k l IH]; [reflexivity|]. cbn [flat_map filter].
  destruct (filterSection k q) as [k'|] eqn:Ek.
  - assert (Em : sectionMatchesQuery k q = true).
    { destruct (sectionMatchesQuery k q) eqn:Em; [reflexivity|].
      apply (filterSection_none k q Hq) in Em. congruence. }
    rewrite Em. cbn [app map]. rewrite IH, (filterSection_title _ _ _ Ek).
    reflexivity.
  - apply (filterSection_none k q Hq) in Ek. rewrite Ek. exact IH.
Qed.

Lemma count_loop_bound (q hay : str) :
  q <> [] ->
  forall fuel idx count,
    exists k, count_loop fuel q hay idx count = count + k /\
              (k = 0 \/ idx + k * length q <= length hay).
Proof.
  intros Hq. induction fuel as [|fuel IH]; intros idx count.
  - exists 0. split; [simpl; lia|left; reflexivity].
  - simpl. destruct (indexOfFrom q hay idx) as [hit|] eqn:E.
    + destruct (IH (hit + length q) (count + 1)) as (k & Ek & Hk).
      exists (S k). split; [lia|]. right.
      unfold indexOfFrom in E.
      destruct (indexOf q (skipn idx hay)) as [h|] eqn:Eh; [|discriminate].
      inversion E; subst hit. apply indexOf_bound in Eh.
      rewrite length_skipn in Eh.
      assert (0 < length q) by (destruct q; [contradiction|simpl; lia]).
      destruct Hk as [->|Hk]; simpl; lia.
    + exists 0. split; [lia|left; reflexivity].
Qed.

End SearchFacts.

Section SearchExtras.

Import Search SearchFacts.

(** X1. With a non-empty query, [filterSection] keeps a section exactly
    when the section self-matches: the second condition of the code, a kept
    child, adds nothing, since the serialization of a section contains the
    serializations of its children.  The kept section has its title, slug,
    level, content and file unchanged, and its children are the filtered
    images of its self-matching children, in order. *)
Theorem filter_keeps_exactly_the_self_matching :
  forall (s : RuleSection) (q : str),
    q <> [] ->
    (filterSection s q = None <-> sectionMatchesQuery s q = false) /\
    (forall s', filterSection s q = Some s' ->
        title s' = title s /\ slug s' = slug s /\ level s' = level s /\
        content s' = content s /\ file s' = file s /\
        sections s' = Some (kept_children q (orNil (sections s))) /\
        map title (kept_children q (orNil (sections s)))
        = map title (filter (fun k => sectionMatchesQuery k q)
                            (orNil (sections s)))).
Proof.
  intros s q Hq. split; [apply filterSection_none, Hq|].
  intros s' E. destruct s as [t sl lv c ss f].
  rewrite (filterSection_unfold _ _ _ _ _ _ _ Hq) in E.
  destruct (_ || _); [|discriminate]. inversion E; subst s'. cbn.
  repeat split. apply kept_children_titles, Hq.
Qed.

Definition fire_tree : RuleSection :=
  mkSection (lit "Combat") None None None
    (Some [mkSection (lit "Damage") None None None
             (Some [mkSection (lit "Fire") None None None None None;
                    mkSection (lit "Cold") None None None None None]) None;
           mkSection (lit "Movement") None None None None None]) None.

Lemma filter_keeps_exactly_the_self_matching_witness :
  map title (kept_children (lit "fire") (orNil (sections fire_tree)))
  = [lit "Damage"].
Proof.
  assert (Hq : lit "fire" <> []) by discriminate.
  destruct (filter_keeps_exactly_the_self_matching fire_tree (lit "fire") Hq)
    as [_ H].
  destruct (filterSection fire_tree (lit "fire")) as [s'|] eqn:E.
  - destruct (H s' eq_refl) as (_ & _ & _ & _ & _ & _ & Ht).
    rewrite Ht. vm_compute. reflexivity.
  - vm_compute in E. discriminate E.
Defined.

(** X2. Self-matching is inherited upward: when a section or any of its
    descendants self-matches a query, the section self-matches it, and so
    [filterSection] keeps it. *)
Theorem self_match_inherited_upward :
  forall (s d : RuleSection) (q : str),
    In d (subtree s) ->
    sectionMatchesQuery d q = true ->
    sectionMatchesQuery s q = true /\ filterSection s q <> None.
Proof.
  intros s d q Hd Hm.
  assert (Hs : sectionMatchesQuery s q = true)
    by (apply (match_occurs_up d s q); [apply subtree_occurs, Hd|exact Hm]).
  split; [exact Hs|]. destruct q as [|a q].
  - destruct s; discriminate.
  - intros E. apply filterSection_none in E; [congruence|discriminate].
Qed.

Lemma self_match_inherited_upward_witness :
  sectionMatchesQuery fire_tree (lit "cold") = true /\
  filterSection fire_tree (lit "cold") <> None.
Proof.
  apply (self_match_inherited_upward
           fire_tree (mkSection (lit "Cold") None None None None None)).
  - vm_compute. right; right; right; left. reflexivity.
  - vm_compute. reflexivity.
Defined.

(** X3. With a non-empty query, the match count of a section is positive
    exactly when the section self-matches, and the counted occurrences do
    not overlap: the count times the length of the query is at most the
    length of the lower-cased serialized text, in which the code counts. *)
Theorem count_positive_iff_match :
  forall (s : RuleSection) (q : str),
    q <> [] ->
    (0 < countQueryMatches s q <-> sectionMatchesQuery s q = true) /\
    countQueryMatches s q * length q <= length (toLowerCase (stringify s)).
Proof.
  intros s q Hq. unfold countQueryMatches, sectionMatchesQuery.
  destruct q as [|a q]; [contradiction|]. cbn [truthy negb]. cbv zeta.
  set (hay := toLowerCase (stringify s)). split.
  - cbn [count_loop]. unfold indexOfFrom, includes. cbn [skipn].
    destruct (indexOf (a :: q) hay) as [h|]; cbn [option_map].
    + destruct (count_loop_bound (a :: q) hay Hq (length hay)
                  (0 + h + length (a :: q)) (0 + 1)) as (k & Ek & _).
      rewrite Ek. split; [reflexivity|lia].
    + split; [lia|discriminate].
  - destruct (count_loop_bound (a :: q) hay Hq (S (length hay)) 0 0)
      as (k & Ek & Hk).
    rewrite Ek. destruct Hk as [->|Hk]; lia.
Qed.

Lemma count_positive_iff_match_witness :
  (0 < countQueryMatches fire_tree (lit "fire")
   <-> sectionMatchesQuery fire_tree (lit "fire") = true) /\
  countQueryMatches fire_tree (lit "fire") * 4
  <= length (toLowerCase (stringify fire_tree)).
Proof.
  apply (count_positive_iff_match fire_tree (lit "fire")). discriminate.
Defined.

End SearchExtras.

(** ** Highlighting and rendering *)

Module AnnotatorFacts.

Import Regex Glossary Annotator.

Definition frag_text (f : Frag) : str :=
  match f with Text s => s | Mark s => s end.

(** The text that a run of fragments shows. *)
Definition content_text (content : list Frag) : str := flat_map frag_text content.

(** The marked pieces of a run of fragments. *)
Definition marks (content : list Frag) : list str :=
  flat_map (fun f => match f with Mark s => [s] | Text _ => [] end) content.

(** The text that a node shows; a keyword node shows its separator. *)
Definition node_text (n : Node) : str :=
  match n with
  | NText content => content_text content
  | NTooltip _ _ content => content_text content
  | NLink _ _ _ content => content_text content
  | NKeyword _ _ _ _ content comma =>
      content_text content ++ (if comma then lit ", " else [])
  end.

Definition rendered_text (nodes : list Node) : str := flat_map node_text nodes.

Lemma content_text_app (a b : list Frag) :
  content_text (a ++ b) = content_text a ++ content_text b.
Proof. apply flat_map_app. Qed.

Lemma marks_app (a b : list Frag) : marks (a ++ b) = marks a ++ marks b.
Proof. apply flat_map_app. Qed.

Lemma rendered_text_app (a b : list Node) :
  rendered_text (a ++ b) = rendered_text a ++ rendered_text b.
Proof. apply flat_map_app. Qed.

Lemma firstn_slice (s : str) (a b : nat) :
  a <= b -> firstn a s ++ slice s a b = firstn b s.
Proof.
  unfold slice. revert s b. induction a as [|a IH]; intros s b H.
  - simpl. rewrite Nat.sub_0_r. reflexivity.
  - destruct b as [|b]; [lia|]. destruct s as [|c s].
    + rewrite skipn_nil, !firstn_nil. reflexivity.
    + simpl. f_equal. apply IH. lia.
Qed.

Lemma indexOf_stands (q s : str) (h : nat) :
  indexOf q s = Some h -> firstn (length q) (skipn h s) = q.
Proof.
  revert h; induction s as [|c s IH]; intros h; simpl.
  - destruct (starts_with q []) eqn:E; [|discriminate].
    intros H; inversion H; subst. apply starts_with_true in E.
    destruct E as [r E]. destruct q; [reflexivity|discriminate].
  - destruct (starts_with q (c :: s)) eqn:E.
    + intros H; inversion H; subst. apply starts_with_true in E.
      destruct E as [r E]. simpl skipn. rewrite E.
      rewrite firstn_app, Nat.sub_diag, firstn_all. simpl.
      apply app_nil_r.
    + destruct (indexOf q s) as [h'|]; [|discriminate]. simpl.
      intros H; inversion H; subst. simpl. apply IH. reflexivity.
Qed.

Lemma indexOfFrom_stands (q s : str) (idx hit : nat) :
  indexOfFrom q s idx = Some hit -> slice s hit (hit + length q) = q.
Proof.
  unfold indexOfFrom, slice.
  destruct (indexOf q (skipn idx s)) as [h|] eqn:E; [|discriminate].
  simpl. intros H; inversion H; subst. apply indexOf_stands in E.
  rewrite Normalizer.skipn_skipn_add in E.
  replace (idx + h + length q - (idx + h)) with (length q) by lia. exact E.
Qed.

Lemma slice_lower (s : str) (a b : nat) :
  toLowerCase (slice s a b) = slice (toLowerCase s) a b.
Proof. unfold toLowerCase, slice. rewrite skipn_map, firstn_map. reflexivity. Qed.

(** The loop of [highlightText]: the fragments spell the text, and every
    marked piece is the query up to letter case. *)
Lemma highlight_loop_text (text qLower : str) (qlen : nat) :
  length qLower = qlen -> 0 < qlen ->
  forall fuel i parts,
    i <= length text -> length text <= i + fuel ->
    content_text parts = firstn i text ->
    Forall (fun m => toLowerCase m = qLower) (marks parts) ->
    let out := highlight_loop fuel text (toLowerCase text) qLower qlen i parts in
    content_text out = text /\
    Forall (fun m => toLowerCase m = qLower) (marks out) /\
    exists more, marks out = marks parts ++ more.
Proof.
  intros Hq Hpos. cbv zeta.
  induction fuel as [|fuel IH]; intros i parts Hi Hf Hp Hm.
  - simpl. replace i with (length text) in Hp by lia.
    rewrite firstn_all in Hp. repeat split; auto.
    exists []. rewrite app_nil_r. reflexivity.
  - simpl. destruct (i <? length text) eqn:Ei.
    + apply Nat.ltb_lt in Ei.
      destruct (indexOfFrom qLower (toLowerCase text) i) as [hit|] eqn:Eh.
      * pose proof (Search.indexOfFrom_bound _ _ _ _ Eh) as Hb.
        unfold toLowerCase in Hb at 1. rewrite length_map, Hq in Hb.
        pose proof (indexOfFrom_stands _ _ _ _ Eh) as Hs.
        rewrite Hq, <- slice_lower in Hs.
        set (parts1 := if i <? hit then parts ++ [Text (slice text i hit)]
                       else parts).
        assert (H1 : content_text parts1 = firstn hit text).
        { unfold parts1. destruct (i <? hit) eqn:Eih.
          - rewrite content_text_app, Hp. simpl. rewrite app_nil_r.
            apply firstn_slice. lia.
          - apply Nat.ltb_ge in Eih. replace hit with i by lia. exact Hp. }
        assert (H2 : marks parts1 = marks parts).
        { unfold parts1. destruct (i <? hit); [|reflexivity].
          rewrite marks_app. simpl. apply app_nil_r. }
        destruct (IH (hit + qlen)
                     (parts1 ++ [Mark (slice text hit (hit + qlen))]))
          as (T & M & more & Em); try lia.
        -- rewrite content_text_app, H1. simpl. rewrite app_nil_r.
           apply firstn_slice. lia.
        -- rewrite marks_app, H2. apply Forall_app. split; [exact Hm|].
           simpl. constructor; [exact Hs|constructor].
        -- repeat split; auto. rewrite marks_app, H2, <- app_assoc in Em.
           eexists. exact Em.
      * rewrite content_text_app, marks_app, Hp. simpl. rewrite !app_nil_r.
        repeat split; [apply firstn_skipn|exact Hm|].
        exists []. rewrite app_nil_r. reflexivity.
    + apply Nat.ltb_ge in Ei. replace i with (length text) in Hp by lia.
      rewrite firstn_all in Hp. repeat split; auto.
      exists []. rewrite app_nil_r. reflexivity.
Qed.

Lemma highlight_loop_marks (text lower qLower : str) (qlen : nat) :
  forall fuel i parts,
    exists more,
      marks (highlight_loop fuel text lower qLower qlen i parts)
      = marks parts ++ more.
Proof.
  induction fuel as [|fuel IH]; intros i parts; simpl.
  - exists []. rewrite app_nil_r. reflexivity.
  - destruct (i <? length text).
    + destruct (indexOfFrom qLower lower i) as [hit|].
      * match goal with
        | |- exists more, marks (highlight_loop _ _ _ _ _ ?j ?ps) = _ =>
            destruct (IH j ps) as [more Em]
        end.
        rewrite Em, marks_app. destruct (i <? hit).
        -- rewrite marks_app. simpl. rewrite app_nil_r, <- app_assoc.
           eexists; reflexivity.
        -- rewrite <- app_assoc. eexists; reflexivity.
      * rewrite marks_app. simpl. eexists; reflexivity.
    + exists []. rewrite app_nil_r. reflexivity.
Qed.

(** The loop on any lower-cased strings: whatever [lower] and [qLower]
    are, the fragments spell the text, and every marked piece is cut from
    the text at a place where [lower] holds [qLower]. *)
Lemma highlight_loop_any (text lower qLower : str) (qlen : nat) :
  0 < qlen ->
  forall fuel i parts,
    length text <= i + fuel ->
    content_text parts = firstn i text ->
    Forall (fun m => exists hit,
                m = slice text hit (hit + qlen) /\
                slice lower hit (hit + length qLower) = qLower)
           (marks parts) ->
    let out := highlight_loop fuel text lower qLower qlen i parts in
    content_text out = text /\
    Forall (fun m => exists hit,
                m = slice text hit (hit + qlen) /\
                slice lower hit (hit + length qLower) = qLower)
           (marks out).
Proof.
  intros Hpos. cbv zeta.
  induction fuel as [|fuel IH]; intros i parts Hf Hp Hm.
  - simpl. rewrite Hp. split; [apply firstn_all2; lia|exact Hm].
  - simpl. destruct (i <? length text) eqn:Ei.
    + destruct (indexOfFrom qLower lower i) as [hit|] eqn:Eh.
      * pose proof (Search.indexOfFrom_bound _ _ _ _ Eh) as [Hb _].
        pose proof (indexOfFrom_stands _ _ _ _ Eh) as Hs.
        set (parts1 := if i <? hit then parts ++ [Text (slice text i hit)]
                       else parts).
        assert (H1 : content_text parts1 = firstn hit text).
        { unfold parts1. destruct (i <? hit) eqn:Eih.
          - rewrite content_text_app, Hp. simpl. rewrite app_nil_r.
            apply firstn_slice. lia.
          - apply Nat.ltb_ge in Eih. replace hit with i by lia. exact Hp. }
        assert (H2 : marks parts1 = marks parts).
        { unfold parts1. destruct (i <? hit); [|reflexivity].
          rewrite marks_app. simpl. apply app_nil_r. }
        apply IH; try lia.
        -- rewrite content_text_app, H1. simpl. rewrite app_nil_r.
           apply firstn_slice. lia.
        -- rewrite marks_app, H2. apply Forall_app. split; [exact Hm|].
           simpl. constructor; [|constructor].
           exists hit. split; [reflexivity|exact Hs].
      * rewrite content_text_app, marks_app, Hp. simpl.
        rewrite !app_nil_r. split; [apply firstn_skipn|exact Hm].
    + apply Nat.ltb_ge in Ei. rewrite Hp.
      split; [apply firstn_all2; lia|exact Hm].
Qed.

Lemma highlightText_text (text q : str) :
  content_text (highlightText text q) = text.
Proof.
  unfold highlightText. destruct q as [|c q]; cbn [truthy negb].
  - simpl. apply app_nil_r.
  - apply (highlight_loop_text text (toLowerCase (c :: q)) (length (c :: q)));
      try (simpl; lia); try reflexivity.
    + unfold toLowerCase. apply length_map.
    + constructor.
Qed.

Lemma annotate_text (g : Glossary) (term q : str) :
  node_text (annotate g term q) = term.
Proof.
  unfold annotate.
  destruct (map_get term (tooltipTerms g)) as [[|c d]|];
    try (destruct (map_get term (linkTerms g))); apply highlightText_text.
Qed.

(** The loop of [renderGlossaryText] for the pattern of a list of
    non-empty terms: it ends, and the nodes spell the text. *)
Lemma render_loop_text (g : Glossary) (terms : list str) (raw q : str) :
  (forall t, In t terms -> t <> []) ->
  forall fuel lastIndex nodes,
    lastIndex <= length raw -> length raw < lastIndex + fuel ->
    rendered_text nodes = firstn lastIndex raw ->
    exists out,
      render_loop fuel g (map term_pattern terms) raw q lastIndex nodes = Some out
      /\ rendered_text out = raw.
Proof.
  intros Hne. induction fuel as [|fuel IH]; intros lastIndex nodes Hl Hf Hn.
  - lia.
  - simpl. destruct (exec (map term_pattern terms) raw lastIndex)
      as [[start n]|] eqn:E.
    + destruct (exec_sound _ _ _ _ _ E) as (H1 & H2 & H3 & H4).
      assert (0 < n).
      { destruct (slice raw start (start + n)) as [|c s] eqn:Es.
        - destruct (Hne [] H3). reflexivity.
        - simpl in H4. lia. }
      apply IH; try lia.
      rewrite rendered_text_app. cbn [rendered_text flat_map].
      rewrite annotate_text, app_nil_r.
      assert (Hlead : rendered_text
                        (if lastIndex <? start
                         then nodes ++ [NText (highlightText
                                                 (slice raw lastIndex start) q)]
                         else nodes) = firstn start raw).
      { destruct (lastIndex <? start) eqn:El.
        - rewrite rendered_text_app, Hn. cbn [rendered_text flat_map node_text].
          rewrite highlightText_text, app_nil_r. apply firstn_slice. lia.
        - apply Nat.ltb_ge in El. replace start with lastIndex by lia.
          exact Hn. }
      rewrite Hlead. apply firstn_slice. lia.
    + eexists. split; [reflexivity|].
      destruct (lastIndex <? length raw) eqn:El.
      * rewrite rendered_text_app, Hn. cbn [rendered_text flat_map node_text].
        rewrite highlightText_text, app_nil_r. apply firstn_skipn.
      * apply Nat.ltb_ge in El. rewrite Hn. apply firstn_all2. lia.
Qed.

Lemma keyword_nodes_text (g : Glossary) (q : str)
      (resolve : str -> option Keywords.WeaponKeywordMatch) :
  forall parts idx count,
    existsb isNone (map resolve parts) = false ->
    count = idx + length parts ->
    rendered_text (keyword_nodes g q count idx (combine parts (map resolve parts)))
    = join (lit ", ") parts.
Proof.
  induction parts as [|p ps IH]; intros idx count Hall Hc; [reflexivity|].
  cbn [map existsb] in Hall. apply orb_false_iff in Hall.
  destruct Hall as [Hp Hps]. cbn [map combine keyword_nodes].
  destruct (resolve p) as [info|]; [|discriminate]. clear Hp.
  cbn [rendered_text flat_map node_text]. rewrite highlightText_text.
  fold (rendered_text (keyword_nodes g q count (idx + 1)
                         (combine ps (map resolve ps)))).
  rewrite (IH (idx + 1) count Hps) by (simpl in Hc; lia).
  destruct ps as [|p' ps].
  - simpl in Hc. replace (idx <? count - 1) with false
      by (symmetry; apply Nat.ltb_ge; lia).
    simpl. rewrite !app_nil_r. reflexivity.
  - simpl in Hc. replace (idx <? count - 1) with true
      by (symmetry; apply Nat.ltb_lt; lia).
    change (join (lit ", ") (p :: p' :: ps))
      with (p ++ lit ", " ++ join (lit ", ") (p' :: ps)).
    rewrite <- app_assoc. reflexivity.
Qed.

End AnnotatorFacts.

Section AnnotatorExtras.

Import Regex Glossary Annotator AnnotatorFacts.

(** X4. [highlightText] keeps the text: the fragments, read in order,
    spell the text they were made from; every marked fragment is cut from
    the text, in the length of the query, at a position where the
    lower-cased text holds the lower-cased query; with a non-empty query
    nothing is marked exactly when the lower-cased query does not occur in
    the lower-cased text; and the fragments spell the text whatever the
    two lower-cased strings are. *)
Theorem highlight_keeps_the_text :
  forall text q : str,
    content_text (highlightText text q) = text /\
    Forall (fun m => exists hit,
                m = slice text hit (hit + length q) /\
                slice (toLowerCase text) hit (hit + length (toLowerCase q))
                = toLowerCase q)
           (marks (highlightText text q)) /\
    (q <> [] ->
     (marks (highlightText text q) = []
      <-> includes (toLowerCase q) (toLowerCase text) = false)) /\
    (q <> [] ->
     forall lower qLower : str,
       content_text (highlight_loop (length text) text lower qLower
                                    (length q) 0 []) = text).
Proof.
  intros text q. split; [apply highlightText_text|].
  unfold highlightText. destruct q as [|c q]; cbn [truthy negb].
  - split; [constructor|]. split; intros H; contradiction.
  - split; [|split].
    + apply (highlight_loop_any text (toLowerCase text) (toLowerCase (c :: q))
                                (length (c :: q)));
        try (simpl; lia); try reflexivity. constructor.
    + intros _. destruct text as [|x text].
      * split; [reflexivity|]. intros _. reflexivity.
      * cbn [length highlight_loop]. cbn [Nat.ltb Nat.leb].
        unfold includes, indexOfFrom. cbn [skipn].
        destruct (indexOf (toLowerCase (c :: q)) (toLowerCase (x :: text)))
          as [h|] eqn:Eh; cbn [option_map].
        -- split; [|discriminate]. intros Hm. exfalso.
           match type of Hm with
           | marks (highlight_loop ?fu ?tx ?lo ?ql ?n ?i ?ps) = [] =>
               destruct (highlight_loop_marks tx lo ql n fu i ps) as [more Em]
           end.
           rewrite Em, marks_app in Hm. apply app_eq_nil in Hm.
           destruct Hm as [Hm _]. apply app_eq_nil in Hm.
           destruct Hm as [_ Hm]. discriminate Hm.
        -- split; [reflexivity|]. intros _. reflexivity.
    + intros _ lower qLower.
      apply (highlight_loop_any text lower qLower (length (c :: q)));
        try (simpl; lia); try reflexivity. constructor.
Qed.

(** X5. For every glossary that [buildGlossary] makes, [renderGlossaryText]
    ends on every text and with every query, and the nodes it makes, read
    in order, spell the text: annotation and highlighting add no character
    and lose none. *)
Theorem glossary_rendering_keeps_the_text :
  forall (docs : list RuleSection) (attrs skills : list (str * str))
         (kws : list Keywords.KeywordDef) (raw q : str),
    exists nodes,
      renderGlossaryText raw q (buildGlossary docs attrs skills kws) = Some nodes
      /\ rendered_text nodes = raw.
Proof.
  intros docs attrs skills kws raw q.
  pose proof (buildGlossary_fields docs attrs skills kws) as F.
  cbv zeta in F. destruct F as (_ & _ & F).
  unfold renderGlossaryText. rewrite F.
  destruct (glossary_terms _ _) as [|t terms] eqn:Et.
  - eexists. split; [reflexivity|]. cbn. rewrite highlightText_text.
    apply app_nil_r.
  - apply render_loop_text; try lia; [|reflexivity].
    intros t' Ht'. rewrite <- Et in Ht'.
    apply (glossary_terms_nonempty docs attrs skills kws t' Ht').
Qed.

(** X6. A keyword-table cell is rendered either as its own text, when it
    has no token or a token that does not resolve, or, when every token
    resolves, as its trimmed tokens joined by a comma and a space. *)
Theorem keyword_cell_text :
  forall (kws : list Keywords.KeywordDef) (text q : str) (g : Glossary),
    rendered_text (renderKeywordText kws text q g)
    = match Keywords.splitKeywordList text with
      | [] => text
      | parts =>
          if existsb isNone (map (Keywords.resolveWeaponKeyword kws) parts)
          then text
          else join (lit ", ") parts
      end.
Proof.
  intros kws text q g. unfold renderKeywordText.
  destruct (Keywords.splitKeywordList text) as [|p ps] eqn:Ep.
  - cbn. rewrite highlightText_text. apply app_nil_r.
  - destruct (existsb isNone _) eqn:E.
    + cbn. rewrite highlightText_text. apply app_nil_r.
    + apply keyword_nodes_text; [exact E|reflexivity].
Qed.

End AnnotatorExtras.

(** ** Slugs *)

Module SlugFacts.

(** The class [[^a-z0-9]]. *)
Definition notSlugChar (c : ascii) : bool := negb (isLowerAlnum c).

Lemma slugify_eq (v : str) :
  slugify v = strip_hyphens (hyphenate_runs notSlugChar false (toLowerCase v)).
Proof. reflexivity. Qed.

(** Lower-case letters, digits and single hyphens; [prev] tells that the
    character before is a hyphen. *)
Fixpoint slug_shaped (prev : bool) (s : str) : bool :=
  match s with
  | [] => true
  | c :: s' =>
      if isHyphen c then negb prev && slug_shaped true s'
      else isLowerAlnum c && slug_shaped false s'
  end.

Lemma hyphen_char (c : ascii) : isHyphen c = true -> c = ch 45.
Proof.
  unfold isHyphen, code. intros H. apply Nat.eqb_eq in H.
  rewrite <- (ascii_nat_embedding c), H. reflexivity.
Qed.

Lemma hyphen_notSlugChar (c : ascii) : isHyphen c = true -> notSlugChar c = true.
Proof. intros H. apply hyphen_char in H. subst c. reflexivity. Qed.

Lemma slugChar_not_hyphen (c : ascii) : notSlugChar c = false -> isHyphen c = false.
Proof.
  intros H. destruct (isHyphen c) eqn:E; [|reflexivity].
  apply hyphen_notSlugChar in E. congruence.
Qed.

Lemma hyphenate_shaped (s : str) :
  forall b, slug_shaped b (hyphenate_runs notSlugChar b s) = true.
Proof.
  induction s as [|c s IH]; intros b; [reflexivity|]. simpl.
  destruct (notSlugChar c) eqn:Ec.
  - destruct b; [apply IH|]. simpl. apply IH.
  - simpl. rewrite (slugChar_not_hyphen c Ec).
    unfold notSlugChar in Ec. apply negb_false_iff in Ec. rewrite Ec.
    apply IH.
Qed.

Lemma shaped_weaken (b : bool) (s : str) :
  slug_shaped b s = true -> slug_shaped false s = true.
Proof.
  destruct s as [|c s]; [reflexivity|]. simpl.
  destruct (isHyphen c); [|auto]. intros H.
  apply andb_true_iff in H. destruct H as [_ H]. simpl. exact H.
Qed.

Lemma shaped_drop_while (s : str) :
  forall b, slug_shaped b s = true ->
            slug_shaped false (drop_while isHyphen s) = true.
Proof.
  induction s as [|c s IH]; intros b H; [reflexivity|].
  simpl in *. destruct (isHyphen c) eqn:Ec.
  - apply andb_true_iff in H. destruct H as [_ H]. apply (IH _ H).
  - simpl. rewrite Ec. exact H.
Qed.

Lemma shaped_prefix (s t : str) :
  forall b, slug_shaped b (s ++ t) = true -> slug_shaped b s = true.
Proof.
  induction s as [|c s IH]; intros b H; [reflexivity|].
  simpl in *. destruct (isHyphen c).
  - apply andb_true_iff in H. destruct H as [H1 H2].
    rewrite H1. apply (IH _ H2).
  - apply andb_true_iff in H. destruct H as [H1 H2].
    rewrite H1. apply (IH _ H2).
Qed.

Lemma shaped_suffix (s t : str) :
  forall b, slug_shaped b (s ++ t) = true -> exists b', slug_shaped b' t = true.
Proof.
  induction s as [|c s IH]; intros b H; [exists b; exact H|].
  simpl in H. destruct (isHyphen c);
    apply andb_true_iff in H; destruct H as [_ H]; apply (IH _ H).
Qed.

(** What [rev (drop_while p (rev s))] leaves: a prefix of [s], with only
    characters of [p] cut off. *)
Lemma drop_end (p : ascii -> bool) (s : str) :
  exists tail, s = rev (drop_while p (rev s)) ++ tail /\ forallb p tail = true.
Proof.
  induction s as [|c s IH] using rev_ind.
  - exists []. split; reflexivity.
  - rewrite rev_app_distr. simpl. destruct (p c) eqn:Ec.
    + destruct IH as (tail & E & Ht). exists (tail ++ [c]). split.
      * rewrite app_assoc, <- E. reflexivity.
      * rewrite forallb_app, Ht. simpl. rewrite Ec. reflexivity.
    + exists []. split; [|reflexivity].
      simpl. rewrite rev_involutive, app_nil_r. reflexivity.
Qed.

Lemma drop_while_head (p : ascii -> bool) (s : str) (c : ascii) (r : str) :
  drop_while p s = c :: r -> p c = false.
Proof.
  induction s as [|x s IH]; simpl; [discriminate|].
  destruct (p x) eqn:Ex; [exact IH|]. intros E; inversion E; subst.
  exact Ex.
Qed.

Lemma drop_end_last (p : ascii -> bool) (s r : str) (c : ascii) :
  rev (drop_while p (rev s)) = r ++ [c] -> p c = false.
Proof.
  intros E. apply (f_equal (@rev ascii)) in E.
  rewrite rev_involutive, rev_app_distr in E. simpl in E.
  apply (drop_while_head _ _ _ _ E).
Qed.

Lemma drop_while_fixed (p : ascii -> bool) (s : str) :
  (forall c r, s = c :: r -> p c = false) -> drop_while p s = s.
Proof.
  destruct s as [|c s]; [reflexivity|]. intros H. simpl.
  rewrite (H c s eq_refl). reflexivity.
Qed.

Lemma drop_while_all (p : ascii -> bool) (a s : str) :
  forallb p a = true -> drop_while p (a ++ s) = drop_while p s.
Proof.
  induction a as [|c a IH]; [reflexivity|]. simpl.
  rewrite andb_true_iff. intros [Hc Ha]. rewrite Hc. apply IH, Ha.
Qed.

Lemma slugify_shaped (v : str) : slug_shaped false (slugify v) = true.
Proof.
  rewrite slugify_eq. unfold strip_hyphens.
  set (H := hyphenate_runs notSlugChar false (toLowerCase v)).
  destruct (drop_end isHyphen (drop_while isHyphen H)) as (tail & E & _).
  apply (shaped_prefix _ tail). rewrite <- E.
  apply (shaped_drop_while H false), hyphenate_shaped.
Qed.

Lemma slugify_head (v : str) (c : ascii) (r : str) :
  slugify v = c :: r -> isHyphen c = false.
Proof.
  rewrite slugify_eq. unfold strip_hyphens.
  set (H := hyphenate_runs notSlugChar false (toLowerCase v)).
  destruct (drop_end isHyphen (drop_while isHyphen H)) as (tail & E & _).
  intros Es. rewrite Es in E. simpl in E.
  apply (drop_while_head _ _ _ _ E).
Qed.

Lemma slugify_last (v r : str) (c : ascii) :
  slugify v = r ++ [c] -> isHyphen c = false.
Proof. rewrite slugify_eq. unfold strip_hyphens. apply drop_end_last. Qed.

Lemma shaped_alphabet (s : str) :
  forall b, slug_shaped b s = true ->
            forallb (fun c => isLowerAlnum c || isHyphen c) s = true.
Proof.
  induction s as [|c s IH]; intros b H; [reflexivity|]. simpl in *.
  destruct (isHyphen c); apply andb_true_iff in H; destruct H as [H1 H2].
  - rewrite orb_true_r. apply (IH _ H2).
  - rewrite H1. apply (IH _ H2).
Qed.

Lemma shaped_lower (s : str) :
  forall b, slug_shaped b s = true -> toLowerCase s = s.
Proof.
  induction s as [|c s IH]; intros b H; [reflexivity|]. simpl in *.
  assert (Hc : lower_char c = c /\ exists b', slug_shaped b' s = true).
  { destruct (isHyphen c) eqn:Ec; apply andb_true_iff in H;
      destruct H as [H1 H2].
    - apply hyphen_char in Ec. subst c. split; [reflexivity|eauto].
    - split; [|eauto]. clear - H1.
      destruct c as [[] [] [] [] [] [] [] []]; try discriminate H1;
        reflexivity. }
  destruct Hc as [Hc [b' Hs]]. rewrite Hc, (IH _ Hs). reflexivity.
Qed.

Lemma shaped_hyphenate (s : str) :
  forall b, slug_shaped b s = true -> hyphenate_runs notSlugChar b s = s.
Proof.
  induction s as [|c s IH]; intros b H; [reflexivity|]. simpl in *.
  destruct (isHyphen c) eqn:Ec; apply andb_true_iff in H;
    destruct H as [H1 H2].
  - rewrite (hyphen_notSlugChar c Ec). destruct b; [discriminate|].
    rewrite (IH _ H2), <- (hyphen_char c Ec). reflexivity.
  - unfold notSlugChar at 1. rewrite H1. simpl. rewrite (IH _ H2).
    reflexivity.
Qed.

(** ** White space around the text does not reach the slug *)

Lemma space_notSlugChar (c : ascii) :
  isSpace c = true -> notSlugChar (lower_char c) = true.
Proof.
  destruct c as [[] [] [] [] [] [] [] []]; intros H; try discriminate H;
    reflexivity.
Qed.

Lemma trimStart_split (s : str) :
  exists a, s = a ++ trimStart s /\ forallb isSpace a = true.
Proof.
  induction s as [|c s IH]; [exists []; split; reflexivity|].
  simpl. destruct (isSpace c) eqn:Ec.
  - destruct IH as (a & E & Ha). exists (c :: a). split.
    + simpl. rewrite <- E. reflexivity.
    + simpl. rewrite Ec. exact Ha.
  - exists []. split; reflexivity.
Qed.

Lemma trimStart_drop (s : str) : trimStart s = drop_while isSpace s.
Proof.
  induction s as [|c s IH]; [reflexivity|]. simpl. rewrite IH. reflexivity.
Qed.

Lemma trim_split (s : str) :
  exists a z, s = a ++ trim s ++ z /\
              forallb isSpace a = true /\ forallb isSpace z = true.
Proof.
  destruct (trimStart_split s) as (a & Ea & Ha).
  unfold trim, trimEnd. rewrite trimStart_drop in Ea.
  rewrite (trimStart_drop s), (trimStart_drop (rev (drop_while isSpace s))).
  destruct (drop_end isSpace (drop_while isSpace s)) as (z & Ez & Hz).
  exists a, z. split; [|split; assumption].
  rewrite <- Ez. exact Ea.
Qed.

Lemma hyphenate_lead (a s : str) :
  forallb notSlugChar a = true ->
  forall b,
    drop_while isHyphen (hyphenate_runs notSlugChar b (a ++ s))
    = drop_while isHyphen (hyphenate_runs notSlugChar false s).
Proof.
  intros Ha. revert Ha. induction a as [|c a IH]; intros Ha b.
  - simpl. destruct s as [|d s]; [reflexivity|]. simpl.
    destruct (notSlugChar d) eqn:Ed; [|reflexivity].
    destruct b; reflexivity.
  - simpl in Ha. apply andb_true_iff in Ha. destruct Ha as [Hc Ha].
    simpl. rewrite Hc. destruct b; [apply (IH Ha)|].
    simpl. apply (IH Ha).
Qed.

Lemma hyphenate_trail (s z : str) :
  forallb notSlugChar z = true ->
  forall b,
    exists h, hyphenate_runs notSlugChar b (s ++ z)
              = hyphenate_runs notSlugChar b s ++ h
              /\ forallb isHyphen h = true.
Proof.
  intros Hz. induction s as [|c s IH]; intros b.
  - simpl. clear - Hz. revert b. induction z as [|d z IHz]; intros b.
    + exists []. split; reflexivity.
    + simpl in Hz. apply andb_true_iff in Hz. destruct Hz as [Hd Hz].
      simpl. rewrite Hd. destruct (IHz Hz true) as (h & E & Hh).
      simpl in E. destruct b.
      * exists h. split; assumption.
      * exists (ch 45 :: h). split; [rewrite E; reflexivity|].
        simpl. exact Hh.
  - simpl. destruct (notSlugChar c).
    + destruct b.
      * apply IH.
      * destruct (IH true) as (h & E & Hh). exists h.
        split; [rewrite E; reflexivity|exact Hh].
    + destruct (IH false) as (h & E & Hh). exists h.
      split; [rewrite E; reflexivity|exact Hh].
Qed.

Lemma drop_while_app_all (p : ascii -> bool) (x h : str) :
  forallb p h = true ->
  exists h', drop_while p (x ++ h) = drop_while p x ++ h'
             /\ forallb p h' = true.
Proof.
  intros Hh. induction x as [|c x IH].
  - simpl. exists []. split; [|reflexivity].
    rewrite <- (app_nil_r h), drop_while_all by exact Hh. reflexivity.
  - simpl. destruct (p c); [exact IH|]. exists h. split; [reflexivity|exact Hh].
Qed.

Lemma strip_hyphens_trail (x h : str) :
  forallb isHyphen h = true -> strip_hyphens (x ++ h) = strip_hyphens x.
Proof.
  intros Hh. unfold strip_hyphens.
  destruct (drop_while_app_all isHyphen x h Hh) as (h' & E & Hh').
  rewrite E, rev_app_distr, drop_while_all; [reflexivity|].
  rewrite forallb_forall in *. intros c Hc. apply Hh'.
  apply in_rev. exact Hc.
Qed.

Lemma slugify_trim (s : str) : slugify (trim s) = slugify s.
Proof.
  destruct (trim_split s) as (a & z & E & Ha & Hz).
  rewrite (slugify_eq s). rewrite E at 2.
  unfold toLowerCase. rewrite !map_app.
  assert (Ha' : forallb notSlugChar (map lower_char a) = true).
  { rewrite forallb_forall in *. intros c Hc. apply in_map_iff in Hc.
    destruct Hc as (c0 & <- & Hc0). apply space_notSlugChar, Ha, Hc0. }
  assert (Hz' : forallb notSlugChar (map lower_char z) = true).
  { rewrite forallb_forall in *. intros c Hc. apply in_map_iff in Hc.
    destruct Hc as (c0 & <- & Hc0). apply space_notSlugChar, Hz, Hc0. }
  unfold strip_hyphens at 1. rewrite (hyphenate_lead _ _ Ha').
  destruct (hyphenate_trail (map lower_char (trim s)) _ Hz' false)
    as (h & Eh & Hh).
  rewrite Eh. fold (strip_hyphens (hyphenate_runs notSlugChar false
                                     (map lower_char (trim s)) ++ h)).
  rewrite (strip_hyphens_trail _ _ Hh). reflexivity.
Qed.

End SlugFacts.

Section SlugExtras.

Import SlugFacts.

(** X7. A slug is made of lower-case letters, digits and hyphens; it
    neither begins nor ends with a hyphen, and no two hyphens stand side by
    side. *)
Theorem slug_shape :
  forall v : str,
    forallb (fun c => isLowerAlnum c || isHyphen c) (slugify v) = true /\
    (forall c r, slugify v = c :: r -> isHyphen c = false) /\
    (forall r c, slugify v = r ++ [c] -> isHyphen c = false) /\
    (forall a c d b, slugify v = a ++ c :: d :: b ->
                     isHyphen c && isHyphen d = false).
Proof.
  intros v. pose proof (slugify_shaped v) as H.
  split; [apply (shaped_alphabet _ _ H)|].
  split; [apply slugify_head|]. split; [apply slugify_last|].
  intros a c d b E. rewrite E in H.
  destruct (shaped_suffix _ _ _ H) as [b' Hs]. simpl in Hs.
  destruct (isHyphen c); [|reflexivity].
  apply andb_true_iff in Hs. destruct Hs as [_ Hs].
  destruct (isHyphen d); [discriminate Hs|reflexivity].
Qed.

(** X8. Making a slug of a slug changes nothing, and white space around
    the text does not reach the slug. *)
Theorem slug_idempotent :
  forall v : str,
    slugify (slugify v) = slugify v /\ slugify (trim v) = slugify v.
Proof.
  intros v. split; [|apply slugify_trim].
  pose proof (slugify_shaped v) as H.
  rewrite (slugify_eq (slugify v)).
  rewrite (shaped_lower _ _ H), (shaped_hyphenate _ _ H).
  unfold strip_hyphens.
  rewrite (drop_while_fixed isHyphen (slugify v) (slugify_head v)).
  destruct (rev (slugify v)) as [|c r] eqn:E.
  - simpl. apply (f_equal (@rev ascii)) in E. rewrite rev_involutive in E.
    symmetry. exact E.
  - assert (Es : slugify v = rev r ++ [c]).
    { apply (f_equal (@rev ascii)) in E. rewrite rev_involutive in E.
      exact E. }
    simpl. rewrite (slugify_last v _ _ Es). simpl. symmetry. exact Es.
Qed.

End SlugExtras.

(** ** Weapon keywords *)

Module KeywordFacts.

Import Regex Keywords SlugFacts.

(** *** Trimming *)

Lemma trim_eq (s : str) :
  trim s = rev (drop_while isSpace (rev (drop_while isSpace s))).
Proof.
  unfold trim, trimEnd.
  rewrite (trimStart_drop s), (trimStart_drop (rev (drop_while isSpace s))).
  reflexivity.
Qed.

Lemma strip_head (p : ascii -> bool) (s : str) (c : ascii) (r : str) :
  rev (drop_while p (rev (drop_while p s))) = c :: r -> p c = false.
Proof.
  destruct (drop_end p (drop_while p s)) as (tail & E & _).
  intros Es. rewrite Es in E. simpl in E. apply (drop_while_head _ _ _ _ E).
Qed.

Lemma strip_fixed (p : ascii -> bool) (s : str) :
  (forall c r, s = c :: r -> p c = false) ->
  (forall r c, s = r ++ [c] -> p c = false) ->
  rev (drop_while p (rev (drop_while p s))) = s.
Proof.
  intros Hh Hl. rewrite (drop_while_fixed p s Hh).
  destruct (rev s) as [|c r] eqn:E.
  - simpl. apply (f_equal (@rev ascii)) in E. rewrite rev_involutive in E.
    symmetry. exact E.
  - assert (Es : s = rev r ++ [c]).
    { apply (f_equal (@rev ascii)) in E. rewrite rev_involutive in E.
      exact E. }
    simpl. rewrite (Hl _ _ Es). simpl. symmetry. exact Es.
Qed.

Lemma trim_head (s : str) (c : ascii) (r : str) :
  trim s = c :: r -> isSpace c = false.
Proof. rewrite trim_eq. apply strip_head. Qed.

Lemma trim_last (s r : str) (c : ascii) :
  trim s = r ++ [c] -> isSpace c = false.
Proof. rewrite trim_eq. apply drop_end_last. Qed.

Lemma trim_fixed (s : str) :
  (forall c r, s = c :: r -> isSpace c = false) ->
  (forall r c, s = r ++ [c] -> isSpace c = false) ->
  trim s = s.
Proof. rewrite trim_eq. apply strip_fixed. Qed.

Lemma trim_idem (s : str) : trim (trim s) = trim s.
Proof. apply trim_fixed; [apply trim_head|apply trim_last]. Qed.

(** White space before the text does not reach the trimmed text. *)
Lemma trim_lead (sp s : str) :
  forallb isSpace sp = true -> trim (sp ++ s) = trim s.
Proof.
  intros H. rewrite !trim_eq, (drop_while_all isSpace sp s H). reflexivity.
Qed.

(** *** Resolution *)

Lemma resolve_trim (kws : list KeywordDef) (keyword : str) :
  resolveWeaponKeyword kws (trim keyword) = resolveWeaponKeyword kws keyword.
Proof. unfold resolveWeaponKeyword. rewrite trim_idem. reflexivity. Qed.

Lemma matchers_In (kws : list KeywordDef) (def : KeywordMatcher) :
  In def (KEYWORD_MATCHERS kws) ->
  exists k, In k kws /\
            km_description def = kw_description k /\
            km_regex def = fst (buildMatcher (kw_name k)) /\
            km_hasParam def = snd (buildMatcher (kw_name k)).
Proof.
  unfold KEYWORD_MATCHERS. intros H. apply in_map_iff in H.
  destruct H as (k & E & Hk). exists k. split; [exact Hk|].
  destruct (buildMatcher (kw_name k)) as [regex hasParam]. subst def.
  repeat split.
Qed.

Lemma resolved_anchor (kws : list KeywordDef) (keyword : str)
                      (r : WeaponKeywordMatch) :
  resolveWeaponKeyword kws keyword = Some r ->
  anchor r = if truthy (slugify keyword)
             then lit "weapon-keyword-" ++ slugify keyword
             else KEYWORD_ANCHOR.
Proof.
  unfold resolveWeaponKeyword. cbv zeta.
  destruct (negb (truthy (trim keyword))); [discriminate|]. intros H.
  apply resolve_in_first in H.
  destruct H as (before & def & after & _ & _ & Hr).
  unfold resolve_with in Hr.
  destruct (regex_match (km_regex def) (trim keyword)); [|discriminate Hr].
  inversion Hr. cbn [anchor]. rewrite slugify_trim. reflexivity.
Qed.

(** *** Literal names *)


End KeywordFacts.

(** Example table of keyword definitions. *)
Definition sample_keywords : list Keywords.KeywordDef :=
  [Keywords.mkKeyword (lit "Burst (X)") (lit "Fires X rounds at once.");
   Keywords.mkKeyword (lit "Reach X") (lit "Strikes at X metres.");
   Keywords.mkKeyword (lit "Silent") (lit "Makes no sound.")].

Section KeywordExtras.

Import Regex Keywords SlugFacts KeywordFacts.

(** X9. A resolved keyword carries the trimmed input as its label, which
    is not empty; its anchor is [weapon-keyword-] followed by the slug of
    the input, or the general anchor when that slug is empty; its
    description comes from a definition of the table whose pattern matches
    the label; and resolving the label again gives the same result. *)
Theorem resolved_keyword_label_and_anchor :
  forall (kws : list KeywordDef) (keyword : str) (r : WeaponKeywordMatch),
    resolveWeaponKeyword kws keyword = Some r ->
    label r = trim keyword /\ label r <> [] /\
    anchor r = (if truthy (slugify keyword)
                then lit "weapon-keyword-" ++ slugify keyword
                else KEYWORD_ANCHOR) /\
    (exists k, In k kws /\
               regex_match (fst (buildMatcher (kw_name k))) (label r) <> None /\
               (snd (buildMatcher (kw_name k)) = false ->
                description r = kw_description k)) /\
    resolveWeaponKeyword kws (label r) = Some r.
Proof.
  intros kws keyword r H.
  assert (Hl : label r = trim keyword /\ trim keyword <> [] /\
               resolve_in (KEYWORD_MATCHERS kws) (trim keyword)
                          (slugify (trim keyword)) = Some r).
  { unfold resolveWeaponKeyword in H. cbv zeta in H.
    destruct (trim keyword) as [|c t] eqn:Et; [discriminate H|].
    cbn [truthy negb] in H. split; [|split; [discriminate|exact H]].
    apply resolve_in_first in H.
    destruct H as (before & def & after & _ & _ & Hr).
    unfold resolve_with in Hr.
    destruct (regex_match (km_regex def) (c :: t)); [|discriminate Hr].
    inversion Hr. reflexivity. }
  destruct Hl as (Hl & Hne & Hr). rewrite Hl.
  split; [reflexivity|]. split; [exact Hne|].
  apply resolve_in_first in Hr.
  destruct Hr as (before & def & after & Em & _ & Hr).
  split; [|split].
  - unfold resolve_with in Hr.
    destruct (regex_match (km_regex def) (trim keyword)); [|discriminate Hr].
    inversion Hr. cbn [anchor]. rewrite slugify_trim. reflexivity.
  - assert (Hin : In def (KEYWORD_MATCHERS kws))
      by (rewrite Em; apply in_elt).
    destruct (matchers_In kws def Hin) as (k & Hk & Ed & Ex & Ep).
    exists k. split; [exact Hk|].
    destruct (resolve_with_description def _ _ r Hr) as (g & Eg & Hd & _).
    rewrite <- Ex, <- Ep, <- Ed. split; [congruence|exact Hd].
  - rewrite resolve_trim. exact H.
Qed.

Lemma resolved_keyword_label_and_anchor_witness :
  exists r, resolveWeaponKeyword sample_keywords (lit "  Reach 3 ") = Some r /\
            label r = lit "Reach 3" /\
            anchor r = lit "weapon-keyword-reach-3".
Proof.
  destruct (resolveWeaponKeyword sample_keywords (lit "  Reach 3 "))
    as [r|] eqn:E; [|vm_compute in E; discriminate E].
  exists r. split; [reflexivity|].
  destruct (resolved_keyword_label_and_anchor sample_keywords
              (lit "  Reach 3 ") r E) as (Hl & _ & Ha & _).
  split; [rewrite Hl|rewrite Ha]; vm_compute; reflexivity.
Defined.



End KeywordExtras.

(** ** Names with a parameter *)

Module CaptureFacts.

Import Regex Keywords SlugFacts KeywordFacts.


















End CaptureFacts.

Section ParameterExtras.

Import Regex Keywords SlugFacts KeywordFacts CaptureFacts.





End ParameterExtras.

(** ** Lists of keywords *)

Module SplitFacts.

Import Keywords SlugFacts KeywordFacts.

Lemma split_on_not_nil (sep : ascii) (s : str) : split_on sep s <> [].
Proof.
  destruct s as [|c s]; simpl; [discriminate|].
  destruct (Ascii.eqb c sep); [discriminate|].
  destruct (split_on sep s); discriminate.
Qed.

Lemma split_on_free (sep : ascii) (s : str) :
  Forall (fun w => ~ In sep w) (split_on sep s).
Proof.
  induction s as [|c s IH]; simpl.
  - constructor; [intros []|constructor].
  - destruct (Ascii.eqb c sep) eqn:E.
    + constructor; [intros []|exact IH].
    + apply Ascii.eqb_neq in E. destruct (split_on sep s) as [|w ws].
      * constructor; [|constructor]. intros [H|[]]. congruence.
      * inversion IH; subst. constructor; [|assumption].
        intros [H|H]; [congruence|contradiction].
Qed.

Lemma split_on_whole (sep : ascii) (w : str) :
  ~ In sep w -> split_on sep w = [w].
Proof.
  induction w as [|c w IH]; intros H; [reflexivity|]. simpl.
  assert (Hc : Ascii.eqb c sep = false)
    by (apply Ascii.eqb_neq; intros ->; apply H; left; reflexivity).
  rewrite Hc, IH; [reflexivity|]. intros Hw. apply H. right. exact Hw.
Qed.

Lemma split_on_app (sep : ascii) (w rest : str) :
  ~ In sep w -> split_on sep (w ++ sep :: rest) = w :: split_on sep rest.
Proof.
  induction w as [|c w IH]; intros H; simpl.
  - rewrite Ascii.eqb_refl. reflexivity.
  - assert (Hc : Ascii.eqb c sep = false)
      by (apply Ascii.eqb_neq; intros ->; apply H; left; reflexivity).
    rewrite Hc, IH; [reflexivity|]. intros Hw. apply H. right. exact Hw.
Qed.

Lemma split_on_space (sep c : ascii) (s : str) :
  isSpace c = true -> c <> sep ->
  map trim (split_on sep (c :: s)) = map trim (split_on sep s).
Proof.
  intros Hc Hn. simpl. apply Ascii.eqb_neq in Hn. rewrite Hn.
  pose proof (split_on_not_nil sep s) as Hs.
  destruct (split_on sep s) as [|w ws]; [contradiction|]. simpl.
  f_equal. apply (trim_lead [c] w). simpl. rewrite Hc. reflexivity.
Qed.

Lemma trim_In (s : str) (c : ascii) : In c (trim s) -> In c s.
Proof.
  destruct (trim_split s) as (a & z & E & _). intros H. rewrite E.
  apply in_or_app. right. apply in_or_app. left. exact H.
Qed.

(** A token: not empty, trimmed, without comma. *)
Definition token (p : str) : Prop :=
  p <> [] /\ trim p = p /\ ~ In (ch 44) p.

Lemma split_tokens (text : str) : Forall token (splitKeywordList text).
Proof.
  unfold splitKeywordList. apply Forall_forall. intros p Hp.
  apply filter_In in Hp. destruct Hp as [Hp Ht].
  apply in_map_iff in Hp. destruct Hp as (w & <- & Hw).
  pose proof (split_on_free (ch 44) text) as Hf.
  rewrite Forall_forall in Hf. repeat split.
  - intros E. rewrite E in Ht. discriminate Ht.
  - apply trim_idem.
  - intros Hc. apply (Hf w Hw). apply trim_In, Hc.
Qed.

Lemma split_join (ps : list str) :
  Forall token ps -> splitKeywordList (join (lit ", ") ps) = ps.
Proof.
  unfold splitKeywordList. induction ps as [|p ps IH]; intros H;
    [reflexivity|].
  inversion H as [|p0 ps0 (Hne & Ht & Hc) Hps]; subst.
  assert (Hp : filter truthy [trim p] = [p]).
  { rewrite Ht. destruct p; [contradiction|reflexivity]. }
  destruct ps as [|q ps].
  - cbn [join]. rewrite (split_on_whole _ _ Hc). exact Hp.
  - change (join (lit ", ") (p :: q :: ps))
      with (p ++ ch 44 :: ch 32 :: join (lit ", ") (q :: ps)).
    rewrite (split_on_app _ _ _ Hc). cbn [map].
    rewrite split_on_space by (reflexivity || discriminate).
    rewrite Ht. destruct p as [|c p]; [contradiction|].
    cbn [filter truthy]. f_equal. apply (IH Hps).
Qed.

End SplitFacts.

Section SplitExtras.

Import Keywords SlugFacts KeywordFacts SplitFacts.

(** X13. The parts of a keyword list are not empty, carry no white space
    at either end and hold no comma; joined by a comma and a space, as a
    resolved keyword cell shows them, they split into the same parts. *)
Theorem keyword_list_parts :
  forall text : str,
    Forall (fun p => p <> [] /\ trim p = p /\ ~ In (ch 44) p)
           (splitKeywordList text) /\
    splitKeywordList (join (lit ", ") (splitKeywordList text))
    = splitKeywordList text.
Proof.
  intros text. split; [apply split_tokens|apply split_join, split_tokens].
Qed.

End SplitExtras.

(** ** Duplicate paragraphs after a table *)

Module NormalizerFacts.

Import Normalizer.

(** The block [next] is a paragraph that repeats the first text of the
    table [b]. *)
Definition repeats_first_text (b next : RuleBlock) : bool :=
  match b, next with
  | Table rows, Paragraph text _ =>
      match tableTexts rows with
      | t :: _ => Str.eqb text t
      | [] => false
      end
  | _, _ => false
  end.

(** Some table of [blocks] is directly followed by such a paragraph. *)
Fixpoint has_repeat (blocks : list RuleBlock) : bool :=
  match blocks with
  | b :: rest =>
      match rest with
      | next :: _ => repeats_first_text b next || has_repeat rest
      | [] => false
      end
  | [] => false
  end.

(** The number of texts of a table, and of the tables of a content. *)
Definition text_count (b : RuleBlock) : nat :=
  match b with
  | Table rows => length (tableTexts rows)
  | _ => 0
  end.

Definition total_texts (blocks : list RuleBlock) : nat :=
  list_sum (map text_count blocks).

Lemma skip_after_zero (b : RuleBlock) (rest : list RuleBlock) :
  skip_after b rest = 0
  <-> match rest with
      | next :: _ => repeats_first_text b next = false
      | [] => True
      end.
Proof.
  destruct b as [t sp|o it|rows]; simpl.
  - destruct rest; intuition.
  - destruct rest; intuition.
  - destruct (tableTexts rows) as [|t texts]; simpl.
    + destruct rest as [|[] rest]; intuition.
    + destruct rest as [|[text sp|o it|rows'] rest]; simpl;
        try (intuition; fail).
      destruct (Str.eqb text t); intuition; discriminate.
Qed.

Lemma dup_count_texts (texts : list str) (rest : list RuleBlock) :
  dup_count texts rest <= length texts.
Proof.
  revert rest; induction texts as [|t texts IH]; intros [|b rest]; simpl;
    try lia.
  destruct b; try lia. destruct (Str.eqb text t); [|lia].
  specialize (IH rest). lia.
Qed.

Lemma skip_after_texts (b : RuleBlock) (rest : list RuleBlock) :
  skip_after b rest <= text_count b.
Proof. destruct b; simpl; try lia. apply dup_count_texts. Qed.

Lemma drops_length (out inp : list RuleBlock) :
  DropsParagraphs out inp -> length out <= length inp.
Proof. induction 1; simpl; lia. Qed.

Lemma normalizeContent_length (c : list RuleBlock) :
  length (normalizeContent c) <= length c.
Proof. apply drops_length, normalizeContent_drops. Qed.

Lemma total_texts_skipn (n : nat) (c : list RuleBlock) :
  total_texts (skipn n c) <= total_texts c.
Proof.
  revert c; induction n as [|n IH]; intros [|b c]; simpl; try lia.
  unfold total_texts in *. simpl. specialize (IH c). lia.
Qed.

Lemma removed_bound (n : nat) :
  forall c, length c <= n ->
            length c <= length (normalizeContent c) + total_texts c.
Proof.
  induction n as [|n IH]; intros c Hn.
  - destruct c; [simpl; lia|simpl in Hn; lia].
  - destruct c as [|b rest]; [simpl; lia|].
    rewrite normalizeContent_cons.
    pose proof (skip_after_le b rest) as Hle.
    pose proof (skip_after_texts b rest) as Ht.
    pose proof (total_texts_skipn (skip_after b rest) rest) as Hs.
    assert (Hr : length (skipn (skip_after b rest) rest) <= n)
      by (rewrite length_skipn; simpl in Hn; lia).
    specialize (IH _ Hr). rewrite length_skipn in IH.
    unfold total_texts in *. simpl. lia.
Qed.

End NormalizerFacts.

Section NormalizerExtras.

Import Normalizer NormalizerFacts.

(** X14. Normalization returns the content unchanged exactly when no table
    is directly followed by a paragraph that repeats the first of its
    non-empty cell texts. *)
Theorem normalize_identity_iff :
  forall blocks : list RuleBlock,
    normalizeContent blocks = blocks <-> has_repeat blocks = false.
Proof.
  induction blocks as [|b rest IH]; [split; reflexivity|].
  rewrite normalizeContent_cons. split.
  - intros H. injection H as Hr.
    assert (Hk : skip_after b rest = 0).
    { pose proof (normalizeContent_length (skipn (skip_after b rest) rest)) as Hl.
      rewrite Hr, length_skipn in Hl.
      pose proof (skip_after_le b rest). lia. }
    rewrite Hk in Hr. simpl in Hr. apply IH in Hr.
    apply skip_after_zero in Hk. cbn [has_repeat].
    destruct rest as [|next rest']; [reflexivity|].
    rewrite Hk. exact Hr.
  - intros H. cbn [has_repeat] in H.
    assert (Hk : skip_after b rest = 0).
    { apply skip_after_zero. destruct rest as [|next rest']; [exact I|].
      apply orb_false_iff in H. apply H. }
    assert (Hr : has_repeat rest = false).
    { destruct rest as [|next rest']; [reflexivity|].
      apply orb_false_iff in H. apply H. }
    rewrite Hk. simpl. f_equal. apply IH, Hr.
Qed.

(** X15. Normalization removes at most as many blocks as the tables of the
    content have non-empty cell texts. *)
Theorem normalize_removes_at_most_the_texts :
  forall blocks : list RuleBlock,
    length (normalizeContent blocks) <= length blocks /\
    length blocks <= length (normalizeContent blocks) + total_texts blocks.
Proof.
  intros blocks. split.
  - apply normalizeContent_length.
  - apply (removed_bound (length blocks)). lia.
Qed.

End NormalizerExtras.

(** ** Headings and link terms *)

Module HeadingFacts.

Import Regex Glossary SlugFacts KeywordFacts.

Lemma lower_length_eq (s : str) : length (toLowerCase s) = length s.
Proof. apply length_map. Qed.

Lemma blacklist_short (t : str) :
  mem (toLowerCase t) blacklist = true -> length t <= 3.
Proof.
  unfold mem. intros H. apply existsb_exists in H.
  destruct H as (w & Hw & E). apply Str.eqb_spec in E.
  rewrite <- (lower_length_eq t), E.
  unfold blacklist in Hw. simpl in Hw.
  repeat (destruct Hw as [<-|Hw]; [simpl; lia|]). contradiction.
Qed.

Lemma heading_title_length (s : RuleSection) :
  heading_title s
  = if length (trim (title s)) <? 4 then None else Some (trim (title s)).
Proof.
  unfold heading_title. cbv zeta.
  destruct (length (trim (title s)) <? 4) eqn:E.
  - rewrite orb_true_r. reflexivity.
  - apply Nat.ltb_ge in E.
    destruct (trim (title s)) as [|c r] eqn:Et; [simpl in E; lia|].
    cbn [truthy negb orb].
    destruct (mem (toLowerCase (c :: r)) blacklist) eqn:Eb; [|reflexivity].
    apply blacklist_short in Eb. lia.
Qed.

Lemma heading_group_In (docs : list RuleSection) (t : str) (c : Candidate) :
  In c (heading_group docs t) ->
  exists doc sec,
    In doc docs /\ In sec (preorder doc 0) /\
    heading_title sec = Some t /\
    c = heading_candidate (getSectionId doc) sec.
Proof.
  unfold heading_group. intros H. apply in_map_iff in H.
  destruct H as ([t' c'] & Ec & H). simpl in Ec. subst c'.
  apply filter_In in H. destruct H as [H Et]. simpl in Et.
  apply Str.eqb_spec in Et. subst t'.
  unfold headings in H. apply in_flat_map in H.
  destruct H as (doc & Hdoc & H). unfold doc_headings in H.
  apply in_flat_map in H. destruct H as (sec & Hsec & H).
  unfold section_heading in H.
  destruct (heading_title sec) as [t'|] eqn:Eh; [|contradiction].
  destruct H as [H|[]]. inversion H; subst.
  exists doc, sec. repeat split; assumption.
Qed.

Lemma resolve_group_some (group : list Candidate) (link : LinkTerm) :
  resolve_group group = Some link ->
  exists chosen,
    In chosen group /\
    link_id link = cand_id chosen /\ link_docSlug link = cand_docSlug chosen /\
    1 <= sameLevelCount link <= length group.
Proof.
  unfold resolve_group. destruct group as [|first others]; [discriminate|].
  pose proof (filter_length_le
                (fun c => cand_depth c =? min_depth first others)
                (first :: others)) as Hl.
  destruct (filter _ (first :: others)) as [|chosen later] eqn:F;
    [discriminate|].
  intros E. inversion E; subst link. exists chosen. cbn.
  assert (Hc : In chosen (filter (fun c => cand_depth c =? min_depth first others)
                                 (first :: others)))
    by (rewrite F; left; reflexivity).
  apply filter_In in Hc. destruct Hc as [Hc _].
  repeat split; try assumption; simpl in *; lia.
Qed.

Lemma link_heading (docs : list RuleSection) (t : str) (link : LinkTerm) :
  map_get t (fst (buildAnchorMaps docs)) = Some link ->
  4 <= length t /\ trim t = t /\
  1 <= sameLevelCount link <= length (heading_group docs t) /\
  exists doc sec,
    In doc docs /\ In sec (preorder doc 0) /\
    trim (title sec) = t /\
    link_id link = getSectionId sec /\
    link_docSlug link = getSectionId doc.
Proof.
  intros H. rewrite buildAnchorMaps_linkTerms in H.
  assert (Hr : resolve_group (heading_group docs t) = Some link)
    by (destruct (heading_group docs t); [discriminate H|exact H]).
  destruct (resolve_group_some _ _ Hr) as (chosen & Hin & Eid & Edoc & Hn).
  destruct (heading_group_In _ _ _ Hin) as (doc & sec & Hdoc & Hsec & Ht & Ec).
  rewrite heading_title_length in Ht.
  destruct (length (trim (title sec)) <? 4) eqn:El; [discriminate Ht|].
  inversion Ht as [Et]. apply Nat.ltb_ge in El.
  split; [exact El|]. split; [apply trim_idem|]. split; [rewrite Et; exact Hn|].
  exists doc, sec. rewrite Et. repeat split; try assumption.
  - rewrite Eid, Ec. reflexivity.
  - rewrite Edoc, Ec. reflexivity.
Qed.

End HeadingFacts.

(** Example documents: two documents with a section of the same title. *)
Definition sample_docs : list RuleSection :=
  [mkSection (lit "Combat") (Some (lit "combat")) None None
     (Some [mkSection (lit " Resistances ") None None None None None]) None;
   mkSection (lit "Gear") None None None
     (Some [mkSection (lit "Resistances") (Some (lit "gear-res")) None None
              None None]) None].

Section HeadingExtras.

Import Regex Glossary SlugFacts KeywordFacts HeadingFacts.

(** X16. The word list never excludes a heading: every listed word is
    shorter than four characters, so a section is filed under its trimmed
    title exactly when that title has four characters or more. *)
Theorem word_list_excludes_no_heading :
  forall s : RuleSection,
    heading_title s
    = if length (trim (title s)) <? 4 then None else Some (trim (title s)).
Proof. exact heading_title_length. Qed.

(** X17. Every link term is the trimmed title, of four characters or more,
    of a section of some document; the link carries the identifier of that
    section and of its document, and its count of sections at the same
    level is at least one and at most the number of headings of that
    title. *)
Theorem link_term_is_a_heading :
  forall (docs : list RuleSection) (t : str) (link : LinkTerm),
    map_get t (fst (buildAnchorMaps docs)) = Some link ->
    4 <= length t /\ trim t = t /\
    1 <= sameLevelCount link <= length (heading_group docs t) /\
    exists doc sec,
      In doc docs /\ In sec (preorder doc 0) /\
      trim (title sec) = t /\
      link_id link = getSectionId sec /\
      link_docSlug link = getSectionId doc.
Proof. exact link_heading. Qed.

Lemma link_term_is_a_heading_witness :
  4 <= length (lit "Resistances") /\
  exists link,
    map_get (lit "Resistances") (fst (buildAnchorMaps sample_docs)) = Some link /\
    1 <= sameLevelCount link.
Proof.
  destruct (map_get (lit "Resistances") (fst (buildAnchorMaps sample_docs)))
    as [link|] eqn:E; [|vm_compute in E; discriminate E].
  destruct (link_term_is_a_heading sample_docs (lit "Resistances") link E)
    as (H4 & _ & [H1 _] & _).
  split; [exact H4|]. exists link. split; [reflexivity|exact H1].
Defined.

End HeadingExtras.

(** ** Anchors *)

Module AnchorFacts.

Import Regex Glossary SlugFacts KeywordFacts HeadingFacts.

(** Registrations in order: pairs of an anchor and a document. *)
Definition register_all (pairs : list (str * str)) (m : list (str * str))
  : list (str * str) :=
  fold_left (fun m p => register_anchor (fst p) (snd p) m) pairs m.

Definition first_of (a : str) (pairs : list (str * str)) : option str :=
  option_map snd (find (fun p => Str.eqb a (fst p)) pairs).

Lemma register_all_app (p1 p2 : list (str * str)) (m : list (str * str)) :
  register_all (p1 ++ p2) m = register_all p2 (register_all p1 m).
Proof. apply fold_left_app. Qed.

Lemma register_anchor_get (a k d : str) (m : list (str * str)) :
  map_get a (register_anchor k d m)
  = match map_get a m with
    | Some x => Some x
    | None => if Str.eqb a k then Some d else None
    end.
Proof.
  unfold register_anchor, map_has.
  destruct (map_get k m) as [x|] eqn:Ek.
  - destruct (map_get a m) as [y|] eqn:Ea; [reflexivity|].
    destruct (Str.eqb a k) eqn:E; [|reflexivity].
    apply Str.eqb_spec in E. subst k. congruence.
  - rewrite map_get_set. destruct (Str.eqb a k) eqn:E.
    + apply Str.eqb_spec in E. subst k. rewrite Ek. reflexivity.
    + destruct (map_get a m); reflexivity.
Qed.

Lemma register_all_get (a : str) (pairs : list (str * str)) :
  forall m,
    map_get a (register_all pairs m)
    = match map_get a m with
      | Some x => Some x
      | None => first_of a pairs
      end.
Proof.
  unfold register_all, first_of.
  induction pairs as [|[k d] pairs IH]; intros m; simpl.
  - destruct (map_get a m); reflexivity.
  - rewrite IH, register_anchor_get.
    destruct (map_get a m); [reflexivity|].
    destruct (Str.eqb a k); reflexivity.
Qed.

Lemma first_of_app (a : str) (p1 p2 : list (str * str)) :
  first_of a (p1 ++ p2)
  = match first_of a p1 with Some d => Some d | None => first_of a p2 end.
Proof.
  unfold first_of. induction p1 as [|[k d] p1 IH]; simpl; [reflexivity|].
  destruct (Str.eqb a k); [reflexivity|exact IH].
Qed.

Lemma first_of_In (a d : str) (pairs : list (str * str)) :
  first_of a pairs = Some d -> In (a, d) pairs.
Proof.
  unfold first_of. intros H.
  destruct (find (fun p => Str.eqb a (fst p)) pairs) as [[k x]|] eqn:E;
    [|discriminate H].
  apply find_some in E. destruct E as [E Ek]. simpl in *.
  apply Str.eqb_spec in Ek. inversion H; subst. exact E.
Qed.

Lemma first_of_found (a d : str) (pairs : list (str * str)) :
  In (a, d) pairs -> first_of a pairs <> None.
Proof.
  unfold first_of. intros H E.
  destruct (find (fun p => Str.eqb a (fst p)) pairs) eqn:F; [discriminate E|].
  apply (find_none _ _ F) in H. simpl in H. rewrite Str.eqb_refl in H.
  discriminate H.
Qed.

(** *** The rows of keyword tables *)

Definition row_slug (row : list Cell) : str :=
  slugify (match row with cell :: _ => cell_text cell | [] => [] end).

Definition row_anchors (row : list Cell) : list str :=
  if truthy (row_slug row) then [lit "weapon-keyword-" ++ row_slug row] else [].

Definition block_anchors (b : RuleBlock) : list str :=
  match b with
  | Table (head :: body) =>
      if isKeywordTable head then flat_map row_anchors body else []
  | _ => []
  end.

Definition section_anchors (s : RuleSection) : list str :=
  flat_map block_anchors (orNil (content s)).

(** The anchors of the keyword rows of a document, in traversal order,
    each with the identifier of the document. *)
Definition doc_anchors (doc : RuleSection) : list (str * str) :=
  map (fun a => (a, getSectionId doc))
      (flat_map section_anchors (preorder doc 0)).

Definition keyword_anchors (docs : list RuleSection) : list (str * str) :=
  flat_map doc_anchors docs.

(** The identifiers of the link terms, each with its document. *)
Definition link_anchors (linkTerms : list (str * LinkTerm)) : list (str * str) :=
  map (fun e => (link_id (snd e), link_docSlug (snd e))) linkTerms.

Definition tagged (docSlug : str) (anchors : list str) : list (str * str) :=
  map (fun a => (a, docSlug)) anchors.

Lemma walk_row_register (docSlug : str) (row : list Cell) (m : list (str * str)) :
  walk_row docSlug m row = register_all (tagged docSlug (row_anchors row)) m.
Proof.
  unfold walk_row, row_anchors. fold (row_slug row). cbv zeta.
  destruct (truthy (row_slug row)); reflexivity.
Qed.

Lemma walk_rows_register (docSlug : str) (body : list (list Cell)) :
  forall m,
    fold_left (walk_row docSlug) body m
    = register_all (tagged docSlug (flat_map row_anchors body)) m.
Proof.
  induction body as [|row body IH]; intros m; [reflexivity|].
  cbn [fold_left flat_map]. unfold tagged. rewrite map_app, register_all_app.
  rewrite IH, walk_row_register. reflexivity.
Qed.

Lemma walk_block_register (docSlug : str) (b : RuleBlock) (m : list (str * str)) :
  walk_block docSlug m b = register_all (tagged docSlug (block_anchors b)) m.
Proof.
  destruct b as [t sp|o it|[|head body]]; try reflexivity.
  unfold walk_block, block_anchors.
  destruct (isKeywordTable head); [apply walk_rows_register|reflexivity].
Qed.

Lemma walk_blocks_register (docSlug : str) (blocks : list RuleBlock) :
  forall m,
    fold_left (walk_block docSlug) blocks m
    = register_all (tagged docSlug (flat_map block_anchors blocks)) m.
Proof.
  induction blocks as [|b blocks IH]; intros m; [reflexivity|].
  cbn [fold_left flat_map]. unfold tagged. rewrite map_app, register_all_app.
  rewrite IH, walk_block_register. reflexivity.
Qed.

Lemma walk_register (docSlug : str) (s : RuleSection) :
  forall depth m,
    walk docSlug s m
    = register_all (tagged docSlug (flat_map section_anchors (preorder s depth)))
                   m.
Proof.
  induction s as [t sl lv c ss f IH] using RuleSection_children_ind.
  intros depth m. cbn [walk preorder flat_map].
  unfold tagged. rewrite map_app, register_all_app.
  change (section_anchors (mkSection t sl (Some depth) c ss f))
    with (flat_map block_anchors (orNil c)).
  rewrite walk_blocks_register. unfold tagged.
  generalize (register_all (map (fun a => (a, docSlug))
                                (flat_map block_anchors (orNil c))) m) as acc.
  destruct ss as [l|]; [|reflexivity].
  specialize (IH l eq_refl).
  induction IH as [|k l Hk HF IHl]; intros acc; [reflexivity|].
  cbn [flat_map]. rewrite flat_map_app, map_app, register_all_app.
  rewrite (Hk (S depth)). apply IHl.
Qed.

Lemma scan_docs_anchors (docs : list RuleSection) :
  forall candidates m,
    snd (fold_left scan_doc docs (candidates, m))
    = register_all (keyword_anchors docs) m.
Proof.
  induction docs as [|doc docs IH]; intros candidates m; [reflexivity|].
  cbn [fold_left keyword_anchors flat_map]. rewrite register_all_app.
  unfold scan_doc at 2. cbv zeta. rewrite IH.
  rewrite (walk_register (getSectionId doc) doc 0). reflexivity.
Qed.

(** *** The link terms *)

Definition resolved (entry : str * list Candidate) : list (str * LinkTerm) :=
  match resolve_group (snd entry) with
  | Some link => [(fst entry, link)]
  | None => []
  end.

Lemma link_group_eq (linkTerms : list (str * LinkTerm)) (anchors : list (str * str))
                    (entry : str * list Candidate) :
  link_group (linkTerms, anchors) entry
  = match resolve_group (snd entry) with
    | Some link =>
        (map_set (fst entry) link linkTerms,
         register_anchor (link_id link) (link_docSlug link) anchors)
    | None => (linkTerms, anchors)
    end.
Proof.
  destruct entry as [title [|first others]]; [reflexivity|].
  unfold link_group, resolve_group. cbv zeta. cbn [snd fst].
  destruct (filter _ (first :: others)); reflexivity.
Qed.

Lemma map_set_absent {V} (k : str) (v : V) (m : list (str * V)) :
  ~ In k (map_keys m) -> map_set k v m = m ++ [(k, v)].
Proof.
  induction m as [|[k0 v0] m IH]; simpl; intros H; [reflexivity|].
  destruct (Str.eqb k k0) eqn:E.
  - apply Str.eqb_spec in E. subst k0. exfalso. apply H. left. reflexivity.
  - rewrite IH; [reflexivity|]. intros Hk. apply H. right. exact Hk.
Qed.

Lemma resolved_keys (candidates : list (str * list Candidate)) (k : str) :
  In k (map_keys (flat_map resolved candidates)) -> In k (map_keys candidates).
Proof.
  unfold map_keys. induction candidates as [|[t l] cs IH]; simpl;
    [contradiction|].
  rewrite map_app, in_app_iff. intros [H|H]; [|right; apply IH, H].
  unfold resolved in H. simpl in H.
  destruct (resolve_group l); [|contradiction].
  destruct H as [H|[]]. left. exact H.
Qed.

Lemma link_groups_fold (candidates : list (str * list Candidate)) :
  NoDup (map_keys candidates) ->
  forall linkTerms anchors,
    (forall k, In k (map_keys candidates) -> ~ In k (map_keys linkTerms)) ->
    fold_left link_group candidates (linkTerms, anchors)
    = (linkTerms ++ flat_map resolved candidates,
       register_all (link_anchors (flat_map resolved candidates)) anchors).
Proof.
  induction candidates as [|[t l] cs IH]; intros Hnd linkTerms anchors Hd.
  - simpl. rewrite app_nil_r. reflexivity.
  - inversion_clear Hnd as [|k ks Hk Hks].
    cbn [fold_left flat_map]. rewrite link_group_eq. cbn [fst snd].
    unfold link_anchors. rewrite map_app, register_all_app.
    fold (link_anchors (flat_map resolved cs)).
    assert (Hres : resolved (t, l)
                   = match resolve_group l with
                     | Some link => [(t, link)]
                     | None => []
                     end) by reflexivity.
    rewrite Hres. clear Hres.
    destruct (resolve_group l) as [link|].
    + rewrite map_set_absent by (apply Hd; left; reflexivity).
      rewrite (IH Hks).
      * rewrite <- app_assoc. reflexivity.
      * intros k Hin. unfold map_keys. rewrite map_app, in_app_iff.
        intros [H|[H|[]]].
        -- apply (Hd k); [right; exact Hin|exact H].
        -- simpl in H. subst k. apply Hk, Hin.
    + rewrite (IH Hks); [reflexivity|].
      intros k Hin. apply Hd. right. exact Hin.
Qed.

Lemma buildAnchorMaps_eq (docs : list RuleSection) :
  let candidates := fold_left file_heading (headings docs) [] in
  buildAnchorMaps docs
  = (flat_map resolved candidates,
     register_all (keyword_anchors docs
                     ++ link_anchors (flat_map resolved candidates)) []).
Proof.
  cbv zeta. unfold buildAnchorMaps.
  pose proof (scan_docs_candidates docs [] []) as Ec.
  pose proof (scan_docs_anchors docs [] []) as Ea.
  destruct (fold_left scan_doc docs ([], [])) as [candidates anchors].
  simpl in Ec, Ea. subst candidates anchors.
  rewrite link_groups_fold.
  - rewrite register_all_app. reflexivity.
  - apply file_heading_NoDup. constructor.
  - intros k _ [].
Qed.

Lemma map_get_In {V} (k : str) (v : V) (m : list (str * V)) :
  map_get k m = Some v -> In (k, v) m.
Proof.
  induction m as [|[k0 v0] m IH]; simpl; [discriminate|].
  destruct (Str.eqb k k0) eqn:E.
  - apply Str.eqb_spec in E. intros H. inversion H; subst. left. reflexivity.
  - intros H. right. apply IH, H.
Qed.

Lemma In_map_get {V} (k : str) (v : V) (m : list (str * V)) :
  NoDup (map_keys m) -> In (k, v) m -> map_get k m = Some v.
Proof.
  induction m as [|[k0 v0] m IH]; simpl; [contradiction|].
  intros Hnd H. inversion_clear Hnd as [|x xs Hk Hks].
  destruct H as [H|H].
  - inversion H; subst. rewrite Str.eqb_refl. reflexivity.
  - destruct (Str.eqb k k0) eqn:E; [|apply IH; assumption].
    apply Str.eqb_spec in E. subst k0. exfalso. apply Hk.
    unfold map_keys. apply in_map_iff. exists (k, v). split; [reflexivity|exact H].
Qed.

Lemma resolved_NoDup (candidates : list (str * list Candidate)) :
  NoDup (map_keys candidates) ->
  NoDup (map_keys (flat_map resolved candidates)).
Proof.
  induction candidates as [|[t l] cs IH]; intros Hnd; [constructor|].
  inversion_clear Hnd as [|x xs Hk Hks]. cbn [flat_map].
  unfold resolved at 1. cbn [fst snd].
  destruct (resolve_group l) as [link|]; [|apply IH, Hks].
  cbn [app]. unfold map_keys. cbn [map fst]. constructor; [|apply IH, Hks].
  intros H. apply Hk. apply resolved_keys. exact H.
Qed.

Lemma linkTerms_NoDup (docs : list RuleSection) :
  NoDup (map_keys (fst (buildAnchorMaps docs))).
Proof.
  pose proof (buildAnchorMaps_eq docs) as E. cbv zeta in E. rewrite E.
  cbn [fst]. apply resolved_NoDup, file_heading_NoDup. constructor.
Qed.

Lemma anchor_first (docs : list RuleSection) (a : str) :
  map_get a (snd (buildAnchorMaps docs))
  = first_of a (keyword_anchors docs
                  ++ link_anchors (fst (buildAnchorMaps docs))).
Proof.
  pose proof (buildAnchorMaps_eq docs) as E. cbv zeta in E.
  rewrite E. cbn [fst snd]. rewrite register_all_get. reflexivity.
Qed.

Lemma keyword_anchors_doc (docs : list RuleSection) (a d : str) :
  In (a, d) (keyword_anchors docs) ->
  exists doc, In doc docs /\ d = getSectionId doc /\ In (a, d) (doc_anchors doc).
Proof.
  unfold keyword_anchors. intros F. apply in_flat_map in F.
  destruct F as (doc & Hdoc & F). exists doc. split; [exact Hdoc|].
  split; [|exact F]. unfold doc_anchors in F.
  apply in_map_iff in F. destruct F as (x & Ex & _).
  inversion Ex; subst. reflexivity.
Qed.

Lemma anchor_doc (docs : list RuleSection) (a d : str) :
  map_get a (snd (buildAnchorMaps docs)) = Some d ->
  exists doc, In doc docs /\ d = getSectionId doc.
Proof.
  rewrite anchor_first. intros F.
  apply first_of_In, in_app_or in F. destruct F as [F|F].
  - destruct (keyword_anchors_doc _ _ _ F) as (doc & Hdoc & Ed & _).
    exists doc. split; assumption.
  - unfold link_anchors in F. apply in_map_iff in F.
    destruct F as ([t link] & Ex & F). simpl in Ex. inversion Ex; subst.
    apply (In_map_get _ _ _ (linkTerms_NoDup docs)) in F.
    destruct (link_heading _ _ _ F) as (_ & _ & _ & doc & sec & Hdoc & _ & _ & _ & Ed).
    exists doc. split; assumption.
Qed.

End AnchorFacts.

Section AnchorExtras.

Import Regex Glossary SlugFacts KeywordFacts HeadingFacts AnchorFacts.

(** X18. Anchor registration is first-wins: the anchor map sends an anchor
    to the document of its first registration, where the rows of the
    keyword tables register first, in document order, and the link terms
    register their identifiers after them, in the order of the link map. *)
Theorem anchor_registration_first_wins :
  forall (docs : list RuleSection) (a : str),
    map_get a (snd (buildAnchorMaps docs))
    = first_of a (keyword_anchors docs
                    ++ link_anchors (fst (buildAnchorMaps docs))).
Proof. exact anchor_first. Qed.

(** X19. Every entry of the anchor map names a document of the rules, and
    the identifier of every link term has an entry: a link never navigates
    to a document that does not exist. *)
Theorem anchors_name_documents :
  forall docs : list RuleSection,
    (forall a d, map_get a (snd (buildAnchorMaps docs)) = Some d ->
                 exists doc, In doc docs /\ d = getSectionId doc) /\
    (forall t link, map_get t (fst (buildAnchorMaps docs)) = Some link ->
                    map_get (link_id link) (snd (buildAnchorMaps docs)) <> None).
Proof.
  intros docs. split; [apply anchor_doc|].
  intros t link H. rewrite anchor_first.
  apply (first_of_found _ (link_docSlug link)), in_or_app. right.
  unfold link_anchors. apply in_map_iff. exists (t, link).
  split; [reflexivity|apply map_get_In, H].
Qed.

End AnchorExtras.

(** ** The terms of the composite pattern *)

Module TermFacts.

Import Regex Glossary Annotator.

Lemma mem_In (x : str) (l : list str) : mem x l = true <-> In x l.
Proof.
  unfold mem. rewrite existsb_exists. split.
  - intros (y & Hy & E). apply Str.eqb_spec in E. subst y. exact Hy.
  - intros H. exists x. split; [exact H|apply Str.eqb_refl].
Qed.

Lemma dedupe_NoDup (keys : list str) :
  forall seen,
    NoDup (dedupe seen keys) /\
    (forall x, In x (dedupe seen keys) -> ~ In x seen).
Proof.
  induction keys as [|k keys IH]; intros seen; simpl.
  - split; [constructor|intros x []].
  - destruct (mem k seen) eqn:E; [apply IH|].
    destruct (IH (k :: seen)) as [Hn Hd]. split.
    + constructor; [|exact Hn]. intros H. apply (Hd k H). left. reflexivity.
    + intros x [<-|H].
      * intros Hk. apply mem_In in Hk. congruence.
      * intros Hx. apply (Hd x H). right. exact Hx.
Qed.

Lemma dedupe_complete (x : str) (keys : list str) :
  forall seen, In x keys -> ~ In x seen -> In x (dedupe seen keys).
Proof.
  induction keys as [|k keys IH]; intros seen Hin Hs; [contradiction|].
  simpl. destruct (mem k seen) eqn:E.
  - destruct Hin as [->|Hin]; [apply mem_In in E; contradiction|].
    apply IH; assumption.
  - destruct (Str.eqb x k) eqn:Ex.
    + apply Str.eqb_spec in Ex. left. symmetry. exact Ex.
    + apply Str.eqb_neq in Ex. right.
      destruct Hin as [->|Hin]; [congruence|]. apply IH; [exact Hin|].
      intros [H|H]; [congruence|contradiction].
Qed.

Lemma insert_term_NoDup (t : str) (sorted : list str) :
  ~ In t sorted -> NoDup sorted -> NoDup (insert_term t sorted).
Proof.
  induction sorted as [|y sorted IH]; simpl; intros Ht Hn.
  - constructor; [intros []|constructor].
  - destruct (length t <? length y).
    + inversion_clear Hn as [|a l Hy Hs]. constructor.
      * intros H. apply insert_term_In in H. destruct H as [->|H].
        -- apply Ht. left. reflexivity.
        -- contradiction.
      * apply IH; [|exact Hs]. intros H. apply Ht. right. exact H.
    + constructor; assumption.
Qed.

Lemma sort_NoDup (terms : list str) :
  NoDup terms -> NoDup (sort_by_length_desc terms).
Proof.
  induction terms as [|t terms IH]; intros H; [constructor|].
  inversion_clear H as [|a l Ht Hs].
  change (NoDup (insert_term t (sort_by_length_desc terms))).
  apply insert_term_NoDup; [|apply IH, Hs].
  intros Hin. apply Ht. apply (proj1 (sort_In t terms)), Hin.
Qed.

Lemma glossary_terms_NoDup (tooltips : list (str * str))
                           (links : list (str * LinkTerm)) :
  NoDup (glossary_terms tooltips links).
Proof. apply sort_NoDup, dedupe_NoDup. Qed.

Lemma glossary_terms_iff (tooltips : list (str * str))
                         (links : list (str * LinkTerm)) (t : str) :
  In t (glossary_terms tooltips links)
  <-> In t (map_keys tooltips) \/ In t (map_keys links).
Proof.
  unfold glossary_terms. rewrite sort_In, <- in_app_iff. split.
  - apply dedupe_In.
  - intros H. apply dedupe_complete; [exact H|intros []].
Qed.

Lemma glossary_terms_nil (tooltips : list (str * str))
                         (links : list (str * LinkTerm)) :
  glossary_terms tooltips links = [] <-> tooltips = [] /\ links = [].
Proof.
  split.
  - intros E. destruct tooltips as [|[k v] tooltips].
    + destruct links as [|[k v] links]; [split; reflexivity|].
      assert (H : In k (glossary_terms [] ((k, v) :: links)))
        by (apply glossary_terms_iff; right; left; reflexivity).
      rewrite E in H. contradiction.
    + assert (H : In k (glossary_terms ((k, v) :: tooltips) links))
        by (apply glossary_terms_iff; left; left; reflexivity).
      rewrite E in H. contradiction.
  - intros [-> ->]. reflexivity.
Qed.

End TermFacts.

Section TermExtras.

Import Regex Glossary Annotator TermFacts.

(** X20. The alternatives of the composite pattern are the patterns of the
    glossary terms; the terms are the keys of the tooltip map and of the
    link map, each once, the longest first; and the glossary has no
    pattern exactly when both maps are empty. *)
Theorem glossary_alternatives :
  forall (docs : list RuleSection) (attrs skills : list (str * str))
         (kws : list Keywords.KeywordDef),
    let g := buildGlossary docs attrs skills kws in
    let terms := glossary_terms (tooltipTerms g) (linkTerms g) in
    NoDup terms /\ longest_first terms /\
    (forall t, In t terms
               <-> In t (map_keys (tooltipTerms g)) \/ In t (map_keys (linkTerms g))) /\
    (regex g = None <-> tooltipTerms g = [] /\ linkTerms g = []) /\
    (regex g = None \/ regex g = Some (map term_pattern terms)).
Proof.
  intros docs attrs skills kws. cbv zeta.
  pose proof (buildGlossary_fields docs attrs skills kws) as F.
  cbv zeta in F. destruct F as (_ & _ & Er).
  set (g := buildGlossary docs attrs skills kws) in *.
  split; [apply glossary_terms_NoDup|].
  split; [apply sort_longest_first|].
  split; [intros t; apply glossary_terms_iff|].
  rewrite Er. rewrite <- glossary_terms_nil.
  destruct (glossary_terms (tooltipTerms g) (linkTerms g)) as [|t ts].
  - split; [split; reflexivity|left; reflexivity].
  - split; [split; discriminate|right; reflexivity].
Qed.

End TermExtras.

(** ** Labelled tables *)

Module ViewFacts.

Import Glossary Normalizer Views.

(** The labelled table that one block gives. *)
Definition labeled_block (b : RuleBlock) : list LabeledTable :=
  collect_block [] b.

(** The labelled tables of a document, in traversal order. *)
Definition labeled_tables (doc : RuleSection) : list LabeledTable :=
  flat_map (fun s => flat_map labeled_block (orNil (content s)))
           (preorder doc 0).

Lemma collect_block_app (out : list LabeledTable) (b : RuleBlock) :
  collect_block out b = out ++ labeled_block b.
Proof.
  unfold labeled_block. destruct b as [t sp|o it|rows]; simpl;
    try (rewrite app_nil_r; reflexivity).
  destruct (negb (length (firstRow rows) =? 1));
    [rewrite app_nil_r; reflexivity|].
  destruct (negb (truthy (trim (firstText (firstRow rows)))));
    [rewrite app_nil_r; reflexivity|reflexivity].
Qed.

Lemma collect_blocks_app (blocks : list RuleBlock) :
  forall out,
    fold_left collect_block blocks out = out ++ flat_map labeled_block blocks.
Proof.
  induction blocks as [|b blocks IH]; intros out; simpl.
  - rewrite app_nil_r. reflexivity.
  - rewrite IH, collect_block_app, <- app_assoc. reflexivity.
Qed.

Lemma collect_preorder (s : RuleSection) :
  forall depth out,
    collectLabeledTables s out
    = out ++ flat_map (fun k => flat_map labeled_block (orNil (content k)))
                      (preorder s depth).
Proof.
  induction s as [t sl lv c ss f IH] using RuleSection_children_ind.
  intros depth out. cbn [collectLabeledTables preorder flat_map].
  change (content (mkSection t sl (Some depth) c ss f)) with c.
  rewrite collect_blocks_app, app_assoc.
  generalize (out ++ flat_map labeled_block (orNil c)) as acc.
  destruct ss as [l|]; [|intros acc; rewrite app_nil_r; reflexivity].
  specialize (IH l eq_refl).
  induction IH as [|k l Hk HF IHl]; intros acc.
  - simpl. rewrite app_nil_r. reflexivity.
  - cbn [flat_map]. rewrite flat_map_app, (Hk (S depth)), IHl, <- app_assoc.
    reflexivity.
Qed.

Lemma add_labeled_get (k : str) (entries : list LabeledTable) :
  forall m,
    map_get k (fold_left add_labeled entries m)
    = match map_get k m with
      | Some b => Some b
      | None => option_map block
                  (find (fun e => Str.eqb k (toLowerCase (label e))) entries)
      end.
Proof.
  induction entries as [|e entries IH]; intros m; simpl.
  - destruct (map_get k m); reflexivity.
  - rewrite IH. unfold add_labeled, map_has. cbv zeta.
    destruct (map_get (toLowerCase (label e)) m) as [x|] eqn:Ee; cbn [negb].
    + destruct (map_get k m) as [y|] eqn:Ek; [reflexivity|].
      destruct (Str.eqb k (toLowerCase (label e))) eqn:E; [|reflexivity].
      apply Str.eqb_spec in E. subst k. congruence.
    + rewrite map_get_set.
      destruct (Str.eqb k (toLowerCase (label e))) eqn:E.
      * apply Str.eqb_spec in E. subst k. rewrite Ee. reflexivity.
      * destruct (map_get k m); reflexivity.
Qed.

(** What a labelled table is. *)
Lemma labeled_block_In (b : RuleBlock) (e : LabeledTable) :
  In e (labeled_block b) ->
  block e = b /\ label e <> [] /\
  exists rows cell,
    b = Table rows /\ firstRow rows = [cell] /\
    label e = trim (cell_text cell).
Proof.
  unfold labeled_block. destruct b as [t sp|o it|rows]; simpl;
    try contradiction.
  destruct (length (firstRow rows) =? 1) eqn:El; [|contradiction].
  cbn [negb].
  destruct (truthy (trim (firstText (firstRow rows)))) eqn:Et;
    [|contradiction].
  cbn [negb app]. intros [<-|[]]. cbn [block label].
  split; [reflexivity|]. split.
  - intros E. rewrite E in Et. discriminate Et.
  - apply Nat.eqb_eq in El.
    destruct (firstRow rows) as [|cell [|c2 r]] eqn:Ef; try discriminate El.
    exists rows, cell. split; [reflexivity|]. split; [exact Ef|reflexivity].
Qed.

Lemma hasLabeled_In (t : str) (blocks : list RuleBlock) (e : LabeledTable) :
  In (block e) blocks -> In e (labeled_block (block e)) ->
  toLowerCase (label e) = toLowerCase t ->
  hasLabeledTableInContent t blocks = true.
Proof.
  intros Hb He Hl. unfold hasLabeledTableInContent.
  apply existsb_exists. exists (block e). split; [exact Hb|].
  destruct (labeled_block_In _ _ He) as (_ & _ & rows & cell & Eb & Ef & El).
  rewrite Eb, Ef. cbn [length Nat.eqb negb firstText].
  rewrite <- El, Hl. apply Str.eqb_refl.
Qed.

Lemma drops_existsb (f : RuleBlock -> bool) (out inp : list RuleBlock) :
  (forall t sp, f (Paragraph t sp) = false) ->
  DropsParagraphs out inp -> existsb f out = existsb f inp.
Proof.
  intros Hf. induction 1 as [|b out inp H IH|t sp out inp H IH]; simpl.
  - reflexivity.
  - rewrite IH. reflexivity.
  - rewrite Hf. exact IH.
Qed.

Lemma hasLabeled_normalize (t : str) (blocks : list RuleBlock) :
  hasLabeledTableInContent t (normalizeContent blocks)
  = hasLabeledTableInContent t blocks.
Proof.
  unfold hasLabeledTableInContent. apply drops_existsb.
  - reflexivity.
  - apply normalizeContent_drops.
Qed.

Lemma tablesByLabel_get (doc : RuleSection) (k : str) :
  map_get k (tablesByLabel (Some doc))
  = option_map block
      (find (fun e => Str.eqb k (toLowerCase (label e))) (labeled_tables doc)).
Proof.
  unfold tablesByLabel. rewrite add_labeled_get. cbn [map_get].
  rewrite (collect_preorder doc 0 []). reflexivity.
Qed.

(** *** The labelled tables, said without the collector *)

(** The label of a block: the trimmed text of the only cell of the first
    row of a table, when this text is not empty. *)
Definition label_of (b : RuleBlock) : option str :=
  match b with
  | Table ([cell] :: _) =>
      match trim (cell_text cell) with
      | [] => None
      | l => Some l
      end
  | _ => None
  end.

(** Every block that has a label, with its label: section by section in
    traversal order, and in a section block by block. *)
Definition labelled (doc : RuleSection) : list LabeledTable :=
  flat_map (fun s =>
              flat_map (fun b => match label_of b with
                                 | Some l => [mkLabeled l b]
                                 | None => []
                                 end)
                       (orNil (content s)))
           (preorder doc 0).

Lemma labeled_block_label_of (b : RuleBlock) :
  labeled_block b
  = match label_of b with Some l => [mkLabeled l b] | None => [] end.
Proof.
  destruct b as [t sp|o it|[|[|cell [|c2 r]] rows]]; try reflexivity.
  unfold labeled_block, label_of. cbn [collect_block firstRow length Nat.eqb negb firstText].
  destruct (trim (cell_text cell)); reflexivity.
Qed.

Lemma labeled_tables_labelled (doc : RuleSection) :
  labeled_tables doc = labelled doc.
Proof.
  unfold labeled_tables, labelled.
  induction (preorder doc 0) as [|s l IH]; [reflexivity|].
  cbn [flat_map]. rewrite IH. f_equal.
  induction (orNil (content s)) as [|b bs IHb]; [reflexivity|].
  cbn [flat_map]. rewrite IHb, labeled_block_label_of. reflexivity.
Qed.

Lemma label_of_some (b : RuleBlock) (l : str) :
  label_of b = Some l
  <-> exists cell rest,
        b = Table ([cell] :: rest) /\ l = trim (cell_text cell) /\ l <> [].
Proof.
  split.
  - destruct b as [t sp|o it|[|[|cell [|c2 r]] rows]]; try discriminate.
    unfold label_of. destruct (trim (cell_text cell)) as [|c t] eqn:E;
      [discriminate|].
    intros H. inversion H; subst l. exists cell, rows.
    repeat split; [symmetry; exact E|discriminate].
  - intros (cell & rest & -> & -> & Hne). unfold label_of.
    destruct (trim (cell_text cell)); [contradiction|reflexivity].
Qed.

Lemma labelled_In (doc : RuleSection) (e : LabeledTable) :
  In e (labelled doc)
  <-> exists sec cell rest,
        In sec (preorder doc 0) /\
        In (Table ([cell] :: rest)) (orNil (content sec)) /\
        trim (cell_text cell) <> [] /\
        e = mkLabeled (trim (cell_text cell)) (Table ([cell] :: rest)).
Proof.
  unfold labelled. rewrite in_flat_map. split.
  - intros (sec & Hsec & He). apply in_flat_map in He.
    destruct He as (b & Hb & He).
    destruct (label_of b) as [l|] eqn:El; [|contradiction].
    destruct He as [<-|[]]. apply label_of_some in El.
    destruct El as (cell & rest & -> & -> & Hne).
    exists sec, cell, rest. repeat split; assumption.
  - intros (sec & cell & rest & Hsec & Hb & Hne & ->).
    exists sec. split; [exact Hsec|]. apply in_flat_map.
    exists (Table ([cell] :: rest)). split; [exact Hb|].
    assert (El : label_of (Table ([cell] :: rest))
                 = Some (trim (cell_text cell))).
    { apply label_of_some. exists cell, rest. repeat split. exact Hne. }
    rewrite El. left. reflexivity.
Qed.

End ViewFacts.

Section ViewExtras.

Import Glossary Normalizer Views ViewFacts.

(** X21. [collectLabeledTables] collects exactly the tables of the
    document whose first row has one cell with a trimmed text that is not
    empty, each with this text as its label, in traversal order: none is
    left out and nothing else is collected.  The table map is first-wins:
    it sends a key to the first of them whose lower-cased label is the
    key. *)
Theorem labelled_tables_first_wins :
  forall (doc : RuleSection) (key : str),
    collectLabeledTables doc [] = labelled doc /\
    (forall e,
        In e (collectLabeledTables doc [])
        <-> exists sec cell rest,
              In sec (preorder doc 0) /\
              In (Table ([cell] :: rest)) (orNil (content sec)) /\
              trim (cell_text cell) <> [] /\
              e = mkLabeled (trim (cell_text cell)) (Table ([cell] :: rest))) /\
    map_get key (tablesByLabel (Some doc))
    = option_map block
        (find (fun e => Str.eqb key (toLowerCase (label e))) (labelled doc)).
Proof.
  intros doc key.
  assert (E : collectLabeledTables doc [] = labelled doc).
  { rewrite <- labeled_tables_labelled. apply (collect_preorder doc 0 []). }
  split; [exact E|]. split.
  - intros e. rewrite E. apply labelled_In.
  - rewrite <- labeled_tables_labelled. apply tablesByLabel_get.
Qed.

(** X22. A section view shows the normalized content of its section, and
    before it one injected table exactly when the section is nested, its
    own content (normalized or not) holds no table labelled with its
    title, and the active document holds one: the injected table is then
    the first such table of the document, and it is not a block of the
    section's own content. *)
Theorem injected_table :
  forall (doc s : RuleSection) (depth : nat),
    let injected :=
      if (0 <? depth)
         && negb (hasLabeledTableInContent (title s) (orNil (content s)))
      then match find (fun e => Str.eqb (toLowerCase (title s))
                                        (toLowerCase (label e)))
                      (labeled_tables doc) with
           | Some e => [block e]
           | None => []
           end
      else [] in
    view_blocks (tablesByLabel (Some doc)) s depth
    = injected ++ normalizeContent (orNil (content s)) /\
    (forall b, In b injected -> ~ In b (orNil (content s))).
Proof.
  intros doc s depth. cbv zeta. split.
  - unfold view_blocks, shouldInjectTable. cbv zeta.
    rewrite hasLabeled_normalize, tablesByLabel_get.
    destruct depth as [|d]; [reflexivity|]. cbn [Nat.eqb Nat.ltb Nat.leb andb].
    destruct (find _ (labeled_tables doc)) as [e|]; cbn [option_map].
    + cbn [Annotator.isNone negb andb].
      destruct (hasLabeledTableInContent (title s) (orNil (content s)));
        reflexivity.
    + destruct (hasLabeledTableInContent (title s) (orNil (content s)));
        reflexivity.
  - intros b Hb Hin.
    destruct ((0 <? depth)
              && negb (hasLabeledTableInContent (title s) (orNil (content s))))
      eqn:E; [|contradiction].
    apply andb_true_iff in E. destruct E as [_ E].
    apply negb_true_iff in E.
    destruct (find _ (labeled_tables doc)) as [e|] eqn:F; [|contradiction].
    destruct Hb as [<-|[]]. apply find_some in F. destruct F as [He Hk].
    apply Str.eqb_spec in Hk.
    assert (Hl : In e (labeled_block (block e))).
    { unfold labeled_tables in He. apply in_flat_map in He.
      destruct He as (k & _ & He). apply in_flat_map in He.
      destruct He as (b & _ & He).
      destruct (labeled_block_In _ _ He) as (Eb & _). rewrite Eb. exact He. }
    rewrite (hasLabeled_In (title s) _ e Hin Hl) in E; [discriminate E|].
    symmetry. exact Hk.
Qed.

End ViewExtras.

(** ** From a keyword to the row of its table *)

Module NavigationFacts.

Import Glossary Normalizer Views ViewFacts SlugFacts KeywordFacts AnchorFacts.

Lemma buildGlossary_anchorToDoc (docs : list RuleSection)
                                (attrs skills : list (str * str))
                                (kws : list Keywords.KeywordDef) :
  anchorToDoc (buildGlossary docs attrs skills kws)
  = snd (buildAnchorMaps docs).
Proof.
  unfold buildGlossary. destruct (buildAnchorMaps docs) as [links anchors].
  cbv zeta. destruct (glossary_terms _ links); reflexivity.
Qed.

Lemma block_anchors_row_ids (a : str) (b : RuleBlock) :
  In a (block_anchors b) -> In (Some a) (table_row_ids b).
Proof.
  destruct b as [t sp|o it|[|head body]]; try contradiction.
  unfold block_anchors, table_row_ids.
  destruct (isKeywordTable head); [|contradiction].
  intros H. apply in_flat_map in H. destruct H as (row & Hrow & H).
  apply in_map_iff. exists row. split; [|exact Hrow].
  unfold row_anchors in H. destruct (truthy (row_slug row)); [|contradiction].
  destruct H as [<-|[]]. reflexivity.
Qed.

Lemma row_ids_block_anchors (a : str) (b : RuleBlock) :
  In (Some a) (table_row_ids b) -> a <> lit "weapon-keyword-" ->
  In a (block_anchors b).
Proof.
  destruct b as [t sp|o it|[|head body]]; try contradiction.
  unfold block_anchors, table_row_ids. intros H Ha.
  apply in_map_iff in H. destruct H as (row & E & Hrow).
  unfold row_id in E. destruct (isKeywordTable head); [|discriminate E].
  inversion E as [Ea]. apply in_flat_map. exists row. split; [exact Hrow|].
  unfold row_anchors. change (slugify (firstText row)) with (row_slug row).
  destruct (row_slug row) as [|c sl] eqn:Es.
  - exfalso. apply Ha. rewrite <- Ea.
    change (slugify (firstText row)) with (row_slug row). rewrite Es.
    reflexivity.
  - left. reflexivity.
Qed.

Lemma resolved_anchor_not_bare (kws : list Keywords.KeywordDef) (keyword : str)
                               (r : Keywords.WeaponKeywordMatch) :
  Keywords.resolveWeaponKeyword kws keyword = Some r ->
  Keywords.anchor r <> lit "weapon-keyword-".
Proof.
  intros H. rewrite (resolved_anchor _ _ _ H).
  destruct (slugify keyword) as [|c sl]; cbn [truthy]; [discriminate|].
  intros E. apply (f_equal (@length ascii)) in E.
  rewrite length_app in E. simpl in E. lia.
Qed.

Lemma anchor_of_row (docs : list RuleSection) (doc sec : RuleSection)
                    (b : RuleBlock) (a : str) :
  In doc docs -> In sec (preorder doc 0) -> In b (orNil (content sec)) ->
  In a (block_anchors b) ->
  exists doc' sec' b',
    In doc' docs /\ In sec' (preorder doc' 0) /\
    In b' (orNil (content sec')) /\ In a (block_anchors b') /\
    map_get a (snd (buildAnchorMaps docs)) = Some (getSectionId doc').
Proof.
  intros Hdoc Hsec Hb Ha.
  assert (Hk : In (a, getSectionId doc) (keyword_anchors docs)).
  { unfold keyword_anchors. apply in_flat_map. exists doc.
    split; [exact Hdoc|]. unfold doc_anchors.
    apply (in_map (fun x => (x, getSectionId doc))).
    apply in_flat_map. exists sec. split; [exact Hsec|].
    unfold section_anchors. apply in_flat_map. exists b.
    split; assumption. }
  rewrite anchor_first, first_of_app.
  destruct (first_of a (keyword_anchors docs)) as [d|] eqn:F;
    [|exfalso; apply (first_of_found _ _ _ Hk), F].
  apply first_of_In in F.
  destruct (keyword_anchors_doc _ _ _ F) as (doc' & Hdoc' & Ed & Hin).
  unfold doc_anchors in Hin. apply in_map_iff in Hin.
  destruct Hin as (x & Ex & Hin). inversion Ex; subst x.
  apply in_flat_map in Hin. destruct Hin as (sec' & Hsec' & Hin).
  unfold section_anchors in Hin. apply in_flat_map in Hin.
  destruct Hin as (b' & Hb' & Hin).
  exists doc', sec', b'. repeat split; assumption || congruence.
Qed.

Lemma block_anchors_table (a : str) (b : RuleBlock) :
  In a (block_anchors b) -> isParagraph b = false.
Proof. destruct b; [contradiction|reflexivity|reflexivity]. Qed.

Lemma find_unique (docs : list RuleSection) (d : RuleSection) :
  NoDup (map getSectionId docs) -> In d docs ->
  find (fun x => Str.eqb (getSectionId x) (getSectionId d)) docs = Some d.
Proof.
  induction docs as [|x docs IH]; intros Hnd Hin; [contradiction|].
  simpl in Hnd. inversion_clear Hnd as [|y ys Hx Hnd'].
  cbn [find]. destruct (Str.eqb (getSectionId x) (getSectionId d)) eqn:E.
  - apply Str.eqb_spec in E. destruct Hin as [->|Hin]; [reflexivity|].
    exfalso. apply Hx. rewrite E. apply in_map, Hin.
  - destruct Hin as [->|Hin]; [rewrite Str.eqb_refl in E; discriminate E|].
    apply IH; assumption.
Qed.

Lemma navigate_shows (docs : list RuleSection) (st : Navigation.Selection)
                     (d : RuleSection) :
  NoDup (map getSectionId docs) -> In d docs -> getSectionId d <> [] ->
  truthy (Navigation.q st) && truthy (Navigation.searchSelection st) = false ->
  Navigation.activeDocument docs (Navigation.navigateTo st (Some (getSectionId d)))
  = Some d.
Proof.
  intros Hnd Hin Hne Hsel. unfold Navigation.activeDocument, Navigation.navigateTo.
  assert (Ht : truthy (getSectionId d) = true)
    by (destruct (getSectionId d); [contradiction|reflexivity]).
  rewrite Ht. cbn [andb].
  destruct (Str.eqb (getSectionId d) (Navigation.activeSlug st)) eqn:E;
    cbn [negb Navigation.q Navigation.searchSelection Navigation.activeSlug];
    rewrite Hsel.
  - apply Str.eqb_spec in E. rewrite <- E. unfold activeDoc.
    rewrite (find_unique docs d Hnd Hin). reflexivity.
  - unfold activeDoc. rewrite (find_unique docs d Hnd Hin). reflexivity.
Qed.

End NavigationFacts.

(** Example rules: a document with a keyword table. *)
Definition sample_rules : list RuleSection :=
  [mkSection (lit "Weapons") None None
     (Some [Table [[mkCell (lit "Keyword") None; mkCell (lit "Effect") None];
                   [mkCell (lit "Silent") None;
                    mkCell (lit "Makes no sound.") None]]])
     None None].

Section NavigationExtras.

Import Glossary Normalizer Views ViewFacts SlugFacts KeywordFacts AnchorFacts.
Import NavigationFacts.

(** X23. When the anchor of a resolved keyword is the identifier that a
    row of a keyword table of the rules is rendered with, the glossary
    sends the anchor to the identifier of a document of the rules that
    holds, among the blocks it renders, a table with a row of this
    identifier.  When moreover the documents have distinct identifiers,
    the identifier of that document is not empty and no search selection
    is pinned, [navigateTo] with what the link passes makes this document
    the active document. *)
Theorem keyword_link_reaches_a_row :
  forall (docs : list RuleSection) (attrs skills : list (str * str))
         (kws : list Keywords.KeywordDef) (keyword : str)
         (r : Keywords.WeaponKeywordMatch)
         (doc sec : RuleSection) (b : RuleBlock),
    Keywords.resolveWeaponKeyword kws keyword = Some r ->
    In doc docs -> In sec (preorder doc 0) -> In b (orNil (content sec)) ->
    In (Some (Keywords.anchor r)) (table_row_ids b) ->
    exists doc' sec' b',
      In doc' docs /\ In sec' (preorder doc' 0) /\
      In b' (orNil (content sec')) /\
      In b' (normalizeContent (orNil (content sec'))) /\
      In (Some (Keywords.anchor r)) (table_row_ids b') /\
      map_get (Keywords.anchor r)
              (anchorToDoc (buildGlossary docs attrs skills kws))
      = Some (getSectionId doc') /\
      (forall st : Navigation.Selection,
          NoDup (map getSectionId docs) ->
          getSectionId doc' <> [] ->
          truthy (Navigation.q st)
          && truthy (Navigation.searchSelection st) = false ->
          Navigation.activeDocument docs
            (Navigation.navigateTo st
               (map_get (Keywords.anchor r)
                        (anchorToDoc (buildGlossary docs attrs skills kws))))
          = Some doc').
Proof.
  intros docs attrs skills kws keyword r doc sec b Hr Hdoc Hsec Hb Hid.
  pose proof (resolved_anchor_not_bare _ _ _ Hr) as Hn.
  apply row_ids_block_anchors in Hid; [|exact Hn].
  destruct (anchor_of_row docs doc sec b _ Hdoc Hsec Hb Hid)
    as (doc' & sec' & b' & H1 & H2 & H3 & H4 & H5).
  exists doc', sec', b'. rewrite buildGlossary_anchorToDoc, H5.
  split; [exact H1|]. split; [exact H2|]. split; [exact H3|]. split.
  { apply (DropsParagraphs_keeps _ (orNil (content sec')));
      [apply normalizeContent_drops|exact H3|].
    apply (block_anchors_table _ _ H4). }
  split; [apply block_anchors_row_ids, H4|]. split; [reflexivity|].
  intros st Hnd Hne Hsel. apply navigate_shows; assumption.
Qed.

Lemma keyword_link_reaches_a_row_witness :
  exists doc,
    In doc sample_rules /\
    map_get (lit "weapon-keyword-silent")
            (anchorToDoc (buildGlossary sample_rules [] [] sample_keywords))
    = Some (getSectionId doc) /\
    Navigation.activeDocument sample_rules
      (Navigation.navigateTo
         (Navigation.mkSelection [] [] (lit "armor"))
         (map_get (lit "weapon-keyword-silent")
                  (anchorToDoc (buildGlossary sample_rules [] []
                                              sample_keywords))))
    = Some doc.
Proof.
  assert (E : Keywords.resolveWeaponKeyword sample_keywords (lit "silent")
              = Some (Keywords.mkMatch (lit "silent") (lit "Makes no sound.")
                                       (lit "weapon-keyword-silent")))
    by (vm_compute; reflexivity).
  destruct (keyword_link_reaches_a_row
              sample_rules [] [] sample_keywords (lit "silent") _
              (mkSection (lit "Weapons") None None
                 (Some [Table [[mkCell (lit "Keyword") None;
                                mkCell (lit "Effect") None];
                               [mkCell (lit "Silent") None;
                                mkCell (lit "Makes no sound.") None]]])
                 None None)
              (mkSection (lit "Weapons") None (Some 0)
                 (Some [Table [[mkCell (lit "Keyword") None;
                                mkCell (lit "Effect") None];
                               [mkCell (lit "Silent") None;
                                mkCell (lit "Makes no sound.") None]]])
                 None None)
              (Table [[mkCell (lit "Keyword") None; mkCell (lit "Effect") None];
                      [mkCell (lit "Silent") None;
                       mkCell (lit "Makes no sound.") None]])
              E)
    as (doc & _ & _ & Hdoc & _ & _ & _ & _ & Hm & Hnav).
  - left. reflexivity.
  - left. reflexivity.
  - left. reflexivity.
  - vm_compute. left. reflexivity.
  - exists doc. split; [exact Hdoc|]. split; [exact Hm|].
    apply (Hnav (Navigation.mkSelection [] [] (lit "armor"))).
    + vm_compute. constructor; [intros []|constructor].
    + destruct Hdoc as [<-|[]]. vm_compute. discriminate.
    + reflexivity.
Defined.

End NavigationExtras.

(** ** Where the annotations stand *)



Section PlacementExtras.

Import Regex Glossary Annotator PlacementFacts.

(** X24. The glossary annotations of a rendered text stand one after the
    other without overlap, and each of them is a glossary term that the
    text holds, letter for letter, at the offset of the annotation. *)
Theorem annotations_are_well_placed :
  forall (docs : list RuleSection) (attrs skills : list (str * str))
         (kws : list Keywords.KeywordDef) (raw q : str),
    let g := buildGlossary docs attrs skills kws in
    exists nodes,
      renderGlossaryText raw q g = Some nodes /\
      well_placed raw (glossary_terms (tooltipTerms g) (linkTerms g)) 0
                  (annotations 0 nodes).
Proof.
  intros docs attrs skills kws raw q. cbv zeta.
  pose proof (buildGlossary_fields docs attrs skills kws) as F.
  cbv zeta in F. destruct F as (_ & _ & F).
  unfold renderGlossaryText. rewrite F.
  destruct (glossary_terms _ _) as [|t terms] eqn:Et.
  - eexists. split; [reflexivity|]. exact I.
  - destruct (render_loop_total (buildGlossary docs attrs skills kws)
                (t :: terms) raw q) with (fuel := S (length raw))
                                         (lastIndex := 0) (nodes := @nil Node)
      as [more Hm]; try lia.
    + intros t' Ht'. rewrite <- Et in Ht'.
      apply (glossary_terms_nonempty docs attrs skills kws t' Ht').
    + rewrite Hm. eexists. split; [reflexivity|].
      apply render_loop_placed in Hm; [|reflexivity].
      destruct Hm as (more' & E & Hw). simpl in E. subst more'. exact Hw.
Qed.

End PlacementExtras.

(** ** Section identifiers *)

Module SectionIdFacts.

Import Glossary.

Lemma hyphenate_Forall (P : ascii -> Prop) (cls : ascii -> bool) (s : str) :
  P (ch 45) -> (forall c, In c s -> cls c = false -> P c) ->
  forall b, Forall P (hyphenate_runs cls b s).
Proof.
  intros Hh. induction s as [|c s IH]; intros Hs b; [constructor|].
  simpl. destruct (cls c) eqn:Ec.
  - destruct b.
    + apply IH. intros x Hx. apply Hs. right. exact Hx.
    + constructor; [exact Hh|]. apply IH. intros x Hx. apply Hs. right. exact Hx.
  - constructor; [apply Hs; [left; reflexivity|exact Ec]|].
    apply IH. intros x Hx. apply Hs. right. exact Hx.
Qed.

Lemma hyphenate_length (cls : ascii -> bool) (s : str) :
  forall b, length (hyphenate_runs cls b s) <= length s.
Proof.
  induction s as [|c s IH]; intros b; [reflexivity|]. simpl.
  destruct (cls c); [destruct b|]; simpl; try (specialize (IH true); lia).
  specialize (IH false). lia.
Qed.

Lemma hyphenate_nil (cls : ascii -> bool) (s : str) :
  hyphenate_runs cls false s = [] <-> s = [].
Proof.
  destruct s as [|c s]; [split; reflexivity|]. simpl.
  destruct (cls c); split; discriminate.
Qed.

Lemma lower_lower (c : ascii) : lower_char (lower_char c) = lower_char c.
Proof. destruct c as [[] [] [] [] [] [] [] []]; reflexivity. Qed.

Lemma getSectionId_derived (s : RuleSection) :
  slug s = None \/ slug s = Some [] ->
  getSectionId s = hyphenate_runs isSpace false (toLowerCase (title s)).
Proof. unfold getSectionId. intros [-> | ->]; reflexivity. Qed.

End SectionIdFacts.

Section SectionIdExtras.

Import Glossary SectionIdFacts.

(** X25. The identifier of a section without slug, or with an empty slug,
    is made from the title: it holds no white space and no capital letter,
    is not longer than the lower-cased title, and is empty only for an
    empty title. *)
Theorem derived_section_id :
  forall s : RuleSection,
    slug s = None \/ slug s = Some [] ->
    Forall (fun c => isSpace c = false) (getSectionId s) /\
    toLowerCase (getSectionId s) = getSectionId s /\
    length (getSectionId s) <= length (toLowerCase (title s)) /\
    (getSectionId s = [] <-> title s = []).
Proof.
  intros s Hs. rewrite (getSectionId_derived s Hs). repeat split.
  - apply hyphenate_Forall; [reflexivity|]. intros c _ Hc. exact Hc.
  - assert (H : Forall (fun c => lower_char c = c)
                       (hyphenate_runs isSpace false (toLowerCase (title s)))).
    { apply hyphenate_Forall; [reflexivity|]. intros c Hc _.
      unfold toLowerCase in Hc. apply in_map_iff in Hc.
      destruct Hc as (x & <- & _). apply lower_lower. }
    induction H as [|c l Hc Hl IH]; [reflexivity|].
    simpl. rewrite Hc. f_equal. exact IH.
  - apply hyphenate_length.
  - intros H. apply hyphenate_nil in H. destruct (title s); [reflexivity|].
    discriminate H.
  - intros ->. reflexivity.
Qed.

Lemma derived_section_id_witness :
  getSectionId (mkSection (lit "Close  Combat") None None None None None)
  = lit "close-combat" /\
  Forall (fun c => isSpace c = false)
         (getSectionId (mkSection (lit "Close  Combat") None None None None None)).
Proof.
  split; [reflexivity|].
  apply (derived_section_id
           (mkSection (lit "Close  Combat") None None None None None)).
  left. reflexivity.
Defined.

End SectionIdExtras.

(** ** Escaped text *)

Module EscapeFacts.

Import Regex.




End EscapeFacts.

Section EscapeExtras.

Import Regex EscapeFacts KeywordFacts.


End EscapeExtras.

(** ** The description of a resolved keyword *)

Module DescriptionFacts.

Import Regex Keywords KeywordFacts.

(** The matcher of one definition. *)
Definition matcher_of (k : KeywordDef) : KeywordMatcher :=
  let '(regex, hasParam) := buildMatcher (kw_name k) in
  mkMatcher (kw_name k) (kw_description k) regex hasParam.

Lemma matcher_of_fields (k : KeywordDef) :
  km_description (matcher_of k) = kw_description k /\
  km_regex (matcher_of k) = fst (buildMatcher (kw_name k)) /\
  km_hasParam (matcher_of k) = snd (buildMatcher (kw_name k)).
Proof.
  unfold matcher_of. destruct (buildMatcher (kw_name k)). repeat split.
Qed.

Lemma matchers_split (kws : list KeywordDef) (before' : list KeywordMatcher)
                     (def : KeywordMatcher) (after' : list KeywordMatcher) :
  KEYWORD_MATCHERS kws = before' ++ def :: after' ->
  exists before k after,
    kws = before ++ k :: after /\ before' = map matcher_of before /\
    def = matcher_of k.
Proof.
  change (KEYWORD_MATCHERS kws) with (map matcher_of kws). intros E.
  apply map_eq_app in E. destruct E as (before & rest & -> & <- & E).
  apply map_eq_cons in E. destruct E as (k & after & -> & <- & _).
  exists before, k, after. repeat split.
Qed.

Lemma at_X_head (prev : option ascii) (rest : str) :
  at_whole_word_X prev rest = true -> exists rest', rest = ch 88 :: rest'.
Proof.
  unfold at_whole_word_X, whole_word_X. cbn [match_atoms].
  destruct (boundary prev rest); [|discriminate].
  destruct rest as [|y rest']; [discriminate|]. unfold char_eq.
  destruct (Ascii.eqb (ch 88) y) eqn:E; [|discriminate].
  apply Ascii.eqb_eq in E. subst y. intros _. exists rest'. reflexivity.
Qed.

(** Putting [X] for every whole-word [X] changes nothing. *)
Lemma substitute_X_self (rest : str) :
  forall prev, substitute_from (lit "X") prev rest = rest.
Proof.
  induction rest as [|c rest IH]; intros prev; [reflexivity|].
  cbn [substitute_from].
  destruct (at_whole_word_X prev (c :: rest)) eqn:E.
  - apply at_X_head in E. destruct E as (rest' & E). inversion E; subst.
    change (lit "X" ++ substitute_from (lit "X") (Some (ch 88)) rest')
      with (ch 88 :: substitute_from (lit "X") (Some (ch 88)) rest').
    f_equal. apply IH.
  - f_equal. apply IH.
Qed.

Lemma resolve_in_skip (ms rest : list KeywordMatcher) (text slug : str) :
  Forall (fun d => regex_match (km_regex d) text = None) ms ->
  resolve_in (ms ++ rest) text slug = resolve_in rest text slug.
Proof.
  induction 1 as [|d ms Hd Hms IH]; [reflexivity|].
  cbn [app resolve_in]. unfold resolve_with at 1. rewrite Hd. exact IH.
Qed.

Lemma resolve_with_some (def : KeywordMatcher) (text slug : str)
                        (cap : option str) :
  regex_match (km_regex def) text = Some cap ->
  exists r, resolve_with def text slug = Some r /\ label r = text.
Proof.
  intros H. unfold resolve_with. rewrite H. eexists. split; reflexivity.
Qed.

Lemma matchers_none (kws : list KeywordDef) (text : str) :
  Forall (fun d => regex_match (fst (buildMatcher (kw_name d))) text = None) kws
  <-> Forall (fun d => regex_match (km_regex d) text = None)
             (map matcher_of kws).
Proof.
  rewrite Forall_map. split; apply Forall_impl; intros d H;
    destruct (matcher_of_fields d) as (_ & Ex & _); congruence.
Qed.

(** Either no definition matches, or there is a first one that does. *)
Lemma first_match_split (kws : list KeywordDef) (text : str) :
  Forall (fun d => regex_match (fst (buildMatcher (kw_name d))) text = None) kws
  \/ exists before k after cap,
       kws = before ++ k :: after /\
       Forall (fun d => regex_match (fst (buildMatcher (kw_name d))) text = None)
              before /\
       regex_match (fst (buildMatcher (kw_name k))) text = Some cap.
Proof.
  induction kws as [|d kws IH]; [left; constructor|].
  destruct (regex_match (fst (buildMatcher (kw_name d))) text) as [cap|] eqn:E.
  - right. exists [], d, kws, cap. repeat split; [constructor|exact E].
  - destruct IH as [IH|(before & k & after & cap & -> & Hb & Hc)].
    + left. constructor; assumption.
    + right. exists (d :: before), k, after, cap.
      repeat split; [constructor; assumption|exact Hc].
Qed.

(** What the description of a keyword resolved by [k] with the capture
    [cap] is. *)
Definition described (k : KeywordDef) (cap : option str)
                     (r : WeaponKeywordMatch) : Prop :=
  (snd (buildMatcher (kw_name k)) = false ->
   description r = kw_description k) /\
  (snd (buildMatcher (kw_name k)) = true ->
   dollar_free (parameter_of cap) = true ->
   description r = substitute_X (kw_description k) (parameter_of cap)) /\
  (snd (buildMatcher (kw_name k)) = true ->
   normalizeParam (match cap with Some p => p | None => [] end) = [] ->
   description r = kw_description k).

Lemma resolve_with_described (k : KeywordDef) (text slug : str)
                             (cap : option str) (r : WeaponKeywordMatch) :
  regex_match (fst (buildMatcher (kw_name k))) text = Some cap ->
  resolve_with (matcher_of k) text slug = Some r ->
  described k cap r.
Proof.
  intros Hc Hr. destruct (matcher_of_fields k) as (Ed & Ex & Ep).
  destruct (resolve_with_description _ _ _ r Hr) as (cap' & Ec & Hd & Hs).
  rewrite Ed, Ex, Ep in *. rewrite Hc in Ec. injection Ec as <-.
  split; [exact Hd|]. split; [exact Hs|].
  intros Hp Hn. rewrite (Hs Hp).
  - unfold parameter_of. rewrite Hn. cbn [truthy].
    unfold substitute_X. apply substitute_X_self.
  - unfold parameter_of. rewrite Hn. reflexivity.
Qed.

(** Completeness: the first definition that matches resolves the
    keyword. *)
Lemma first_match_resolves (kws : list KeywordDef) (keyword : str)
      (before : list KeywordDef) (k : KeywordDef) (after : list KeywordDef)
      (cap : option str) :
  trim keyword <> [] ->
  kws = before ++ k :: after ->
  Forall (fun d => regex_match (fst (buildMatcher (kw_name d)))
                               (trim keyword) = None) before ->
  regex_match (fst (buildMatcher (kw_name k))) (trim keyword) = Some cap ->
  exists r, resolveWeaponKeyword kws keyword = Some r /\
            label r = trim keyword /\ described k cap r.
Proof.
  intros Hne -> Hb Hc. unfold resolveWeaponKeyword. cbv zeta.
  destruct (trim keyword) as [|c t] eqn:Et; [contradiction|].
  cbn [truthy negb].
  change (KEYWORD_MATCHERS (before ++ k :: after))
    with (map matcher_of (before ++ k :: after)).
  rewrite map_app, resolve_in_skip by (apply matchers_none, Hb).
  cbn [map resolve_in].
  destruct (matcher_of_fields k) as (_ & Ex & _).
  destruct (resolve_with_some (matcher_of k) (c :: t) (slugify (c :: t)) cap)
    as (r & Er & El); [rewrite Ex; exact Hc|].
  rewrite Er. exists r. split; [reflexivity|]. split; [exact El|].
  apply (resolve_with_described k _ _ cap r Hc Er).
Qed.

Lemma resolves_none (kws : list KeywordDef) (keyword : str) :
  resolveWeaponKeyword kws keyword = None
  <-> trim keyword = [] \/
      Forall (fun d => regex_match (fst (buildMatcher (kw_name d)))
                                   (trim keyword) = None) kws.
Proof.
  split.
  - intros H. destruct (trim keyword) as [|c t] eqn:Et; [left; reflexivity|].
    right. destruct (first_match_split kws (c :: t))
      as [Hall|(before & k & after & cap & E & Hb & Hc)]; [exact Hall|].
    rewrite <- Et in Hb, Hc.
    destruct (first_match_resolves kws keyword before k after cap)
      as (r & Er & _); try assumption.
    + rewrite Et. discriminate.
    + congruence.
  - intros [Ht|Hall]; unfold resolveWeaponKeyword; cbv zeta.
    + rewrite Ht. reflexivity.
    + destruct (negb (truthy (trim keyword))); [reflexivity|].
      change (KEYWORD_MATCHERS kws) with (map matcher_of kws).
      rewrite <- (app_nil_r (map matcher_of kws)).
      rewrite resolve_in_skip by (apply matchers_none, Hall). reflexivity.
Qed.

Lemma resolved_by_first (kws : list KeywordDef) (keyword : str)
                        (r : WeaponKeywordMatch) :
  resolveWeaponKeyword kws keyword = Some r ->
  exists before k after cap,
    kws = before ++ k :: after /\
    Forall (fun d => regex_match (fst (buildMatcher (kw_name d)))
                                 (trim keyword) = None) before /\
    regex_match (fst (buildMatcher (kw_name k))) (trim keyword) = Some cap /\
    described k cap r.
Proof.
  intros H.
  assert (Hne : trim keyword <> []).
  { intros E. assert (Hn : resolveWeaponKeyword kws keyword = None)
      by (apply resolves_none; left; exact E). congruence. }
  destruct (first_match_split kws (trim keyword))
    as [Hall|(before & k & after & cap & E & Hb & Hc)].
  - assert (Hn : resolveWeaponKeyword kws keyword = None)
      by (apply resolves_none; right; exact Hall). congruence.
  - destruct (first_match_resolves kws keyword before k after cap Hne E Hb Hc)
      as (r' & Er & _ & Hd).
    assert (r' = r) by congruence. subst r'.
    exists before, k, after, cap. repeat split; assumption || apply Hd.
Qed.

End DescriptionFacts.

Section DescriptionExtras.

Import Regex Keywords KeywordFacts DescriptionFacts.

(** X27. A keyword is resolved by the first definition of the table whose
    pattern matches the trimmed input: such a definition always resolves
    it, nothing is resolved only when the trimmed input is empty or no
    definition matches, and every result comes from the first definition
    that matches.  Without a parameter the description is that of the
    definition; with a parameter whose trimmed text holds no dollar sign,
    every whole-word [X] of the description is replaced by that text; and
    when the trimmed parameter is empty the description is left as it
    is. *)
Theorem first_matching_definition_resolves :
  forall (kws : list KeywordDef) (keyword : str),
    (resolveWeaponKeyword kws keyword = None
     <-> trim keyword = [] \/
         Forall (fun d => regex_match (fst (buildMatcher (kw_name d)))
                                      (trim keyword) = None) kws) /\
    (forall before k after cap,
        trim keyword <> [] ->
        kws = before ++ k :: after ->
        Forall (fun d => regex_match (fst (buildMatcher (kw_name d)))
                                     (trim keyword) = None) before ->
        regex_match (fst (buildMatcher (kw_name k))) (trim keyword) = Some cap ->
        exists r,
          resolveWeaponKeyword kws keyword = Some r /\
          label r = trim keyword /\
          (snd (buildMatcher (kw_name k)) = false ->
           description r = kw_description k) /\
          (snd (buildMatcher (kw_name k)) = true ->
           dollar_free (parameter_of cap) = true ->
           description r = substitute_X (kw_description k) (parameter_of cap)) /\
          (snd (buildMatcher (kw_name k)) = true ->
           normalizeParam (match cap with Some p => p | None => [] end) = [] ->
           description r = kw_description k)) /\
    (forall r,
        resolveWeaponKeyword kws keyword = Some r ->
        exists before k after cap,
          kws = before ++ k :: after /\
          Forall (fun d => regex_match (fst (buildMatcher (kw_name d)))
                                       (trim keyword) = None) before /\
          regex_match (fst (buildMatcher (kw_name k))) (trim keyword)
          = Some cap /\
          (snd (buildMatcher (kw_name k)) = false ->
           description r = kw_description k) /\
          (snd (buildMatcher (kw_name k)) = true ->
           dollar_free (parameter_of cap) = true ->
           description r = substitute_X (kw_description k) (parameter_of cap)) /\
          (snd (buildMatcher (kw_name k)) = true ->
           normalizeParam (match cap with Some p => p | None => [] end) = [] ->
           description r = kw_description k)).
Proof.
  intros kws keyword. split; [apply resolves_none|]. split.
  - intros before k after cap Hne E Hb Hc.
    destruct (first_match_resolves kws keyword before k after cap Hne E Hb Hc)
      as (r & Er & El & Hd).
    exists r. split; [exact Er|]. split; [exact El|exact Hd].
  - intros r H.
    destruct (resolved_by_first kws keyword r H)
      as (before & k & after & cap & E & Hb & Hc & Hd).
    exists before, k, after, cap. repeat split; assumption || apply Hd.
Qed.

Lemma first_matching_definition_resolves_witness :
  exists r,
    resolveWeaponKeyword sample_keywords (lit "reach  12 ") = Some r /\
    label r = lit "reach  12" /\
    description r = lit "Strikes at 12 metres.".
Proof.
  destruct (first_matching_definition_resolves sample_keywords
                                               (lit "reach  12 "))
    as (_ & H & _).
  destruct (H [mkKeyword (lit "Burst (X)") (lit "Fires X rounds at once.")]
              (mkKeyword (lit "Reach X") (lit "Strikes at X metres."))
              [mkKeyword (lit "Silent") (lit "Makes no sound.")]
              (Some (lit "12")))
    as (r & Er & El & _ & Hd & _).
  - vm_compute. discriminate.
  - reflexivity.
  - constructor; [vm_compute; reflexivity|constructor].
  - vm_compute. reflexivity.
  - exists r. split; [exact Er|]. split; [rewrite El; reflexivity|].
    rewrite Hd; vm_compute; reflexivity.
Defined.

End DescriptionExtras.

(** ** Search results *)


Module ResultFacts.

Import Search SearchFacts Glossary Views App.

Lemma filterSection_id (s s' : RuleSection) (q : str) :
  filterSection s q = Some s' -> getSectionId s' = getSectionId s.
Proof.
  destruct s as [t sl lv c ss f]. destruct q as [|a q].
  - cbn. intros E; inversion E; reflexivity.
  - rewrite filterSection_unfold by discriminate.
    destruct (_ || _); [|discriminate]. intros E; inversion E; reflexivity.
Qed.

Lemma result_slugs_ids (rules : list RuleSection) (q : str) :
  q <> [] ->
  result_slugs rules q
  = map getSectionId (filter (fun d => sectionMatchesQuery d q) rules).
Proof.
  intros Hq. unfold result_slugs, filtered.
  destruct q as [|a q]; [contradiction|]. cbn [truthy negb].
  change (fun doc : RuleSection =>
            let derived :=
              hyphenate_runs isSpace false (toLowerCase (title doc)) in
            match slug doc with
            | Some s => if truthy s then s else derived
            | None => derived
            end) with getSectionId.
  induction rules as [|d rules IH]; [reflexivity|].
  cbn [flat_map filter]. rewrite map_app, IH.
  destruct (filterSection d (a :: q)) as [d'|] eqn:E.
  - assert (Hm : sectionMatchesQuery d (a :: q) = true).
    { destruct (sectionMatchesQuery d (a :: q)) eqn:Em; [reflexivity|].
      apply filterSection_none in Em; [congruence|discriminate]. }
    rewrite Hm. cbn [map app]. f_equal. exact (filterSection_id _ _ _ E).
  - apply filterSection_none in E; [|discriminate]. rewrite E. reflexivity.
Qed.

Lemma activeDoc_found (rules : list RuleSection) (d : RuleSection) :
  In d rules ->
  exists d', activeDoc rules (getSectionId d) = Some d' /\
             In d' rules /\ getSectionId d' = getSectionId d.
Proof.
  intros Hd. unfold activeDoc.
  destruct (find (fun x => Str.eqb (getSectionId x) (getSectionId d)) rules)
    as [d'|] eqn:F.
  - apply find_some in F. destruct F as [Hin E]. apply Str.eqb_spec in E.
    exists d'. repeat split; assumption.
  - apply (find_none _ _ F) in Hd. rewrite Str.eqb_refl in Hd. discriminate Hd.
Qed.

End ResultFacts.

Section ResultExtras.

Import Search SearchFacts Glossary Views App ResultFacts.

(** X28. With a non-empty query the search results are the documents that
    self-match, in the order of the rules, each under the identifier of
    the original document; selecting a result makes active a document of
    the rules that carries this identifier. *)
Theorem search_results_select_documents :
  forall (rules : list RuleSection) (q : str),
    q <> [] ->
    result_slugs rules q
    = map getSectionId (filter (fun d => sectionMatchesQuery d q) rules) /\
    (forall slug, In slug (result_slugs rules q) ->
                  exists d, activeDoc rules slug = Some d /\
                            In d rules /\ getSectionId d = slug).
Proof.
  intros rules q Hq. split; [apply result_slugs_ids, Hq|].
  intros sl Hin. rewrite (result_slugs_ids rules q Hq) in Hin.
  apply in_map_iff in Hin. destruct Hin as (d & <- & Hd).
  apply filter_In in Hd. destruct Hd as [Hd _].
  apply activeDoc_found, Hd.
Qed.

Lemma search_results_select_documents_witness :
  result_slugs sample_docs (lit "gear") = [lit "gear"] /\
  exists d, activeDoc sample_docs (lit "gear") = Some d /\ In d sample_docs.
Proof.
  assert (Hq : lit "gear" <> []) by discriminate.
  destruct (search_results_select_documents sample_docs (lit "gear") Hq)
    as [E H].
  split; [rewrite E; vm_compute; reflexivity|].
  destruct (H (lit "gear")) as (d & Ha & Hd & _).
  - rewrite E. vm_compute. left. reflexivity.
  - exists d. split; assumption.
Defined.

End ResultExtras.

(** ** Examples *)

(** A document with a labelled table and a nested section of that name. *)
Definition armor_doc : RuleSection :=
  mkSection (lit "Armor") None None
    (Some [Table [[mkCell (lit " Shields ") None];
                  [mkCell (lit "Buckler") None; mkCell (lit "1") None]]])
    (Some [mkSection (lit "SHIELDS") None None
             (Some [Paragraph (lit "Carried on the arm.") None]) None None])
    None.

Section Examples.

Import Glossary Annotator AnnotatorFacts SlugFacts AnchorFacts Views ViewFacts.

Lemma highlight_keeps_the_text_witness :
  marks (highlightText (lit "Fire and fire") (lit "fire")) <> [].
Proof.
  destruct (highlight_keeps_the_text (lit "Fire and fire") (lit "fire"))
    as (_ & _ & H & _).
  intros E. apply H in E; [|discriminate]. vm_compute in E. discriminate E.
Defined.

Lemma slug_shape_witness :
  slugify (lit " Reach  3! ") = lit "reach-3" /\ isHyphen (ch 114) = false.
Proof.
  split; [reflexivity|].
  destruct (slug_shape (lit " Reach  3! ")) as (_ & H & _).
  apply (H (ch 114) (lit "each-3")). reflexivity.
Defined.

Lemma anchors_name_documents_witness :
  exists d doc,
    map_get (lit "gear") (snd (buildAnchorMaps sample_docs)) = Some d /\
    In doc sample_docs /\ d = getSectionId doc.
Proof.
  destruct (anchors_name_documents sample_docs) as [H _].
  destruct (map_get (lit "gear") (snd (buildAnchorMaps sample_docs)))
    as [d|] eqn:E; [|vm_compute in E; discriminate E].
  destruct (H _ _ E) as (doc & Hdoc & Ed).
  exists d, doc. repeat split; assumption.
Defined.

Lemma injected_table_witness :
  view_blocks (tablesByLabel (Some armor_doc))
              (mkSection (lit "SHIELDS") None None
                 (Some [Paragraph (lit "Carried on the arm.") None]) None None)
              1
  = [Table [[mkCell (lit " Shields ") None];
            [mkCell (lit "Buckler") None; mkCell (lit "1") None]];
     Paragraph (lit "Carried on the arm.") None].
Proof.
  pose proof (injected_table armor_doc
                (mkSection (lit "SHIELDS") None None
                   (Some [Paragraph (lit "Carried on the arm.") None])
                   None None) 1) as H.
  cbv zeta in H. destruct H as [H _]. rewrite H. vm_compute. reflexivity.
Defined.

Lemma labelled_tables_first_wins_witness :
  In (mkLabeled (lit "Shields")
                (Table [[mkCell (lit " Shields ") None];
                        [mkCell (lit "Buckler") None; mkCell (lit "1") None]]))
     (collectLabeledTables armor_doc []).
Proof.
  destruct (labelled_tables_first_wins armor_doc []) as (_ & H & _).
  apply H.
  exists (mkSection (lit "Armor") None (Some 0)
            (Some [Table [[mkCell (lit " Shields ") None];
                          [mkCell (lit "Buckler") None; mkCell (lit "1") None]]])
            (Some [mkSection (lit "SHIELDS") None None
                     (Some [Paragraph (lit "Carried on the arm.") None])
                     None None])
            None),
         (mkCell (lit " Shields ") None),
         [[mkCell (lit "Buckler") None; mkCell (lit "1") None]].
  split; [left; reflexivity|]. split; [left; reflexivity|].
  split; [vm_compute; discriminate|reflexivity].
Defined.

End Examples.
